(* ===== verification/_CoqProject ===== *)
-Q . S2P
Prelude.v
Js.v
Dom.v
Mutation.v
Actions.v
Live.v
Page.v
PanelSpec.v
