(* ===== verification/Prelude.v ===== *)
(** * A verification development of mimir-cms's [hideandshowactions.js]

    ** The program

    The repository's one source file,
    [src/main/resources/static/js/hideandshowactions.js], keeps at most one
    "action" panel of a page visible.  It has three functions:
    - [hideAllOtherActions(exceptId)] (lines 1-5) sets [style.display] to
      ["none"] on every element of class [action] whose [id] is not
      [exceptId];
    - [toggleActionVisibility(id)] (lines 7-10) looks the element up by ID
      without a guard and flips its display between ["block"] and
      ["none"] (anything but ["block"] becomes ["block"]);
    - [registerShowActionOnClick(buttonId, actionId)] (lines 12-21) looks
      the button up with a guard and attaches a click listener (a new
      function object each call) whose body calls the first two, in that
      order.
    The functions act on the browser's document, and the page's own
    script and the event loop call them; neither is in the repository.

    ** The files

    - [Prelude] (this file): the [js_scope] notations ([===] on strings),
      the hint databases [mimir] and [mimir_rw], the tactics
      [case_streq] and [decide_by_eval], and list lemmas the components
      share (filters with at most one element, injective maps).
    - [Js]: JavaScript's effects as a state monad whose exceptions keep
      the state ([JS S A := S -> S * completion A]), with [forEach] and
      [filter] as monadic traversals, the monad laws up to [≡js] and a
      [Proper] instance for bind.
    - [Dom]: the host document the file calls.  A [World] is a heap of
      element objects keyed by node identity, the tree order, the parent
      links, and the function-object allocator.  It has [getElementById]
      ([element_by_id]), [getElementsByClassName], [element.id],
      [style.display], [addEventListener] (which drops a duplicate
      function object) and click [dispatch].  Dispatch bubbles: it walks
      the event path (the target, then its ancestors, [event_path]) and
      at each node runs a snapshot of that node's listeners in order,
      reporting each exception without stopping.  It calls the program's
      code through the [Invoke] class: that class is the interface
      between host and program.  Dom also defines well-formedness
      ([dom_wf]: tree order without duplicates, unique non-empty IDs,
      parents before children in tree order; [fn_ids_below]: every
      listener's function object was allocated already).  It has the
      frame lemmas and [doc_equiv], the equivalence "same document up to
      listeners", with [Proper] instances for every read the program
      makes.  The lemmas on the event path show that the fuel-bounded
      walk is long enough ([ancestors_enough_fuel]), ends at a root and
      computes the ancestor relation ([event_path_spec]).
    - [Mutation]: the page changing the document under the program: the
      host's [appendChild] of a new element ([append_child]), at an
      object identity no object has ([fresh_ref]), as its parent's last
      child in tree order.  [insert_ok] is what the page must respect
      (a parent in the document, an empty or new ID, no listeners yet);
      under it the insertion keeps [dom_wf] and [fn_ids_below], changes
      no other element's event path, listeners or lookup, and the new
      element is what [getElementById] finds for its ID.
    - [Actions]: the program.  [hideAllOtherActions], [toggleActionVisibility],
      [registerShowActionOnClick], the closure [ShowActionOnClick actionId]
      of lines 17-20 and its body [show_action_listener], each written
      the way the source writes it.  Each has a closed form of its run
      ([*_run], [show_action_listener_found/_missing]).  Because the
      listener adds and removes no listener, a click runs the listeners
      of its whole event path as one list ([click_flat]).  The claims
      C2, C3, C6-C18 and C30 are proved here.
    - [Live]: the copy of line 2 against the live collection: a
      reference loop that walks [getElementsByClassName("action")] by
      index and re-reads it at each step ([live_loop], with the size of
      the document as fuel) is equal to [hideAllOtherActions] on every
      document (C25).
    - [Page]: the page as transition systems.  [page_step] is a
      registration by the page's script or a click dispatched by the
      event loop, one at a time and each run to completion; [run_events]
      runs a sequence.  [dyn_step] adds the host's insertions, [call_step]
      the page's own direct calls of [hideAllOtherActions] and
      [toggleActionVisibility] (spec, section 6), and [safe_step] is a
      page that registers triggers only for panels in the document, with
      insertions and direct calls.  The invariants are proved by
      induction on [rtc] of these relations (C1, C23, C24, C29), and the
      behaviour of single clicks on a changing document (C20-C22, C28,
      C31) and of the errors of whole runs (C19).
    - [PanelSpec]: the contract the spec promises, without a DOM.  The
      module [PanelSpec] describes the panels as (ID, shown) pairs.
      [show_exclusive a] flips [a] and hides the rest (with distinct IDs
      at most one panel is shown afterwards), and is [hide_others a]
      followed by [toggle a], the listener's two calls.  The contract's
      labelled machine ([PanelSpec.step], [PanelSpec.run]) has as state
      the panels and a registration table (the actions each node's
      triggers show) and as labels the page's events with the host's
      answers.  [panels_of] and [abs] are the abstraction functions, and
      [≡] on contract states compares tables pointwise, with [Proper]
      instances for [step] and [run].  The refinement theorems: a click
      is one [show_exclusive] per listener on its path (C4); each direct
      call is its half of the contract (C26, C27); and every labelled run
      of the page ([page_lsteps]: registrations, clicks, insertions and
      direct calls) is the contract's run of the same labels, exactly
      (C5).

    ** What the theorems show

    - Mutual exclusion (C1, C2): from a well-formed document with at most
      one visible panel, every reachable state has at most one visible
      panel, whatever the registrations, the clicks and the exceptions.
      A click on the button or on any element inside it runs the trigger
      (C2, by bubbling).
      Unique IDs are needed: [Page.duplicate_ids_break_exclusion] is a
      document with a duplicated ID where one click leaves two panels
      visible.
    - Functional behaviour of each function on every branch (C3, C8, C11,
      C14), the error paths (C6, C9, C10, C15, C16), the round trip of two
      toggles with its exact condition (C7), the commutation of the
      listener's two calls when the target exists (C13).
    - Refinement (C4, C5, C26, C27): the contract's machine, run on the
      labels of the page's events, computes exactly the panels and the
      registrations of the document; a listener that shows the wrong
      panel, skips a hide or attaches to the wrong node breaks it.
    - Liveness (C17): a single trigger on a click's path shows its panel
      within two clicks.  Bounds and type of the errors (C18, C19): a
      click reports one [TypeError] per listener whose target is missing
      and nothing else, and no other exception ever reaches the page.  A
      page that registers triggers only for existing panels never sees
      an exception from a click, whatever it inserts or calls (C24).
    - A changing document (C20-C23): the program queries the document on
      each call (spec, section 9), so a panel the page adds later is one
      of those a click hides (C21), and a trigger registered before its
      panel exists shows it once inserted (C22); the exclusion survives
      insertions of panels that are not shown (C23), and one click
      restores it after a shown panel was inserted (C20;
      [Page.inserted_shown_panel_breaks_exclusion] shows the state in
      between).
    - Direct calls (C26-C29, C31): called by the page's own script, each
      function refines its half of the contract; a direct toggle can
      leave two panels shown ([Page.direct_toggle_breaks_exclusion]), a
      direct hide (C28) or the first trigger click after any
      initialization (C29) restores the exclusion, and every display
      written is ["none"] or ["block"] (C31).
    - The copy of line 2 (C25): the loop over the array copy and a loop
      over the live collection agree on every document.
    - Nested triggers (C30): with a trigger on a button and another on an
      element inside it, one click runs the inner listener first and the
      outer one last, so the outer panel is the one left shown.
    - The findings: a failing click still hides every panel (C6); two
      toggles do not restore an unset display (C7); a repeated
      registration makes a click toggle twice (C12); an empty [actionId]
      exempts the panels without ID (C16); nested triggers leave the
      outer panel shown (C30).

    ** Modelling choices

    Strings are Stdlib [string], and JavaScript's [===] is [bool_decide]
    on them.  The heap is a stdpp [gmap nat Element]: every reference to
    an element (the snapshot of [Array.from], the listener's lookup)
    reads and writes the same object.  An unset inline display or a
    missing [id] is [""], as the DOM returns it.  A new element object
    gets stdpp's [fresh] identity outside the heap and the tree order.
    Every definition of the program is structurally recursive on a list,
    so every function is total.  Two walks of the model take fuel, the
    number of elements of the document: the walk up the parent links
    ([ancestors]), where a parent comes before its child in tree order
    so a path never has more ancestors than that
    ([Dom.ancestors_enough_fuel] shows the fuel never cuts the walk
    short), and the reference loop over the live collection
    ([Live.live_loop]), which has at most that many members to visit
    (C25).  A thrown exception is a value ([Abrupt]) that keeps the
    mutations made before it.  The labels of the contract's machine carry
    the host's answers (the node a [buttonId] resolves to, a click's event
    path, an inserted panel and its place); the program's behaviour is
    everything else the machine does.

    ** Not modelled

    The capture phase of a dispatch and [stopPropagation] (the program
    registers bubbling listeners and never stops an event), removal of
    listeners and elements and moves of elements in the tree (the
    page's insertions are modelled, its removals are not: an element
    removed with its subtree keeps the parent links inside the subtree,
    which [tree_wf], a property of the nodes in tree order, does not
    describe; a click from the user never reaches a detached element),
    and CSS (a panel shown by a stylesheet with an unset inline display
    counts as not visible, as it does for the code's own test).

    ** Plan

    Done: the three functions and their listener (Actions), the host
    calls and bubbling dispatch (Dom), the page's transition systems and
    their invariants (Page), the insertions of new elements (Mutation),
    the contract as a labelled machine and the exact refinement of
    clicks, direct calls and whole labelled runs (PanelSpec), the live
    collection against its copy (Live).  Next: removal of elements, once
    [tree_wf] covers detached subtrees (see above). *)

From stdpp Require Import base list gmap strings.

Declare Scope js_scope.
Delimit Scope js_scope with js.

(** JavaScript's strict equality [===] on strings, as a boolean. *)
Definition js_streq (a b : string) : bool := bool_decide (a = b).
Notation "a === b" := (js_streq a b) (at level 70, no associativity) : js_scope.
Notation "a !== b" := (negb (js_streq a b)) (at level 70, no associativity) : js_scope.

Create HintDb mimir.
Create Rewrite HintDb mimir_rw.

Lemma js_streq_true a b : js_streq a b = true <-> a = b.
Proof. unfold js_streq. apply bool_decide_eq_true. Qed.

Lemma js_streq_false a b : js_streq a b = false <-> a <> b.
Proof. unfold js_streq. apply bool_decide_eq_false. Qed.

Lemma js_streq_refl a : js_streq a a = true.
Proof. by apply js_streq_true. Qed.

#[export] Hint Rewrite js_streq_refl : mimir_rw.
#[export] Hint Resolve js_streq_refl : mimir.

(** Case analysis on a string comparison in the goal. *)
Ltac case_streq a b :=
  let E := fresh "E" in
  destruct (js_streq a b) eqn:E;
  [apply js_streq_true in E | apply js_streq_false in E].

(** Close a decidable proposition about concrete data by evaluation. *)
Ltac decide_by_eval := apply (bool_decide_unpack _); vm_compute; reflexivity.

(** ** Generic lemmas on lists *)

Section lists.
Context {A : Type}.

(** A filter keeps at most one element of a duplicate-free list when
    its predicate holds of at most one of them. *)
Lemma length_filter_le_1 (P : A -> Prop) `{!forall x, Decision (P x)} (l : list A) :
  NoDup l ->
  (forall x y, x ∈ l -> y ∈ l -> P x -> P y -> x = y) ->
  length (filter P l) <= 1.
Proof.
  intros Hnd Huniq.
  destruct (filter P l) as [|x [|y k]] eqn:Hf; simpl; [lia | lia |].
  assert (Hnd' : NoDup (filter P l)) by (by apply NoDup_filter).
  rewrite Hf in Hnd'.
  assert (Hx : x ∈ filter P l) by (rewrite Hf; set_solver).
  assert (Hy : y ∈ filter P l) by (rewrite Hf; set_solver).
  apply list_elem_of_filter in Hx as [HPx Hx].
  apply list_elem_of_filter in Hy as [HPy Hy].
  pose proof (Huniq x y Hx Hy HPx HPy) as ->.
  apply NoDup_cons in Hnd' as [Hn _]. set_solver.
Qed.

(** Two predicates that agree on the elements of a list filter it alike. *)
Lemma filter_agree (P Q : A -> Prop) `{!forall x, Decision (P x)}
      `{!forall x, Decision (Q x)} (l : list A) :
  (forall x, x ∈ l -> P x <-> Q x) -> filter P l = filter Q l.
Proof.
  induction l as [|x l IH]; intros Hpq; [done |].
  rewrite !filter_cons.
  assert (Hx : P x <-> Q x) by (apply Hpq; set_solver).
  rewrite IH; [| intros y Hy; apply Hpq; set_solver].
  destruct (decide (P x)), (decide (Q x)); naive_solver.
Qed.

Lemma filter_all_false (P : A -> Prop) `{!forall x, Decision (P x)} (l : list A) :
  (forall x, x ∈ l -> ~ P x) -> filter P l = [].
Proof.
  induction l as [|x l IH]; intros Hl; [done |].
  rewrite filter_cons, decide_False by set_solver. apply IH. set_solver.
Qed.

Lemma filter_all_true (P : A -> Prop) `{!forall x, Decision (P x)} (l : list A) :
  (forall x, x ∈ l -> P x) -> filter P l = l.
Proof.
  induction l as [|x l IH]; intros Hl; [done |].
  rewrite filter_cons, decide_True by set_solver. f_equal. apply IH. set_solver.
Qed.

(** The converse of [length_filter_le_1]. *)
Lemma filter_le_1_eq (P : A -> Prop) `{!forall x, Decision (P x)} (l : list A) x y :
  length (filter P l) <= 1 -> x ∈ l -> y ∈ l -> P x -> P y -> x = y.
Proof.
  intros Hlen Hx Hy HPx HPy.
  assert (Hx' : x ∈ filter P l) by (by apply list_elem_of_filter).
  assert (Hy' : y ∈ filter P l) by (by apply list_elem_of_filter).
  destruct (filter P l) as [|z [|z' k]]; simpl in Hlen; [set_solver | set_solver | lia].
Qed.

(** A list without duplicates has at most one element exactly when any
    two of its elements are equal. *)
Lemma length_le_1_iff (l : list A) :
  NoDup l -> length l <= 1 <-> forall x y, x ∈ l -> y ∈ l -> x = y.
Proof.
  intros Hnd. split.
  - destruct l as [|a [|b k]]; simpl; intros Hlen; [set_solver | set_solver | lia].
  - intros Heq. destruct l as [|a [|b k]]; simpl; [lia | lia |].
    apply NoDup_cons in Hnd as [Ha _]. exfalso. apply Ha.
    rewrite (Heq a b) by set_solver. set_solver.
Qed.

(** A map without duplicates is injective on the list. *)
Lemma NoDup_map_eq {B} (f : A -> B) (l : list A) x y :
  NoDup (map f l) -> x ∈ l -> y ∈ l -> f x = f y -> x = y.
Proof.
  induction l as [|z l IH]; intros Hnd Hx Hy Hf; [set_solver |].
  rewrite map_cons in Hnd. apply NoDup_cons in Hnd as [Hz Hnd].
  assert (Hin : forall u, u ∈ l -> f u ∈ map f l).
  { intros u Hu. apply list_elem_of_In, in_map, list_elem_of_In, Hu. }
  apply elem_of_cons in Hx as [->|Hx], Hy as [->|Hy]; [done | | | by apply IH].
  - exfalso. apply Hz. rewrite Hf. by apply Hin.
  - exfalso. apply Hz. rewrite <- Hf. by apply Hin.
Qed.

Lemma NoDup_map_inv' {B} (f : A -> B) (l : list A) : NoDup (map f l) -> NoDup l.
Proof.
  induction l as [|z l IH]; intros Hnd; [constructor |].
  rewrite map_cons in Hnd. apply NoDup_cons in Hnd as [Hz Hnd].
  constructor; [| by apply IH]. intros Hzl. apply Hz.
  apply list_elem_of_In, in_map, list_elem_of_In, Hzl.
Qed.
(** The concatenation of a map is empty exactly when each image is. *)
Lemma concat_map_nil {B} (f : A -> list B) (l : list A) :
  concat (map f l) = [] <-> forall y, y ∈ l -> f y = [].
Proof.
  induction l as [|z l IH]; simpl; [set_solver |].
  rewrite app_nil, IH. setoid_rewrite elem_of_cons. naive_solver.
Qed.

(** On a list without duplicates, a map whose images are empty except at
    [x] concatenates to the image of [x]. *)
Lemma concat_map_single {B} (f : A -> list B) (l : list A) x :
  NoDup l -> x ∈ l -> (forall y, y ∈ l -> y <> x -> f y = []) ->
  concat (map f l) = f x.
Proof.
  induction l as [|z l IH]; intros Hnd Hx Hf; [set_solver |].
  apply NoDup_cons in Hnd as [Hz Hnd]. simpl.
  apply elem_of_cons in Hx as [<-|Hx].
  - rewrite (proj2 (concat_map_nil f l)), app_nil_r; [done |].
    intros y Hy. apply Hf; set_solver.
  - rewrite Hf by set_solver. apply IH; [done | done |].
    intros y Hy. apply Hf. set_solver.
Qed.
End lists.
