(* ===== verification/Js.v ===== *)
(** * JavaScript effects: a state monad whose exceptions keep the state

    A JavaScript function mutates the heap as it runs, and a [throw]
    leaves every mutation done before it in place.  [JS S A] is a state
    transformer that returns the final state together with a completion
    record (normal with a value, or abrupt with an error), so the state
    reached before an exception is observable.  ExtLib's [stateT S (sum E)]
    would drop that state and is not used for that reason.  The array
    methods the source calls ([Array.prototype.filter] and [forEach]) are
    the monadic traversals [js_filter] and [js_forEach]. *)

From stdpp Require Import base list strings.
From S2P Require Import Prelude.

(** The errors a host function raises; the only one the source can meet
    is the [TypeError] of a property read on [null]. *)
Inductive JsError :=
| TypeError (msg : string).

#[export] Instance JsError_eq_dec : EqDecision JsError.
Proof. solve_decision. Defined.

(** An ECMAScript completion record, without [break]/[continue]. *)
Inductive completion (A : Type) :=
| Normal (v : A)
| Abrupt (e : JsError).
Arguments Normal {A} v.
Arguments Abrupt {A} e.

Definition JS (S A : Type) : Type := S -> S * completion A.

Section monad.
Context {S : Type}.

Definition js_ret {A} (a : A) : JS S A := fun s => (s, Normal a).

Definition js_bind {A B} (m : JS S A) (k : A -> JS S B) : JS S B :=
  fun s =>
    match m s with
    | (s', Normal a) => k a s'
    | (s', Abrupt e) => (s', Abrupt e)
    end.

Definition js_throw {A} (e : JsError) : JS S A := fun s => (s, Abrupt e).

(** A read of the state. *)
Definition js_gets {A} (f : S -> A) : JS S A := fun s => (s, Normal (f s)).

(** A write of the state that cannot fail. *)
Definition js_modify (f : S -> S) : JS S unit := fun s => (f s, Normal tt).

(** The state after running [m], whatever its completion. *)
Definition exec {A} (m : JS S A) (s : S) : S := fst (m s).
End monad.

Notation "x <- m ;; k" := (js_bind m (fun x => k))
  (at level 100, m at next level, right associativity) : js_scope.
Notation "m ;; k" := (js_bind m (fun _ => k))
  (at level 100, right associativity) : js_scope.

Local Open Scope js_scope.

Section traversals.
Context {S A : Type}.

(** [arr.forEach(f)]: calls [f] on each element in order; an exception
    thrown by [f] leaves [forEach] at once. *)
Fixpoint js_forEach (f : A -> JS S unit) (l : list A) : JS S unit :=
  match l with
  | [] => js_ret tt
  | x :: l' => f x ;; js_forEach f l'
  end.

(** [arr.filter(p)]: a new array of the elements on which [p] is truthy,
    the predicate called on each element in order. *)
Fixpoint js_filter (p : A -> JS S bool) (l : list A) : JS S (list A) :=
  match l with
  | [] => js_ret []
  | x :: l' =>
      b <- p x ;;
      r <- js_filter p l' ;;
      js_ret (if b then x :: r else r)
  end.
End traversals.

(** Equality of computations up to the state they start from: the
    equivalence under which the monad laws hold without extensionality. *)
Definition js_equiv {S A} (m1 m2 : JS S A) : Prop := forall s, m1 s = m2 s.
Infix "≡js" := js_equiv (at level 70, no associativity) : js_scope.

(** ** The monad laws and the laws of the effects *)

Section laws.
Context {S : Type}.

#[export] Instance js_equiv_equivalence {A} : Equivalence (@js_equiv S A).
Proof. split; repeat intro; congruence. Qed.

#[export] Instance js_bind_proper {A B} :
  Proper (js_equiv ==> pointwise_relation A js_equiv ==> js_equiv) (@js_bind S A B).
Proof.
  intros m1 m2 Hm k1 k2 Hk s. unfold js_bind. rewrite Hm.
  destruct (m2 s) as [s' [a|e]]; [apply Hk | done].
Qed.

Lemma js_bind_ret_l {A B} (a : A) (k : A -> JS S B) : js_bind (js_ret a) k ≡js k a.
Proof. intros s. reflexivity. Qed.

Lemma js_bind_ret_r {A} (m : JS S A) : js_bind m js_ret ≡js m.
Proof. intros s. unfold js_bind. by destruct (m s) as [s' [a|e]]. Qed.

Lemma js_bind_assoc {A B C} (m : JS S A) (f : A -> JS S B) (g : B -> JS S C) :
  js_bind (js_bind m f) g ≡js js_bind m (fun a => js_bind (f a) g).
Proof. intros s. unfold js_bind. by destruct (m s) as [s' [a|e]]. Qed.

(** An exception keeps the state and skips the continuation. *)
Lemma js_bind_throw {A B} (e : JsError) (k : A -> JS S B) s :
  js_bind (js_throw e) k s = (s, Abrupt e).
Proof. reflexivity. Qed.

Lemma js_bind_gets {A B} (f : S -> A) (k : A -> JS S B) s :
  js_bind (js_gets f) k s = k (f s) s.
Proof. reflexivity. Qed.

Lemma js_bind_modify {B} (f : S -> S) (k : unit -> JS S B) s :
  js_bind (js_modify f) k s = k tt (f s).
Proof. reflexivity. Qed.

Lemma js_bind_normal {A B} (m : JS S A) (k : A -> JS S B) s s' a :
  m s = (s', Normal a) -> js_bind m k s = k a s'.
Proof. unfold js_bind. by intros ->. Qed.

Lemma js_bind_abrupt {A B} (m : JS S A) (k : A -> JS S B) s s' e :
  m s = (s', Abrupt e) -> js_bind m k s = (s', Abrupt e).
Proof. unfold js_bind. by intros ->. Qed.

(** [forEach] of a callback that only writes the state is a left fold
    of the writes. *)
Lemma js_forEach_modify {A} (f : A -> JS S unit) (g : A -> S -> S) (l : list A) s :
  (forall x, f x ≡js js_modify (g x)) ->
  js_forEach f l s = (foldl (fun s x => g x s) s l, Normal tt).
Proof.
  intros Hf. revert s. induction l as [|x l IH]; intros s; [done |].
  simpl. unfold js_bind. rewrite Hf. apply IH.
Qed.

(** [filter] with a predicate that only reads the state returns the pure
    filter of the list and leaves the state alone. *)
Lemma js_filter_gets {A} (p : A -> JS S bool) (q : A -> S -> bool) (l : list A) s :
  (forall x, p x ≡js js_gets (q x)) ->
  js_filter p l s = (s, Normal (filter (fun x => q x s = true) l)).
Proof.
  intros Hp. induction l as [|x l IH]; [done |].
  simpl. unfold js_bind. rewrite Hp. simpl. rewrite IH. simpl.
  rewrite filter_cons. by destruct (q x s).
Qed.
End laws.

#[export] Hint Rewrite @js_bind_throw @js_bind_gets @js_bind_modify : mimir_rw.
