(* ===== verification/Dom.v ===== *)
(** * The host document: the part of the DOM the source calls

    The browser's DOM is not code of this repository; this file models
    the operations [hideandshowactions.js] calls, after the DOM and
    CSSOM standards:
    - a [World] holds the element objects in a heap ([w_heap], keyed by
      node identity), the document's elements in tree order ([w_order]),
      the parent links of the tree ([w_parent]) and the identity of the
      next function object ([w_next_fn]);
    - [getElementById] returns the first element in tree order with the
      given ID, and [null] ([None]) for the empty string;
    - [getElementsByClassName] followed by [Array.from] is the array of
      the elements carrying the class, in tree order;
    - [element.id], [element.style.display] are reads and writes of the
      element object in the heap, shared by every reference to it;
    - [addEventListener] appends a listener unless one with the same type
      and the same function object is there already;
    - dispatching a click walks its event path, the target and then its
      ancestors ([event_path], a walk up the parent links with the
      document's size as fuel): at each node it takes a snapshot of the
      node's click listeners and runs them in order; an exception a
      listener throws is reported and the next listener still runs.
    The listeners' code is the client's: [dispatch] calls it through the
    [Invoke] interface, which the program's file instantiates.

    Well-formedness ([dom_wf]) asks for tree order without duplicates,
    unique non-empty IDs and parents before their children in tree order
    ([tree_wf]).  On such a tree the walk is long enough
    ([ancestors_enough_fuel]), ends at a root ([event_path_reaches_root])
    and computes the ancestor relation [rtc parent_step]
    ([event_path_spec]). *)

From stdpp Require Import base list gmap strings.
From S2P Require Import Prelude Js.

Local Open Scope js_scope.

(** The identity of an element object. *)
Abbreviation ref := nat.

Section dom.
Context {Closure : Type}.

(** A function object: its identity and the closure it evaluates. *)
Record FnObj := mkFn { fn_id : nat; fn_closure : Closure }.

Record Listener := mkListener { l_type : string; l_fn : FnObj }.

(** An element: its ID ([""] when it has none), its class list, its
    inline [style.display] ([""] when unset) and its listeners. *)
Record Element := mkElement {
  el_id : string;
  el_classes : list string;
  el_display : string;
  el_listeners : list Listener
}.

Record World := mkWorld {
  w_heap : gmap nat Element;
  w_order : list nat;
  w_parent : gmap nat nat;
  w_next_fn : nat
}.

Definition set_el_display (v : string) (e : Element) : Element :=
  mkElement (el_id e) (el_classes e) v (el_listeners e).

Definition add_el_listener (l : Listener) (e : Element) : Element :=
  mkElement (el_id e) (el_classes e) (el_display e) (el_listeners e ++ [l]).

Definition alter_element (f : Element -> Element) (r : ref) (w : World) : World :=
  mkWorld (alter f r (w_heap w)) (w_order w) (w_parent w) (w_next_fn w).

(** The first element of [order] whose ID is [id]. *)
Fixpoint find_id (h : gmap nat Element) (id : string) (order : list ref) : option ref :=
  match order with
  | [] => None
  | r :: order' =>
      match h !! r with
      | Some e => if el_id e === id then Some r else find_id h id order'
      | None => find_id h id order'
      end
  end.

(** The element [document.getElementById(id)] returns: none for the
    empty string, which is no element's ID. *)
Definition element_by_id (w : World) (id : string) : option ref :=
  if id === "" then None else find_id (w_heap w) id (w_order w).

Definition getElementById (id : string) : JS World (option ref) :=
  js_gets (fun w => element_by_id w id).

Definition has_class (cls : string) (w : World) (r : ref) : Prop :=
  match w_heap w !! r with
  | Some e => cls ∈ el_classes e
  | None => False
  end.

#[export] Instance has_class_dec cls w r : Decision (has_class cls w r).
Proof. unfold has_class. destruct (w_heap w !! r); apply _. Defined.

(** [Array.from(document.getElementsByClassName(cls))]: the members of
    the class in tree order, copied out of the live collection. *)
Definition getElementsByClassName (cls : string) : JS World (list ref) :=
  js_gets (fun w => filter (has_class cls w) (w_order w)).

(** [element.id]. *)
Definition id_of (w : World) (r : ref) : string :=
  from_option el_id "" (w_heap w !! r).

Definition get_id (r : ref) : JS World string := js_gets (fun w => id_of w r).

(** [element.style.display]. *)
Definition display_of (w : World) (r : ref) : string :=
  from_option el_display "" (w_heap w !! r).

Definition get_display (r : ref) : JS World string := js_gets (fun w => display_of w r).

(** [element.style.display = v]. *)
Definition set_display (r : ref) (v : string) : JS World unit :=
  js_modify (alter_element (set_el_display v) r).

(** Evaluating a function expression allocates a new function object. *)
Definition create_function (c : Closure) : JS World FnObj :=
  fun w => (mkWorld (w_heap w) (w_order w) (w_parent w) (S (w_next_fn w)),
            Normal (mkFn (w_next_fn w) c)).

Definition same_listener (type : string) (f : FnObj) (l : Listener) : Prop :=
  l_type l = type /\ fn_id (l_fn l) = fn_id f.

(** [element.addEventListener(type, f)]: no duplicate of the pair. *)
Definition addEventListener (r : ref) (type : string) (f : FnObj) : JS World unit :=
  js_modify (fun w =>
    match w_heap w !! r with
    | Some e =>
        if decide (Exists (same_listener type f) (el_listeners e)) then w
        else alter_element (add_el_listener (mkListener type f)) r w
    | None => w
    end).

(** The position of [r] in tree order. *)
Fixpoint index_of (r : ref) (order : list ref) : option nat :=
  match order with
  | [] => None
  | r' :: order' => if decide (r' = r) then Some 0 else S <$> index_of r order'
  end.

(** The ancestors of [r], nearest first: the parent links followed at
    most [fuel] times. *)
Fixpoint ancestors (fuel : nat) (par : gmap nat nat) (r : ref) : list ref :=
  match fuel with
  | 0 => []
  | S fuel' =>
      match par !! r with
      | Some p => p :: ancestors fuel' par p
      | None => []
      end
  end.

(** The event path of a dispatch at [r]: the target, then its ancestors.
    A parent comes before its child in tree order, so the size of the
    document bounds the walk ([ancestors_enough_fuel]). *)
Definition event_path (w : World) (r : ref) : list ref :=
  r :: ancestors (length (w_order w)) (w_parent w) r.
End dom.

Arguments FnObj : clear implicits.
Arguments Listener : clear implicits.
Arguments Element : clear implicits.
Arguments World : clear implicits.

(** ** The interface of event listeners

    What the host needs of the client's code: how to run a closure. *)
Class Invoke (Closure : Type) := invoke_closure : Closure -> JS (World Closure) unit.

Section dispatch.
Context {Closure : Type} `{!Invoke Closure}.

(** Run the listeners of a snapshot in order, collecting the reported
    exceptions. *)
Fixpoint invoke_listeners (ls : list (Listener Closure)) (w : World Closure)
    : World Closure * list JsError :=
  match ls with
  | [] => (w, [])
  | l :: ls' =>
      let '(w1, c) := invoke_closure (fn_closure (l_fn l)) w in
      let '(w2, errs) := invoke_listeners ls' w1 in
      (w2, match c with Normal _ => errs | Abrupt e => e :: errs end)
  end.

Definition listeners_of (type : string) (w : World Closure) (r : ref)
    : list (Listener Closure) :=
  from_option (fun e => filter (fun l => l_type l = type) (el_listeners e)) []
              (w_heap w !! r).

(** The nodes of the event path in turn: each node's listeners are
    taken when the dispatch reaches it (at the target, then bubbling up
    to the ancestors). *)
Fixpoint dispatch_path (type : string) (path : list ref) (w : World Closure)
    : World Closure * list JsError :=
  match path with
  | [] => (w, [])
  | n :: path' =>
      let '(w1, e1) := invoke_listeners (listeners_of type w n) w in
      let '(w2, e2) := dispatch_path type path' w1 in
      (w2, e1 ++ e2)
  end.

(** Dispatch of an event of [type] (one that bubbles) at the element [r]. *)
Definition dispatch (type : string) (r : ref) (w : World Closure)
    : World Closure * list JsError :=
  dispatch_path type (event_path w r) w.

(** The listeners along the event path, as they are when the dispatch starts. *)
Definition path_listeners (type : string) (w : World Closure) (r : ref)
    : list (Listener Closure) :=
  concat (map (listeners_of type w) (event_path w r)).
End dispatch.

(** ** Frame lemmas: what an update of one element leaves alone *)

Section frame.
Context {Closure : Type}.
Implicit Types (w : World Closure) (e : Element Closure) (r : ref).

Lemma lookup_alter_element f r r' w :
  w_heap (alter_element f r w) !! r' =
    if decide (r = r') then f <$> w_heap w !! r' else w_heap w !! r'.
Proof.
  unfold alter_element; simpl. case_decide as Hr.
  - subst. apply lookup_alter_eq.
  - by apply lookup_alter_ne.
Qed.

Section preserving.
Context (f : Element Closure -> Element Closure).

Lemma id_of_alter (Hf : forall e, el_id (f e) = el_id e) r r' w :
  id_of (alter_element f r w) r' = id_of w r'.
Proof.
  unfold id_of. rewrite lookup_alter_element.
  case_decide; [destruct (w_heap w !! r'); simpl; auto |]. done.
Qed.

Lemma find_id_alter (Hf : forall e, el_id (f e) = el_id e) r w id order :
  find_id (w_heap (alter_element f r w)) id order = find_id (w_heap w) id order.
Proof.
  induction order as [|r' order IH]; [done |]. cbn [find_id].
  rewrite lookup_alter_element, IH.
  case_decide; [destruct (w_heap w !! r'); simpl; rewrite ?Hf |]; done.
Qed.

Lemma has_class_alter (Hf : forall e, el_classes (f e) = el_classes e) cls r r' w :
  has_class cls (alter_element f r w) r' <-> has_class cls w r'.
Proof.
  unfold has_class. rewrite lookup_alter_element.
  case_decide; [destruct (w_heap w !! r'); simpl; rewrite ?Hf |]; done.
Qed.

Lemma class_members_alter (Hf : forall e, el_classes (f e) = el_classes e) cls r w :
  filter (has_class cls (alter_element f r w)) (w_order (alter_element f r w)) =
  filter (has_class cls w) (w_order w).
Proof. apply filter_agree. intros r' _. by apply has_class_alter. Qed.
End preserving.

Lemma display_of_set_same v r w :
  is_Some (w_heap w !! r) ->
  display_of (alter_element (set_el_display v) r w) r = v.
Proof.
  intros [e He]. unfold display_of. rewrite lookup_alter_element.
  rewrite decide_True by done. by rewrite He.
Qed.

Lemma display_of_set_other v r r' w :
  r <> r' -> display_of (alter_element (set_el_display v) r w) r' = display_of w r'.
Proof.
  intros Hne. unfold display_of. rewrite lookup_alter_element.
  by rewrite decide_False.
Qed.

(** A write to an element that is not in the heap changes nothing. *)
Lemma alter_element_None f r w :
  w_heap w !! r = None -> alter_element f r w = w.
Proof.
  intros Hr. destruct w as [h o n]. unfold alter_element; simpl in *.
  f_equal. apply map_eq. intros r'. destruct (decide (r = r')) as [<-|].
  - by rewrite lookup_alter_eq, Hr.
  - by rewrite lookup_alter_ne.
Qed.

Lemma display_of_set v r r' w :
  display_of (alter_element (set_el_display v) r w) r' =
    if decide (r = r' /\ is_Some (w_heap w !! r)) then v else display_of w r'.
Proof.
  case_decide as H.
  - destruct H as [<- Hs]. by apply display_of_set_same.
  - destruct (decide (r = r')) as [<-|Hne]; [| by apply display_of_set_other].
    rewrite alter_element_None; [done |].
    apply eq_None_not_Some. naive_solver.
Qed.

(** A member of a class is an element object of the heap. *)
Lemma has_class_is_Some cls w r : has_class cls w r -> is_Some (w_heap w !! r).
Proof. unfold has_class. destruct (w_heap w !! r); [eauto | done]. Qed.

Lemma id_of_set_display v r r' w :
  id_of (alter_element (set_el_display v) r w) r' = id_of w r'.
Proof. by apply id_of_alter. Qed.

Lemma has_class_set_display v cls r r' w :
  has_class cls (alter_element (set_el_display v) r w) r' <-> has_class cls w r'.
Proof. by apply has_class_alter. Qed.
End frame.

#[export] Hint Rewrite @id_of_set_display @display_of_set_other : mimir_rw.

(** ** The search of [getElementById] and repeated writes *)

Section search.
Context {Closure : Type}.
Implicit Types (w : World Closure) (h : gmap nat (Element Closure)) (r : ref).

Lemma find_id_Some h id order r :
  find_id h id order = Some r ->
  r ∈ order /\ exists e, h !! r = Some e /\ el_id e = id.
Proof.
  induction order as [|r' order IH]; [done |]. cbn [find_id].
  destruct (h !! r') as [e|] eqn:He; [case_streq (el_id e) id |];
    intros Hf; simplify_eq; [split; [set_solver | eauto] | ..];
    destruct (IH Hf); split; [set_solver | done | set_solver | done].
Qed.

Lemma find_id_None h id order r e :
  find_id h id order = None -> r ∈ order -> h !! r = Some e -> el_id e <> id.
Proof.
  induction order as [|r' order IH]; [set_solver |]. cbn [find_id].
  intros Hf Hin He. apply elem_of_cons in Hin as [->|Hin].
  - rewrite He in Hf. by case_streq (el_id e) id.
  - destruct (h !! r') as [e'|]; [case_streq (el_id e') id |]; naive_solver.
Qed.

Lemma is_Some_alter_element f r r' w :
  is_Some (w_heap (alter_element f r w) !! r') <-> is_Some (w_heap w !! r').
Proof.
  rewrite lookup_alter_element. case_decide; [| done].
  destruct (w_heap w !! r'); simpl; split; intros []; eauto; discriminate.
Qed.

(** Writing [v] to the display of each element of a list, in order. *)
Definition set_display_all (v : string) (l : list ref) (w : World Closure) : World Closure :=
  foldl (fun w r => alter_element (set_el_display v) r w) w l.

Lemma display_of_set_display_all v l w r :
  display_of (set_display_all v l w) r =
    if decide (r ∈ l /\ is_Some (w_heap w !! r)) then v else display_of w r.
Proof.
  unfold set_display_all. revert w.
  induction l as [|r' l IH]; intros w; cbn [foldl].
  - case_decide; set_solver.
  - rewrite IH, display_of_set.
    pose proof (is_Some_alter_element (set_el_display v) r' r w) as Hs.
    pose proof (elem_of_cons l r r') as Hc.
    repeat case_decide; naive_solver.
Qed.

Lemma set_display_all_frame v l w :
  w_order (set_display_all v l w) = w_order w /\
  w_next_fn (set_display_all v l w) = w_next_fn w /\
  (forall r, id_of (set_display_all v l w) r = id_of w r) /\
  (forall cls r, has_class cls (set_display_all v l w) r <-> has_class cls w r).
Proof.
  unfold set_display_all. revert w.
  induction l as [|r' l IH]; intros w; simpl; [done |].
  destruct (IH (alter_element (set_el_display v) r' w)) as (-> & -> & Hid & Hcl).
  split_and!; [done | done | intros r | intros cls r].
  - by rewrite Hid, id_of_set_display.
  - by rewrite Hcl, has_class_set_display.
Qed.

Lemma find_id_set_display_all v l w id order :
  find_id (w_heap (set_display_all v l w)) id order = find_id (w_heap w) id order.
Proof.
  unfold set_display_all. revert w.
  induction l as [|r' l IH]; intros w; simpl; [done |].
  rewrite IH. by apply find_id_alter.
Qed.
End search.

(** ** Well-formed documents

    Tree order lists each element once, and a non-empty ID names at most
    one element (HTML's uniqueness rule). *)

Section wf.
Context {Closure : Type}.
Implicit Types (w : World Closure) (r : ref).

Definition ids_unique w : Prop :=
  NoDup (filter (fun i => i <> "") (map (id_of w) (w_order w))).

(** A parent comes before its child in tree order. *)
Definition tree_wf w : Prop :=
  map_Forall (fun r p =>
    match index_of p (w_order w), index_of r (w_order w) with
    | Some i, Some j => bool_decide (i < j)
    | _, _ => false
    end = true) (w_parent w).

Definition dom_wf w : Prop := NoDup (w_order w) /\ ids_unique w /\ tree_wf w.

#[export] Instance dom_wf_dec w : Decision (dom_wf w).
Proof. unfold dom_wf, ids_unique, tree_wf. apply _. Defined.

Lemma ids_unique_spec w r1 r2 :
  dom_wf w -> r1 ∈ w_order w -> r2 ∈ w_order w ->
  id_of w r1 = id_of w r2 -> id_of w r1 <> "" -> r1 = r2.
Proof.
  intros (Hnd & Hu & _). unfold ids_unique in Hu.
  induction (w_order w) as [|r o IH]; [set_solver |].
  apply NoDup_cons in Hnd as [Hr Hnd].
  rewrite map_cons, filter_cons in Hu.
  intros H1 H2 Hid Hne.
  assert (Hin : forall r', r' ∈ o -> id_of w r' <> "" ->
                id_of w r' ∈ filter (fun i => i <> "") (map (id_of w) o)).
  { intros r' Hr' Hne'. apply list_elem_of_filter. split; [done |].
    by apply list_elem_of_fmap_2. }
  apply elem_of_cons in H1 as [->|H1], H2 as [->|H2]; [done | | |].
  - rewrite decide_True in Hu by done. apply NoDup_cons in Hu as [Hu _].
    exfalso. apply Hu. rewrite Hid. apply Hin; [done | congruence].
  - rewrite decide_True in Hu by congruence. apply NoDup_cons in Hu as [Hu _].
    exfalso. apply Hu. rewrite <- Hid. by apply Hin.
  - apply IH; try done. case_decide; [by apply NoDup_cons in Hu as [_ ?] | done].
Qed.

Lemma element_by_id_Some w id r :
  element_by_id w id = Some r ->
  r ∈ w_order w /\ is_Some (w_heap w !! r) /\ id_of w r = id /\ id <> "".
Proof.
  unfold element_by_id. case_streq id ""; [done |].
  intros (Hr & e & He & Hid)%find_id_Some.
  unfold id_of. rewrite He. eauto.
Qed.

Lemma element_by_id_None w id r :
  element_by_id w id = None -> r ∈ w_order w -> is_Some (w_heap w !! r) ->
  id <> "" -> id_of w r <> id.
Proof.
  unfold element_by_id. case_streq id ""; [done |].
  intros Hf Hr [e He] _. unfold id_of. rewrite He. eapply find_id_None; eauto.
Qed.

(** In a well-formed document the lookup finds the one element with the ID. *)
Lemma element_by_id_unique w id r t :
  dom_wf w -> element_by_id w id = Some t ->
  r ∈ w_order w -> id_of w r = id -> r = t.
Proof.
  intros Hwf (Ht & _ & Hid & Hne)%element_by_id_Some Hr Hrid.
  eapply ids_unique_spec; eauto; congruence.
Qed.

Lemma w_parent_set_display_all v l w : w_parent (set_display_all v l w) = w_parent w.
Proof.
  unfold set_display_all. revert w.
  induction l as [|r l IH]; intros w; cbn [foldl]; [done |]. by rewrite IH.
Qed.

Lemma dom_wf_set_display_all v l w :
  dom_wf (set_display_all v l w) <-> dom_wf w.
Proof.
  destruct (set_display_all_frame v l w) as (Ho & _ & Hid & _).
  unfold dom_wf, ids_unique, tree_wf. rewrite Ho, w_parent_set_display_all.
  by rewrite (map_ext _ _ Hid).
Qed.
End wf.

Section lookup.
Context {Closure : Type}.
Implicit Types (w : World Closure) (r : ref).

(** The lookup fails exactly when no element of the document has the ID. *)
Lemma element_by_id_None_iff w id :
  element_by_id w id = None <->
  id = "" \/ forall r, r ∈ w_order w -> is_Some (w_heap w !! r) -> id_of w r <> id.
Proof.
  split.
  - intros Hn. destruct (decide (id = "")) as [|Hne]; [by left |].
    right. intros r Hr Hs. by eapply element_by_id_None.
  - intros Hid. destruct (element_by_id w id) as [t|] eqn:Ht; [| done].
    apply element_by_id_Some in Ht as (Ht & Hs & Htid & Hne). naive_solver.
Qed.

Lemma alter_element_compose f g r w :
  alter_element f r (alter_element g r w) = alter_element (fun e => f (g e)) r w.
Proof. unfold alter_element; simpl. by rewrite alter_alter_eq. Qed.

(** Writing back the value an element has changes nothing. *)
Lemma alter_element_set_display_id v r w :
  display_of w r = v -> alter_element (set_el_display v) r w = w.
Proof.
  unfold display_of, alter_element. intros Hv. destruct w as [h o n]; simpl in *.
  rewrite alter_id; [done |]. intros [] He. rewrite He in Hv. simpl in Hv. by subst.
Qed.
End lookup.

(** ** Function objects and listeners *)

Section listeners.
Context {Closure : Type}.
Implicit Types (w : World Closure) (r : ref).

(** Every listener of every element satisfies [P]. *)
Definition listeners_Forall (P : Listener Closure -> Prop) w : Prop :=
  map_Forall (fun _ e => Forall P (el_listeners e)) (w_heap w).

#[export] Instance listeners_Forall_dec P `{!forall l, Decision (P l)} w :
  Decision (listeners_Forall P w).
Proof. unfold listeners_Forall. apply _. Defined.

(** Every function object in a listener was allocated before
    [w_next_fn]: the next one allocated is new. *)
Definition fn_ids_below w : Prop :=
  listeners_Forall (fun l => fn_id (l_fn l) < w_next_fn w) w.

#[export] Instance fn_ids_below_dec w : Decision (fn_ids_below w).
Proof. unfold fn_ids_below. apply _. Defined.

(** An update that keeps the listeners keeps [listeners_Forall P]. *)
Lemma listeners_Forall_alter P f r w :
  (forall e, el_listeners (f e) = el_listeners e) ->
  listeners_Forall P (alter_element f r w) <-> listeners_Forall P w.
Proof.
  intros Hf. unfold listeners_Forall. split; intros Hall r' e He.
  - destruct (decide (r = r')) as [<-|Hne].
    + assert (Hx : w_heap (alter_element f r w) !! r = Some (f e))
        by (by rewrite lookup_alter_element, decide_True, He).
      specialize (Hall r (f e) Hx). cbn beta in Hall. by rewrite Hf in Hall.
    + apply (Hall r' e). by rewrite lookup_alter_element, decide_False.
  - rewrite lookup_alter_element in He. case_decide.
    + destruct (w_heap w !! r') as [e0|] eqn:He0; simplify_eq/=. cbn beta. rewrite Hf.
      by apply (Hall r' e0).
    + by apply (Hall r' e).
Qed.

Lemma listeners_Forall_impl (P Q : Listener Closure -> Prop) w :
  (forall l, P l -> Q l) -> listeners_Forall P w -> listeners_Forall Q w.
Proof.
  intros HPQ Hall r e He. specialize (Hall r e He). cbn beta in *.
  rewrite Forall_forall in Hall |- *. naive_solver.
Qed.

(** Adding a listener that satisfies [P] keeps [listeners_Forall P]. *)
Lemma listeners_Forall_add P l r w :
  P l -> listeners_Forall P w -> listeners_Forall P (alter_element (add_el_listener l) r w).
Proof.
  intros Hl Hall r' e He. rewrite lookup_alter_element in He. case_decide.
  - destruct (w_heap w !! r') as [e0|] eqn:He0; simplify_eq/=.
    apply Forall_app. split; [by apply (Hall r' e0) | by constructor].
  - by apply (Hall r' e).
Qed.

Lemma listeners_Forall_set_display_all P v l w :
  listeners_Forall P (set_display_all v l w) <-> listeners_Forall P w.
Proof.
  unfold set_display_all. revert w.
  induction l as [|r' l IH]; intros w; cbn [foldl]; [done |].
  rewrite IH. by apply listeners_Forall_alter.
Qed.

(** The listeners along an event path are listeners of elements. *)
Lemma listeners_Forall_path P type w d :
  listeners_Forall P w -> Forall P (path_listeners type w d).
Proof.
  intros Hall. unfold path_listeners. apply Forall_concat, Forall_forall. intros ls Hls.
  apply list_elem_of_In, in_map_iff in Hls as (n & <- & _).
  unfold listeners_of. destruct (w_heap w !! n) as [e|] eqn:He; simpl; [| constructor].
  specialize (Hall n e He). cbn beta in Hall. rewrite Forall_forall in Hall |- *.
  intros l Hl. apply list_elem_of_filter in Hl as [_ Hl]. by apply Hall.
Qed.

Lemma is_Some_set_display_all v l w r :
  is_Some (w_heap (set_display_all v l w) !! r) <-> is_Some (w_heap w !! r).
Proof.
  unfold set_display_all. revert w.
  induction l as [|r' l IH]; intros w; cbn [foldl]; [done |].
  by rewrite IH, is_Some_alter_element.
Qed.

Lemma set_display_all_alter_comm v v' l r w :
  r ∉ l ->
  set_display_all v l (alter_element (set_el_display v') r w) =
  alter_element (set_el_display v') r (set_display_all v l w).
Proof.
  unfold set_display_all. revert w.
  induction l as [|r' l IH]; intros w Hr; cbn [foldl]; [done |].
  rewrite <- IH by set_solver. f_equal.
  unfold alter_element; simpl. rewrite alter_alter_ne by set_solver. done.
Qed.

Lemma listeners_of_alter type f r r' w :
  (forall e, el_listeners (f e) = el_listeners e) ->
  listeners_of type (alter_element f r w) r' = listeners_of type w r'.
Proof.
  intros Hf. unfold listeners_of. rewrite lookup_alter_element.
  case_decide; [destruct (w_heap w !! r'); simpl; rewrite ?Hf |]; done.
Qed.

Lemma listeners_of_set_display_all type v l w r :
  listeners_of type (set_display_all v l w) r = listeners_of type w r.
Proof.
  unfold set_display_all. revert w.
  induction l as [|r' l IH]; intros w; cbn [foldl]; [done |].
  rewrite IH. by apply listeners_of_alter.
Qed.

Lemma fn_ids_below_set_display_all v l w :
  fn_ids_below (set_display_all v l w) <-> fn_ids_below w.
Proof.
  unfold fn_ids_below. destruct (set_display_all_frame v l w) as (_ & -> & _).
  apply listeners_Forall_set_display_all.
Qed.
End listeners.

Section add_listener.
Context {Closure : Type}.
Implicit Types (w : World Closure) (r : ref).

Lemma addEventListener_fresh w r type (f : FnObj Closure) e :
  w_heap w !! r = Some e ->
  Forall (fun l => fn_id (l_fn l) <> fn_id f) (el_listeners e) ->
  exec (addEventListener r type f) w = alter_element (add_el_listener (mkListener type f)) r w.
Proof.
  intros He Hfresh. unfold exec, addEventListener, js_modify; simpl. rewrite He.
  rewrite decide_False; [done |]. rewrite Exists_exists.
  intros (l & Hl & _ & Hid). rewrite Forall_forall in Hfresh. by apply (Hfresh l).
Qed.

Lemma addEventListener_missing w r type (f : FnObj Closure) :
  w_heap w !! r = None -> exec (addEventListener r type f) w = w.
Proof. intros He. unfold exec, addEventListener, js_modify; simpl. by rewrite He. Qed.

Lemma listeners_of_add_same type f r w :
  is_Some (w_heap w !! r) ->
  listeners_of type (alter_element (add_el_listener (mkListener type f)) r w) r =
    listeners_of type w r ++ [mkListener type f].
Proof.
  intros [e He]. unfold listeners_of. rewrite lookup_alter_element, decide_True by done.
  rewrite He; simpl. rewrite filter_app, filter_cons, decide_True by done. done.
Qed.

Lemma display_of_alter (f : Element Closure -> Element Closure) r r' w :
  (forall e, el_display (f e) = el_display e) ->
  display_of (alter_element f r w) r' = display_of w r'.
Proof.
  intros Hf. unfold display_of. rewrite lookup_alter_element.
  case_decide; [destruct (w_heap w !! r'); simpl; rewrite ?Hf |]; done.
Qed.
End add_listener.

(** ** Documents up to listeners

    [doc_equiv] identifies two worlds that show the same document: the
    same tree order and, for every element, the same ID, classes and
    display.  It ignores listeners and the function allocator, which no
    read of the source's code observes. *)

Section doc_equiv.
Context {Closure : Type}.
Implicit Types (w : World Closure) (r : ref).

Definition el_view (e : Element Closure) : string * list string * string :=
  (el_id e, el_classes e, el_display e).

Definition doc_equiv w1 w2 : Prop :=
  w_order w1 = w_order w2 /\ el_view <$> w_heap w1 = el_view <$> w_heap w2 /\
  w_parent w1 = w_parent w2.

#[export] Instance doc_equiv_dec w1 w2 : Decision (doc_equiv w1 w2).
Proof. unfold doc_equiv. apply _. Defined.

#[export] Instance doc_equiv_equivalence : Equivalence doc_equiv.
Proof.
  unfold doc_equiv. split.
  - by intros w.
  - intros w1 w2 (? & ? & ?). done.
  - intros w1 w2 w3 (? & ? & ?) (? & ? & ?). split_and!; congruence.
Qed.

Lemma doc_equiv_lookup w1 w2 r :
  doc_equiv w1 w2 -> el_view <$> w_heap w1 !! r = el_view <$> w_heap w2 !! r.
Proof. intros (_ & Hh & _). rewrite <- !lookup_fmap. by rewrite Hh. Qed.

(** Each read of an element is a function of its view. *)
Lemma view_read {B} (g : Element Closure -> B) (g' : _ -> B) d w1 w2 r :
  (forall e, g e = g' (el_view e)) -> doc_equiv w1 w2 ->
  from_option g d (w_heap w1 !! r) = from_option g d (w_heap w2 !! r).
Proof.
  intros Hg Heq. pose proof (doc_equiv_lookup w1 w2 r Heq) as Hr.
  destruct (w_heap w1 !! r) as [e1|], (w_heap w2 !! r) as [e2|];
    try discriminate Hr; [| done].
  change (Some (el_view e1) = Some (el_view e2)) in Hr.
  simpl. rewrite !Hg. congruence.
Qed.

#[export] Instance id_of_proper : Proper (doc_equiv ==> eq ==> eq) (@id_of Closure).
Proof. intros w1 w2 Hw r ? <-. apply (view_read _ (fun v => v.1.1)); done. Qed.

#[export] Instance display_of_proper :
  Proper (doc_equiv ==> eq ==> eq) (@display_of Closure).
Proof. intros w1 w2 Hw r ? <-. apply (view_read _ (fun v => v.2)); done. Qed.

#[export] Instance has_class_proper cls :
  Proper (doc_equiv ==> eq ==> iff) (@has_class Closure cls).
Proof.
  intros w1 w2 Hw r ? <-.
  assert (Halt : forall w, has_class cls w r <->
            from_option (fun e => bool_decide (cls ∈ el_classes e)) false (w_heap w !! r) = true).
  { intros w. unfold has_class. destruct (w_heap w !! r); simpl; [| done].
    by rewrite bool_decide_eq_true. }
  rewrite !Halt. by erewrite (view_read _ (fun v => bool_decide (cls ∈ v.1.2))).
Qed.

Lemma find_id_view (h1 h2 : gmap nat (Element Closure)) id order :
  el_view <$> h1 = el_view <$> h2 -> find_id h1 id order = find_id h2 id order.
Proof.
  intros Hh. induction order as [|r o IH]; [done |]. cbn [find_id].
  assert (Hr : el_view <$> h1 !! r = el_view <$> h2 !! r) by (by rewrite <- !lookup_fmap, Hh).
  destruct (h1 !! r) as [e1|], (h2 !! r) as [e2|]; try discriminate Hr; [| done].
  change (Some (el_view e1) = Some (el_view e2)) in Hr.
  assert (Hid : el_id e1 = el_id e2) by (unfold el_view in Hr; congruence).
  by rewrite Hid, IH.
Qed.

#[export] Instance element_by_id_proper :
  Proper (doc_equiv ==> eq ==> eq) (@element_by_id Closure).
Proof.
  intros w1 w2 (Ho & Hh & _) id ? <-. unfold element_by_id. rewrite Ho.
  by rewrite (find_id_view _ _ _ _ Hh).
Qed.

Lemma doc_equiv_alter f r w :
  (forall e, el_view (f e) = el_view e) -> doc_equiv (alter_element f r w) w.
Proof.
  intros Hf. split_and!; [done | | done]. apply map_eq. intros r'.
  rewrite !lookup_fmap, lookup_alter_element.
  case_decide; [destruct (w_heap w !! r'); simpl; rewrite ?Hf |]; done.
Qed.

Lemma doc_equiv_alter_display v r w1 w2 :
  doc_equiv w1 w2 ->
  doc_equiv (alter_element (set_el_display v) r w1) (alter_element (set_el_display v) r w2).
Proof.
  intros (Ho & Hh & Hp). split_and!; [exact Ho | | exact Hp].
  apply map_eq. intros r'. rewrite !lookup_fmap, !lookup_alter_element.
  pose proof (doc_equiv_lookup w1 w2 r' (conj Ho (conj Hh Hp))) as Hr.
  case_decide; [| done].
  destruct (w_heap w1 !! r') as [e1|], (w_heap w2 !! r') as [e2|];
    try discriminate Hr; [| done].
  change (Some (el_view e1) = Some (el_view e2)) in Hr.
  change (Some (el_view (set_el_display v e1)) = Some (el_view (set_el_display v e2))).
  unfold el_view in *; simpl. congruence.
Qed.

Lemma doc_equiv_set_display_all v l w1 w2 :
  doc_equiv w1 w2 -> doc_equiv (set_display_all v l w1) (set_display_all v l w2).
Proof.
  unfold set_display_all. revert w1 w2.
  induction l as [|r l IH]; intros w1 w2 Hw; cbn [foldl]; [done |].
  by apply IH, doc_equiv_alter_display.
Qed.
End doc_equiv.

Infix "≡doc" := doc_equiv (at level 70, no associativity) : js_scope.

Section display_writes.
Context {Closure : Type}.
Implicit Types (w : World Closure) (r : ref).

(** A display write leaves the world as it was exactly when it writes
    back the value the element has. *)
Lemma alter_element_set_display_id_iff v r w :
  is_Some (w_heap w !! r) ->
  alter_element (set_el_display v) r w = w <-> display_of w r = v.
Proof.
  intros Hs. split.
  - intros Heq. rewrite <- Heq at 1. by apply display_of_set_same.
  - apply alter_element_set_display_id.
Qed.

Lemma alter_element_set_display_twice v1 v2 r w :
  alter_element (set_el_display v2) r (alter_element (set_el_display v1) r w) =
  alter_element (set_el_display v2) r w.
Proof. by rewrite alter_element_compose. Qed.
End display_writes.

(** ** Dispatch, against the listener interface

    What holds of every closure run holds of a whole dispatch: the
    listeners run one after the other, each on the world the previous
    one left, whatever their completions. *)

Section dispatch_laws.
Context {Closure : Type} `{!Invoke Closure}.

Lemma invoke_listeners_ind (P : World Closure -> World Closure -> Prop) ls :
  (forall w0 w c, P w0 w -> P w0 (exec (invoke_closure c) w)) ->
  forall w0 w, P w0 w -> P w0 (fst (invoke_listeners ls w)).
Proof.
  intros Hstep. induction ls as [|l ls IH]; intros w0 w Hw; [done |].
  cbn [invoke_listeners]. pose proof (Hstep w0 w (fn_closure (l_fn l)) Hw) as Hw1.
  unfold exec in Hw1. destruct (invoke_closure (fn_closure (l_fn l)) w) as [w1 c].
  specialize (IH w0 w1 Hw1). destruct (invoke_listeners ls w1). done.
Qed.

Lemma dispatch_path_ind (P : World Closure -> World Closure -> Prop) type path :
  (forall w0 w c, P w0 w -> P w0 (exec (invoke_closure c) w)) ->
  forall w0 w, P w0 w -> P w0 (fst (dispatch_path type path w)).
Proof.
  intros Hstep. induction path as [|n path IH]; intros w0 w Hw; [done |].
  cbn [dispatch_path].
  pose proof (invoke_listeners_ind P (listeners_of type w n) Hstep w0 w Hw) as Hw1.
  destruct (invoke_listeners (listeners_of type w n) w) as [w1 e1].
  specialize (IH w0 w1 Hw1). destruct (dispatch_path type path w1). done.
Qed.

(** An exception in one listener does not stop the next ones. *)
Lemma invoke_listeners_app ls1 ls2 w :
  invoke_listeners (ls1 ++ ls2) w =
    let '(w1, e1) := invoke_listeners ls1 w in
    let '(w2, e2) := invoke_listeners ls2 w1 in (w2, e1 ++ e2).
Proof.
  revert w. induction ls1 as [|l ls1 IH]; intros w; simpl.
  - by destruct (invoke_listeners ls2 w).
  - destruct (invoke_closure (fn_closure (l_fn l)) w) as [w1 c]. rewrite IH.
    destruct (invoke_listeners ls1 w1) as [w2 e1].
    destruct (invoke_listeners ls2 w2) as [w3 e2]. by destruct c.
Qed.
(** When no listener changes a listener list, taking each node's
    listeners as the dispatch reaches it is the same as taking all of
    them when it starts. *)
Lemma dispatch_path_flat type path w :
  (forall c w t n, listeners_of t (exec (invoke_closure c) w) n = listeners_of t w n) ->
  dispatch_path type path w = invoke_listeners (concat (map (listeners_of type w) path)) w.
Proof.
  intros Hfr. revert w. induction path as [|n path IH]; intros w; [done |].
  cbn [dispatch_path map concat]. rewrite invoke_listeners_app.
  pose proof (invoke_listeners_ind (fun w0 w => forall t n, listeners_of t w n = listeners_of t w0 n)
                (listeners_of type w n)) as Hl.
  specialize (Hl (fun w0 w1 c H t n => eq_trans (Hfr c w1 t n) (H t n)) w w (fun _ _ => eq_refl)).
  destruct (invoke_listeners (listeners_of type w n) w) as [w1 e1]. cbn [fst] in Hl.
  rewrite IH. by rewrite (map_ext (listeners_of type w1) (listeners_of type w)) by (intros; apply Hl).
Qed.
End dispatch_laws.

#[export] Instance dom_wf_proper {Closure : Type} :
  Proper (doc_equiv ==> iff) (@dom_wf Closure).
Proof.
  intros w1 w2 Hw. unfold dom_wf, ids_unique, tree_wf.
  destruct Hw as (Ho & Hh & Hp) eqn:Hw'. rewrite Ho, Hp.
  rewrite (map_ext (id_of w1) (id_of w2)); [done |].
  intros r. by rewrite (id_of_proper w1 w2 Hw r r eq_refl).
Qed.

(** ** The tree: ancestors and the event path *)

Section tree.
Context {Closure : Type}.
Implicit Types (w : World Closure) (r : ref).

Lemma index_of_lt r order i : index_of r order = Some i -> i < length order.
Proof.
  revert i. induction order as [|r' order IH]; intros i; simpl; [done |].
  case_decide; [intros [= <-]; lia |].
  destruct (index_of r order) as [j|] eqn:Hj; simpl; [| done].
  intros [= <-]. specialize (IH j eq_refl). lia.
Qed.

Lemma index_of_elem r order i : index_of r order = Some i -> r ∈ order.
Proof.
  revert i. induction order as [|r' order IH]; intros i; simpl; [done |].
  case_decide; [intros _; subst; set_solver |].
  destruct (index_of r order) as [j|] eqn:Hj; simpl; [| done].
  intros _. apply elem_of_cons. right. by eapply IH.
Qed.

(** The parent link of a well-formed document goes back in tree order. *)
Lemma tree_wf_parent w r p :
  tree_wf w -> w_parent w !! r = Some p ->
  exists i j, index_of p (w_order w) = Some i /\ index_of r (w_order w) = Some j /\ i < j.
Proof.
  intros Hwf Hp. specialize (Hwf r p Hp). cbn beta in Hwf.
  destruct (index_of p (w_order w)) as [i|], (index_of r (w_order w)) as [j|]; try done.
  apply bool_decide_eq_true in Hwf. eauto.
Qed.

(** Every ancestor comes before the node in tree order. *)
Lemma ancestors_lt w n r x :
  tree_wf w -> x ∈ ancestors n (w_parent w) r ->
  exists i j, index_of x (w_order w) = Some i /\ index_of r (w_order w) = Some j /\ i < j.
Proof.
  intros Hwf. revert r. induction n as [|n IH]; intros r; simpl; [set_solver |].
  destruct (w_parent w !! r) as [p|] eqn:Hp; [| set_solver].
  destruct (tree_wf_parent w r p Hwf Hp) as (i & j & Hi & Hj & Hij).
  intros [->|Hx]%elem_of_cons; [eauto |].
  destruct (IH p Hx) as (i' & j' & Hi' & Hj' & Hlt). simplify_eq. exists i', j. split_and!; auto; lia.
Qed.

Lemma ancestors_NoDup w n r : tree_wf w -> NoDup (r :: ancestors n (w_parent w) r).
Proof.
  intros Hwf. revert r. induction n as [|n IH]; intros r; [apply NoDup_singleton |].
  apply NoDup_cons. split; [| simpl; destruct (w_parent w !! r); [apply IH | constructor]].
  intros Hin. destruct (ancestors_lt w (S n) r r Hwf Hin) as (i & j & Hi & Hj & Hlt).
  simplify_eq. lia.
Qed.

Lemma event_path_NoDup w r : tree_wf w -> NoDup (event_path w r).
Proof. apply ancestors_NoDup. Qed.

(** One more step of fuel than the node's position changes nothing. *)
Lemma ancestors_fuel_step w n r :
  tree_wf w -> default 0 (index_of r (w_order w)) <= n ->
  ancestors (S n) (w_parent w) r = ancestors n (w_parent w) r.
Proof.
  intros Hwf. revert r. induction n as [|n IH]; intros r Hn; cbn [ancestors].
  - destruct (w_parent w !! r) as [p|] eqn:Hp; [| done].
    destruct (tree_wf_parent w r p Hwf Hp) as (i & j & _ & Hj & Hij).
    rewrite Hj in Hn. simpl in Hn. lia.
  - destruct (w_parent w !! r) as [p|] eqn:Hp; [| done]. f_equal.
    destruct (tree_wf_parent w r p Hwf Hp) as (i & j & Hi & Hj & Hij).
    apply IH. rewrite Hi. rewrite Hj in Hn. simpl in *. lia.
Qed.

Lemma ancestors_fuel_stable w n k r :
  tree_wf w -> default 0 (index_of r (w_order w)) <= n ->
  ancestors (k + n) (w_parent w) r = ancestors n (w_parent w) r.
Proof.
  intros Hwf Hn. induction k as [|k IH]; [done |].
  rewrite <- IH. change (S k + n) with (S (k + n)). apply ancestors_fuel_step; [done | lia].
Qed.

#[export] Instance tree_wf_proper : Proper (doc_equiv ==> iff) (@tree_wf Closure).
Proof. intros w1 w2 (Ho & _ & Hp). unfold tree_wf. by rewrite Ho, Hp. Qed.

#[export] Instance event_path_proper : Proper (doc_equiv ==> eq ==> eq) (@event_path Closure).
Proof. intros w1 w2 (Ho & _ & Hp) r ? <-. unfold event_path. by rewrite Ho, Hp. Qed.
End tree.

(** ** The event path against the tree

    The relational reference: [parent_step w a b] when [b] is the parent
    of [a].  The event path the fuel-bounded walk computes is the node
    and every node reachable by parent steps, and the fuel
    [length (w_order w)] is never what stops it. *)

Definition parent_step {Closure : Type} (w : World Closure) (a b : ref) : Prop :=
  w_parent w !! a = Some b.

Section tree_props.
Context {Closure : Type}.
Implicit Types (w : World Closure) (r : ref).

Lemma index_bound w r : default 0 (index_of r (w_order w)) <= length (w_order w).
Proof.
  destruct (index_of r (w_order w)) as [i|] eqn:Hi; simpl; [| lia].
  apply index_of_lt in Hi. lia.
Qed.

(** One step up the tree is one step along the event path. *)
Lemma event_path_parent w r p :
  tree_wf w -> w_parent w !! r = Some p -> event_path w r = r :: event_path w p.
Proof.
  intros Hwf Hp. destruct (tree_wf_parent w r p Hwf Hp) as (i & j & Hi & Hj & Hij).
  pose proof (index_of_lt _ _ _ Hj) as Hlt.
  unfold event_path. destruct (length (w_order w)) as [|L] eqn:HL; [lia |].
  cbn [ancestors]. rewrite Hp. do 2 f_equal. symmetry.
  apply ancestors_fuel_step; [done |]. rewrite Hi. simpl. lia.
Qed.

Lemma ancestors_rtc w n r x :
  x ∈ r :: ancestors n (w_parent w) r -> rtc (parent_step w) r x.
Proof.
  revert r. induction n as [|n IH]; intros r; cbn [ancestors].
  - intros ->%list_elem_of_singleton. done.
  - destruct (w_parent w !! r) as [p|] eqn:Hp; [| intros ->%list_elem_of_singleton; done].
    intros [->|Hx]%elem_of_cons; [done |]. eapply rtc_l; [exact Hp | by apply IH].
Qed.

Lemma ancestors_root w n r :
  tree_wf w -> default 0 (index_of r (w_order w)) <= n ->
  exists root, last (r :: ancestors n (w_parent w) r) = Some root /\ w_parent w !! root = None.
Proof.
  intros Hwf. revert r. induction n as [|n IH]; intros r Hn; cbn [ancestors].
  - exists r. split; [apply last_singleton |].
    destruct (w_parent w !! r) as [p|] eqn:Hp; [| done].
    destruct (tree_wf_parent w r p Hwf Hp) as (i & j & _ & Hj & Hij). rewrite Hj in Hn. simpl in Hn. lia.
  - destruct (w_parent w !! r) as [p|] eqn:Hp; [| by exists r].
    destruct (tree_wf_parent w r p Hwf Hp) as (i & j & Hi & Hj & Hij).
    rewrite last_cons_cons. apply IH. rewrite Hi. rewrite Hj in Hn. simpl in *. lia.
Qed.

(** The walk up the tree terminates within its fuel: on a
    well-formed document, any fuel beyond the size of the document gives
    the same ancestors as the size, so the fuel [event_path] uses is
    enough. *)
Theorem ancestors_enough_fuel w n r :
  tree_wf w -> length (w_order w) <= n ->
  ancestors n (w_parent w) r = ancestors (length (w_order w)) (w_parent w) r.
Proof.
  intros Hwf Hn. replace n with ((n - length (w_order w)) + length (w_order w)) by lia.
  apply ancestors_fuel_stable; [done | apply index_bound].
Qed.

(** The event path ends at a root of the tree, a node without a
    parent: the walk stops because the tree ends, not because the fuel
    runs out. *)
Theorem event_path_reaches_root w r :
  tree_wf w -> exists root, last (event_path w r) = Some root /\ w_parent w !! root = None.
Proof. intros Hwf. apply ancestors_root; [done | apply index_bound]. Qed.

(** The fuel-bounded walk computes the tree's ancestor relation: on
    a well-formed document, [x] is on the event path of [r] exactly when
    [x] is [r] or an ancestor of [r]. *)
Theorem event_path_spec w r x :
  tree_wf w -> x ∈ event_path w r <-> rtc (parent_step w) r x.
Proof.
  intros Hwf. split; [apply ancestors_rtc |].
  induction 1 as [r|r p x Hp _ IH]; [apply elem_of_cons; by left |].
  rewrite (event_path_parent w r p Hwf Hp). apply elem_of_cons. by right.
Qed.
End tree_props.

#[export] Hint Rewrite @dom_wf_set_display_all @fn_ids_below_set_display_all
  @listeners_Forall_set_display_all @w_parent_set_display_all : mimir_rw.
