(* ===== verification/Mutation.v ===== *)
(** * The host document changing under the program: [appendChild]

    The page may add elements to the document after the triggers are
    registered; the program looks the panels up on each call rather
    than caching them (spec, section 9), so such elements are among the
    panels a later click hides.  This file models the host call that adds
    a new element, [parent.appendChild(el)] for an element [el] created
    by [document.createElement] and given an ID, classes and an inline
    display: the element object gets an identity no object has
    ([fresh_ref], after stdpp's [fresh (dom σ)] allocation), a parent
    link, and its place in tree order, just after the last node of its
    parent's subtree (it becomes the parent's last child).

    [insert_ok] is what the page must respect for the document to stay
    well-formed: the parent is in the document, the new element has no
    listeners yet, and its ID is empty or new.  Under it, the insertion
    keeps [dom_wf] and [fn_ids_below] and leaves the event path, the
    listeners and the lookup by ID of every other element as they
    were. *)

From Stdlib Require Import Permutation.
From stdpp Require Import base list gmap strings sets.
From S2P Require Import Prelude Js Dom.

Local Open Scope js_scope.

Section mutation.
Context {Closure : Type}.
Implicit Types (w : World Closure) (r : ref).

(** The position just after the last node of [order] of which [inside]
    holds, [0] when there is none. *)
Fixpoint after_last (inside : ref -> bool) (order : list ref) : nat :=
  match order with
  | [] => 0
  | n :: order' =>
      match after_last inside order' with
      | 0 => if inside n then 1 else 0
      | S k => S (S k)
      end
  end.

(** [x] placed at position [p] of [l]. *)
Definition insert_at {A} (p : nat) (x : A) (l : list A) : list A :=
  take p l ++ x :: drop p l.

(** The identity of a new element object: no element object and no node
    of the document has it. *)
Definition fresh_ref w : ref := fresh (dom (w_heap w) ∪ list_to_set (w_order w)).

(** The place of a new last child of [par] in tree order: just after
    the last node whose ancestors include [par] (the parent's subtree). *)
Definition child_position w (par : ref) : nat :=
  after_last (fun n => bool_decide (par ∈ event_path w n)) (w_order w).

(** [parent.appendChild(el)] for a new element [el], placed at
    [child_position].  A parent outside the document leaves the new
    element outside it too. *)
Definition append_child (par : ref) (e : Element Closure) : JS (World Closure) ref :=
  fun w =>
    let r := fresh_ref w in
    let order :=
      if decide (par ∈ w_order w) then insert_at (child_position w par) r (w_order w)
      else w_order w in
    (mkWorld (<[r := e]> (w_heap w)) order (<[r := par]> (w_parent w)) (w_next_fn w), Normal r).

(** The shift of positions an insertion at [p] makes. *)
Definition shift_at (p i : nat) : nat := if decide (i < p) then i else S i.

(** What the page respects when it inserts an element. *)
Definition insert_ok (par : ref) (e : Element Closure) w : Prop :=
  par ∈ w_order w /\ el_listeners e = [] /\ (el_id e = "" \/ element_by_id w (el_id e) = None).

#[export] Instance insert_ok_dec par e w : Decision (insert_ok par e w).
Proof. unfold insert_ok. apply _. Defined.
End mutation.

#[export] Instance insert_ok_proper {Closure : Type} :
  Proper (eq ==> eq ==> doc_equiv ==> iff) (@insert_ok Closure).
Proof.
  intros par ? <- e ? <- w1 w2 Hw. unfold insert_ok.
  by rewrite (proj1 Hw), (element_by_id_proper w1 w2 Hw (el_id e) (el_id e) eq_refl).
Qed.

(** ** Positions in tree order *)

Section positions.

Lemma after_last_le (inside : ref -> bool) order : after_last inside order <= length order.
Proof.
  induction order as [|n order IH]; simpl; [lia |].
  destruct (after_last inside order); [destruct (inside n); lia | lia].
Qed.

(** Every node of which [inside] holds comes before the position. *)
Lemma after_last_gt (inside : ref -> bool) order i n :
  order !! i = Some n -> inside n = true -> i < after_last inside order.
Proof.
  revert i. induction order as [|m order IH]; intros i; [done |]. simpl.
  destruct i as [|i]; simpl.
  - intros [= ->] Hin. destruct (after_last inside order); [rewrite Hin |]; lia.
  - intros Hi Hin. specialize (IH i Hi Hin).
    destruct (after_last inside order); lia.
Qed.

Lemma index_of_lookup r order i : index_of r order = Some i -> order !! i = Some r.
Proof.
  revert i. induction order as [|r' order IH]; intros i; simpl; [done |].
  case_decide; [intros [= <-]; by subst |].
  destruct (index_of r order) as [j|] eqn:Hj; simpl; [| done].
  intros [= <-]. by apply IH.
Qed.

Lemma index_of_elem_inv r order : r ∈ order -> exists i, index_of r order = Some i.
Proof.
  induction order as [|r' order IH]; [set_solver |]. simpl.
  case_decide; [eauto |]. intros [->|Hr]%elem_of_cons; [done |].
  destruct (IH Hr) as [i ->]. eauto.
Qed.

Lemma insert_at_perm {A} p (x : A) l : insert_at p x l ≡ₚ x :: l.
Proof. unfold insert_at. rewrite <- Permutation_middle. by rewrite take_drop. Qed.

Lemma elem_of_insert_at {A} p (x y : A) l : y ∈ insert_at p x l <-> y = x \/ y ∈ l.
Proof. rewrite (insert_at_perm p x l). apply elem_of_cons. Qed.

Lemma shift_at_mono p i j : i < j -> shift_at p i < shift_at p j.
Proof. unfold shift_at. repeat case_decide; lia. Qed.

(** A filter and a map see an insertion at the corresponding place. *)
Lemma filter_insert_at {A} (P : A -> Prop) `{!forall x, Decision (P x)} p x (l : list A) :
  filter P (insert_at p x l) =
    if decide (P x) then insert_at (length (filter P (take p l))) x (filter P l) else filter P l.
Proof.
  assert (E : filter P l = filter P (take p l) ++ filter P (drop p l))
    by (by rewrite <- filter_app, take_drop).
  unfold insert_at. rewrite filter_app, filter_cons, E.
  case_decide; [by rewrite take_app_length, drop_app_length | done].
Qed.

Lemma map_insert_at {A B} (f : A -> B) p x (l : list A) :
  map f (insert_at p x l) = insert_at p (f x) (map f l).
Proof. unfold insert_at. by rewrite map_app, firstn_map, skipn_map. Qed.

Lemma index_of_cons_ne x r order :
  r <> x -> index_of x (r :: order) = S <$> index_of x order.
Proof. intros Hne. simpl. by rewrite decide_False. Qed.

Lemma index_of_insert_at x r p order :
  x <> r -> index_of x (insert_at p r order) = shift_at p <$> index_of x order.
Proof.
  intros Hne%not_eq_sym. revert p. induction order as [|y order IH]; intros p.
  - unfold insert_at. rewrite take_nil, drop_nil. simpl. by rewrite decide_False.
  - destruct p as [|p].
    + change (insert_at 0 r (y :: order)) with (r :: y :: order).
      rewrite index_of_cons_ne by done.
      destruct (index_of x (y :: order)) as [i|]; simpl; [| done].
      unfold shift_at. by rewrite decide_False by lia.
    + unfold insert_at in *. cbn [take drop app index_of]. case_decide.
      * simpl. unfold shift_at. by rewrite decide_True by lia.
      * rewrite IH. destruct (index_of x order) as [i|]; simpl; [| done].
        unfold shift_at. repeat case_decide; f_equal; lia.
Qed.

Lemma index_of_insert_at_self r p order :
  r ∉ order -> p <= length order -> index_of r (insert_at p r order) = Some p.
Proof.
  revert p. induction order as [|y order IH]; intros p Hr Hp.
  - simpl in Hp. assert (p = 0) as -> by lia. simpl. by rewrite decide_True.
  - destruct p as [|p]; unfold insert_at in *; cbn [take drop app index_of].
    + by rewrite decide_True.
    + rewrite decide_False by set_solver. rewrite IH; [done | set_solver | simpl in Hp; lia].
Qed.
End positions.

(** ** Lookups in a document with one more element *)

Section lookups.
Context {Closure : Type}.
Implicit Types (w : World Closure) (r : ref).

(** The nodes of the event path of a node of the document are in it. *)
Lemma event_path_in_order w d x :
  tree_wf w -> d ∈ w_order w -> x ∈ event_path w d -> x ∈ w_order w.
Proof.
  intros Ht Hd [-> | Hx]%elem_of_cons; [done |].
  destruct (ancestors_lt w _ d x Ht Hx) as (i & _ & Hi & _). by eapply index_of_elem.
Qed.

Lemma fresh_ref_heap w : w_heap w !! fresh_ref w = None.
Proof.
  apply (not_elem_of_dom (D := gset nat)).
  pose proof (is_fresh (dom (w_heap w) ∪ list_to_set (C := gset nat) (w_order w))). set_solver.
Qed.

Lemma fresh_ref_order w : fresh_ref w ∉ w_order w.
Proof.
  pose proof (is_fresh (dom (w_heap w) ∪ list_to_set (C := gset nat) (w_order w))) as H.
  intros Hin. apply H. apply elem_of_union_r, elem_of_list_to_set, Hin.
Qed.

Lemma find_id_insert_notin (h : gmap nat (Element Closure)) r e id order :
  r ∉ order -> find_id (<[r := e]> h) id order = find_id h id order.
Proof.
  induction order as [|n order IH]; intros Hr; [done |]. simpl.
  rewrite lookup_insert_ne by set_solver. rewrite IH by set_solver. done.
Qed.

Lemma find_id_cons_skip (h : gmap nat (Element Closure)) r e id order :
  h !! r = Some e -> el_id e <> id -> find_id h id (r :: order) = find_id h id order.
Proof. intros Hr Hid. simpl. rewrite Hr. by case_streq (el_id e) id. Qed.

(** An element whose ID is not [id] does not change what the lookup of
    [id] finds, wherever it is placed. *)
Lemma find_id_insert_at (h : gmap nat (Element Closure)) r e id p order :
  r ∉ order -> el_id e <> id ->
  find_id (<[r := e]> h) id (insert_at p r order) = find_id h id order.
Proof.
  intros Hr Hid. revert p. induction order as [|n order IH]; intros p.
  - unfold insert_at. rewrite take_nil, drop_nil. simpl.
    rewrite lookup_insert_eq. by case_streq (el_id e) id.
  - destruct p as [|p].
    + change (insert_at 0 r (n :: order)) with (r :: n :: order).
      rewrite find_id_cons_skip with (e := e) by (done || apply lookup_insert_eq).
      by apply find_id_insert_notin.
    + unfold insert_at in *. cbn [take drop app find_id].
      rewrite lookup_insert_ne by set_solver. rewrite IH by set_solver. done.
Qed.

(** An element placed with an ID no element of [order] has is what the
    lookup of that ID finds, wherever it is placed. *)
Lemma find_id_insert_at_new (h : gmap nat (Element Closure)) r e p order :
  r ∉ order -> find_id h (el_id e) order = None ->
  find_id (<[r := e]> h) (el_id e) (insert_at p r order) = Some r.
Proof.
  revert p. induction order as [|n order IH]; intros p Hr Hn.
  - unfold insert_at. rewrite take_nil, drop_nil. simpl. by rewrite lookup_insert_eq, js_streq_refl.
  - destruct p as [|p].
    + change (insert_at 0 r (n :: order)) with (r :: n :: order).
      simpl. by rewrite lookup_insert_eq, js_streq_refl.
    + unfold insert_at in *. cbn [take drop app find_id] in Hn |- *.
      rewrite lookup_insert_ne by set_solver.
      destruct (h !! n) as [en|]; [case_streq (el_id en) (el_id e); [discriminate |] |];
        apply IH; set_solver.
Qed.
End lookups.

(** ** What an insertion keeps *)

Section append.
Context {Closure : Type}.
Context (w : World Closure) (par : ref) (e : Element Closure).
Hypothesis Hwf : dom_wf w.
Hypothesis Hok : insert_ok par e w.

Local Abbreviation r := (fresh_ref w).
Local Abbreviation w' := (exec (append_child par e) w).
Local Abbreviation pos := (child_position w par).

Lemma append_child_order : w_order w' = insert_at pos r (w_order w).
Proof. unfold exec, append_child. cbn [fst w_order]. by rewrite decide_True by apply Hok. Qed.

Lemma append_child_heap : w_heap w' = <[r := e]> (w_heap w).
Proof. done. Qed.

Lemma append_child_parent : w_parent w' = <[r := par]> (w_parent w).
Proof. done. Qed.

Lemma append_child_next_fn : w_next_fn w' = w_next_fn w.
Proof. done. Qed.

Lemma append_child_order_perm : w_order w' ≡ₚ r :: w_order w.
Proof. rewrite append_child_order. apply insert_at_perm. Qed.

Lemma elem_of_append_child_order n : n ∈ w_order w' <-> n = r \/ n ∈ w_order w.
Proof. rewrite append_child_order. apply elem_of_insert_at. Qed.

Lemma append_child_lookup_ne n : n <> r -> w_heap w' !! n = w_heap w !! n.
Proof. intros Hn. rewrite append_child_heap. by apply lookup_insert_ne. Qed.

Lemma append_child_lookup_in n : n ∈ w_order w -> w_heap w' !! n = w_heap w !! n.
Proof. intros Hn. apply append_child_lookup_ne. intros ->. by apply (fresh_ref_order w). Qed.

Lemma append_child_lookup_new : w_heap w' !! r = Some e.
Proof. rewrite append_child_heap. apply lookup_insert_eq. Qed.

Lemma fresh_ref_ne n : n ∈ w_order w -> n <> r.
Proof. intros Hn ->. by apply (fresh_ref_order w). Qed.

(** The reads the program makes, on the elements already there and on
    the new one. *)
Lemma id_of_append_child n : n ∈ w_order w -> id_of w' n = id_of w n.
Proof. intros Hn. unfold id_of. by rewrite append_child_lookup_in. Qed.

Lemma display_of_append_child n : n ∈ w_order w -> display_of w' n = display_of w n.
Proof. intros Hn. unfold display_of. by rewrite append_child_lookup_in. Qed.

Lemma listeners_of_append_child type n :
  n ∈ w_order w -> listeners_of type w' n = listeners_of type w n.
Proof. intros Hn. unfold listeners_of. by rewrite append_child_lookup_in. Qed.

Lemma id_of_append_child_new : id_of w' r = el_id e.
Proof. unfold id_of. by rewrite append_child_lookup_new. Qed.

Lemma display_of_append_child_new : display_of w' r = el_display e.
Proof. unfold display_of. by rewrite append_child_lookup_new. Qed.

Lemma has_class_append_child_new cls : has_class cls w' r <-> cls ∈ el_classes e.
Proof. unfold has_class. by rewrite append_child_lookup_new. Qed.

Lemma element_by_id_append_child id : id <> el_id e -> element_by_id w' id = element_by_id w id.
Proof.
  intros Hid. unfold element_by_id. case_streq id ""; [done |].
  rewrite append_child_heap, append_child_order.
  apply find_id_insert_at; [apply fresh_ref_order | congruence].
Qed.

Lemma element_by_id_append_child_new : el_id e <> "" -> element_by_id w' (el_id e) = Some r.
Proof.
  intros Hid. destruct Hok as (_ & _ & [He | He]); [done |].
  unfold element_by_id in *. rewrite (proj2 (js_streq_false _ _) Hid) in He |- *.
  rewrite append_child_heap, append_child_order.
  apply find_id_insert_at_new; [apply fresh_ref_order | done].
Qed.

Lemma filter_class_append_child cls (l : list ref) :
  (forall n, n ∈ l -> n ∈ w_order w) ->
  filter (has_class cls w') l = filter (has_class cls w) l.
Proof.
  intros Hl. apply filter_agree. intros n Hn. unfold has_class.
  by rewrite append_child_lookup_in by auto.
Qed.

(** ** Well-formedness *)

Lemma NoDup_append_child : NoDup (w_order w').
Proof. rewrite append_child_order_perm. constructor; [apply fresh_ref_order | apply Hwf]. Qed.

Lemma ids_unique_append_child : ids_unique w'.
Proof.
  destruct Hwf as (_ & Hu & _). unfold ids_unique in *. rewrite append_child_order_perm.
  cbn [map]. rewrite (map_ext_in (id_of w') (id_of w) (w_order w))
    by (intros n Hn%list_elem_of_In; by apply id_of_append_child).
  rewrite id_of_append_child_new, filter_cons. case_decide as Hne; [| done].
  apply NoDup_cons. split; [| done].
  intros (_ & Hin)%list_elem_of_filter. apply list_elem_of_In, in_map_iff in Hin as (n & Hid & Hn).
  apply list_elem_of_In in Hn.
  destruct Hok as (_ & _ & [Hempty | Hnone]); [done |].
  apply element_by_id_None_iff in Hnone as [? | Hall]; [done |].
  destruct (w_heap w !! n) as [en|] eqn:Hen.
  - by apply (Hall n Hn (mk_is_Some _ _ Hen)).
  - apply Hne. rewrite <- Hid. unfold id_of. by rewrite Hen.
Qed.

Lemma tree_wf_append_child : tree_wf w'.
Proof.
  destruct Hwf as (_ & _ & Ht). destruct Hok as (Hpar & _ & _).
  unfold tree_wf. rewrite append_child_order, append_child_parent.
  apply map_Forall_insert_2.
  - destruct (index_of_elem_inv par (w_order w) Hpar) as [i Hi].
    assert (Hlt : i < pos).
    { eapply after_last_gt; [by apply index_of_lookup |].
      apply bool_decide_eq_true, elem_of_cons. by left. }
    rewrite index_of_insert_at by (by apply fresh_ref_ne).
    rewrite index_of_insert_at_self by (apply fresh_ref_order || apply after_last_le).
    rewrite Hi. simpl. unfold shift_at. rewrite decide_True by done.
    by apply bool_decide_eq_true.
  - intros c q Hcq. destruct (tree_wf_parent w c q Ht Hcq) as (i & j & Hi & Hj & Hij).
    rewrite !index_of_insert_at
      by (apply fresh_ref_ne; by eapply index_of_elem).
    rewrite Hi, Hj. simpl. apply bool_decide_eq_true. by apply shift_at_mono.
Qed.

Lemma dom_wf_append_child : dom_wf w'.
Proof. split_and!; [apply NoDup_append_child | apply ids_unique_append_child | apply tree_wf_append_child]. Qed.

(** The new element has no listener, so every property of all
    listeners survives the insertion. *)
Lemma listeners_Forall_append_child P : listeners_Forall P w -> listeners_Forall P w'.
Proof.
  unfold listeners_Forall. rewrite append_child_heap.
  intros Hall. apply map_Forall_insert_2; [| done].
  destruct Hok as (_ & -> & _). constructor.
Qed.

Lemma fn_ids_below_append_child : fn_ids_below w -> fn_ids_below w'.
Proof.
  unfold fn_ids_below. rewrite append_child_next_fn. apply listeners_Forall_append_child.
Qed.

(** ** Event paths *)

Lemma ancestors_append_child n d :
  d ∈ w_order w -> ancestors n (<[r := par]> (w_parent w)) d = ancestors n (w_parent w) d.
Proof.
  destruct Hwf as (_ & _ & Ht). revert d.
  induction n as [|n IH]; intros d Hd; [done |]. cbn [ancestors].
  rewrite lookup_insert_ne by (apply not_eq_sym, fresh_ref_ne, Hd).
  destruct (w_parent w !! d) as [q|] eqn:Hq; [| done]. f_equal. apply IH.
  destruct (tree_wf_parent w d q Ht Hq) as (i & _ & Hi & _). by eapply index_of_elem.
Qed.

(** The new element changes no event path of the elements already there. *)
Lemma event_path_append_child d : d ∈ w_order w -> event_path w' d = event_path w d.
Proof.
  intros Hd. unfold event_path.
  rewrite append_child_parent, (Permutation_length append_child_order_perm). cbn [length].
  rewrite ancestors_append_child by done. f_equal.
  apply ancestors_fuel_step; [apply Hwf | apply index_bound].
Qed.

Lemma tree_wf_parent_append_child : w_parent w' !! r = Some par.
Proof. rewrite append_child_parent. apply lookup_insert_eq. Qed.

Lemma path_listeners_append_child type d :
  d ∈ w_order w -> path_listeners type w' d = path_listeners type w d.
Proof.
  intros Hd. unfold path_listeners. rewrite event_path_append_child by done. f_equal.
  apply map_ext_in. intros x Hx%list_elem_of_In. apply listeners_of_append_child.
  eapply event_path_in_order; [apply Hwf | done | done].
Qed.
End append.

#[export] Hint Resolve dom_wf_append_child fn_ids_below_append_child
  listeners_Forall_append_child : mimir.

(** ** Properties of the insertion *)

Section append_props.
Context {Closure : Type}.
Implicit Types (w : World Closure).

(** A click inside the new element bubbles to its parent and on up:
    the event path of the inserted element is the element itself, then
    the event path its parent had. *)
Theorem event_path_append_child_new w par e :
  dom_wf w -> insert_ok par e w ->
  event_path (exec (append_child par e) w) (fresh_ref w) = fresh_ref w :: event_path w par.
Proof.
  intros Hwf Hok.
  rewrite (event_path_parent _ _ par (tree_wf_append_child w par e Hwf Hok))
    by apply tree_wf_parent_append_child.
  f_equal. apply event_path_append_child; [done | done | apply Hok].
Qed.

(** The insertion moves no element of the document: removing the new
    element from tree order gives back the tree order before. *)
Lemma append_child_order_roundtrip w par e :
  insert_ok par e w ->
  filter (fun n => n <> fresh_ref w) (w_order (exec (append_child par e) w)) = w_order w.
Proof.
  intros Hok. rewrite append_child_order by done. unfold insert_at.
  rewrite filter_app, filter_cons, decide_False by (intros []; done).
  set (p := child_position w par). pose proof (fresh_ref_order w) as Hr.
  rewrite <- (take_drop p (w_order w)) in Hr.
  rewrite !(filter_all_true (fun n => n <> fresh_ref w)) by set_solver.
  apply take_drop.
Qed.

(** What line 2 reads after an insertion.  The members of a class
    that [getElementsByClassName] returns once the page inserted an
    element are the members it returned before, in the same order, with
    at most the new element added. *)
Theorem getElementsByClassName_append_child cls w par e :
  insert_ok par e w ->
  match getElementsByClassName cls (exec (append_child par e) w), getElementsByClassName cls w with
  | (_, Normal l'), (_, Normal l) => filter (fun n => n <> fresh_ref w) l' = l
  | _, _ => False
  end.
Proof.
  intros Hok. unfold getElementsByClassName, js_gets. cbv beta iota.
  rewrite list_filter_filter.
  rewrite (filter_agree _ (fun n => has_class cls (exec (append_child par e) w) n /\ n <> fresh_ref w))
    by (intros; tauto).
  rewrite <- list_filter_filter, append_child_order_roundtrip by done.
  apply filter_agree. intros n Hn. unfold has_class.
  by rewrite (append_child_lookup_in w par e).
Qed.
End append_props.

