(* ===== verification/Actions.v ===== *)
(** * The program: [src/main/resources/static/js/hideandshowactions.js]

    The three functions of the file, each a computation of the [JS]
    monad over the document of [Dom]:
    - [hideAllOtherActions] (lines 1-5): the [Array.from]/[filter]/
      [forEach] pipeline, with the filter's predicate reading [element.id];
    - [toggleActionVisibility] (lines 7-10): the unguarded lookup (a
      [TypeError] when no element has the ID) and the ternary [toggle_display];
    - [registerShowActionOnClick] (lines 12-21): the guarded lookup, the
      evaluation of the function expression (a new function object whose
      closure captures [actionId]) and [addEventListener].
    The function expression of lines 17-20 is the one closure the program
    creates ([ShowActionOnClick actionId]); [show_action_listener] is its
    body, and the [Invoke] instance hands it to the host's dispatch. *)

From stdpp Require Import base list gmap strings.
From S2P Require Import Prelude Js Dom.

Local Open Scope string_scope.
Local Open Scope js_scope.

(** The closures the program creates: the click listener of line 17,
    which captures [actionId]. *)
Inductive Closure :=
| ShowActionOnClick (actionId : string).

#[export] Instance Closure_eq_dec : EqDecision Closure.
Proof. solve_decision. Defined.

Abbreviation W := (World Closure).

(** The error of line 9 when [element] is [null]. *)
Definition null_style_error : JsError :=
  TypeError "Cannot read properties of null (reading 'style')".

Definition hideAllOtherActions (exceptId : string) : JS W unit :=
  elements <- getElementsByClassName "action" ;;
  others <- js_filter (fun r => i <- get_id r ;; js_ret (i !== exceptId)) elements ;;
  js_forEach (fun r => set_display r "none") others.

(** [(element.style.display === "block") ? "none" : "block"]. *)
Definition toggle_display (d : string) : string :=
  if d === "block" then "none" else "block".

Definition toggleActionVisibility (id : string) : JS W unit :=
  o <- getElementById id ;;
  match o with
  | None => js_throw null_style_error
  | Some r => d <- get_display r ;; set_display r (toggle_display d)
  end.

(** The body of the listener function of lines 17-20. *)
Definition show_action_listener (actionId : string) : JS W unit :=
  hideAllOtherActions actionId ;;
  toggleActionVisibility actionId.

Definition registerShowActionOnClick (buttonId actionId : string) : JS W unit :=
  o <- getElementById buttonId ;;
  match o with
  | None => js_ret tt
  | Some r =>
      f <- create_function (ShowActionOnClick actionId) ;;
      addEventListener r "click" f
  end.

Definition run_closure (c : Closure) : JS W unit :=
  match c with
  | ShowActionOnClick actionId => show_action_listener actionId
  end.

#[export] Instance closure_invoke : Invoke Closure := run_closure.

(** A click on the element [r]. *)
Definition click (r : ref) (w : W) : W * list JsError := dispatch "click" r w.

(** ** The run of each function, in closed form *)

Section runs.
Implicit Types (w : W) (r t : ref).

(** The elements [hideAllOtherActions exceptId] hides: the array the
    [filter] of line 3 returns. *)
Definition others_of (exceptId : string) (w : W) : list ref :=
  filter (fun r => id_of w r <> exceptId) (filter (has_class "action" w) (w_order w)).

Lemma elem_of_others_of x w r :
  r ∈ others_of x w <-> r ∈ w_order w /\ has_class "action" w r /\ id_of w r <> x.
Proof. unfold others_of. rewrite !list_elem_of_filter. tauto. Qed.

Lemma others_of_in_heap x w r : r ∈ others_of x w -> is_Some (w_heap w !! r).
Proof.
  intros (_ & Hc & _)%elem_of_others_of. unfold has_class in Hc.
  destruct (w_heap w !! r); [eauto | done].
Qed.

Lemma hideAllOtherActions_run x w :
  hideAllOtherActions x w = (set_display_all "none" (others_of x w) w, Normal tt).
Proof.
  unfold hideAllOtherActions, getElementsByClassName. rewrite js_bind_gets.
  erewrite js_bind_normal.
  2:{ apply (js_filter_gets _ (fun r s => negb (id_of s r === x))). by intros r s. }
  rewrite (js_forEach_modify _ (fun r => alter_element (set_el_display "none") r));
    [| by intros r s].
  unfold set_display_all, others_of. do 3 f_equal. apply filter_agree. intros r _.
  destruct (id_of w r === x) eqn:E; simpl;
    [apply js_streq_true in E | apply js_streq_false in E]; naive_solver.
Qed.

Lemma hideAllOtherActions_display x w r :
  display_of (exec (hideAllOtherActions x) w) r =
    if decide (r ∈ others_of x w) then "none" else display_of w r.
Proof.
  unfold exec. rewrite hideAllOtherActions_run. cbn [fst].
  rewrite display_of_set_display_all.
  pose proof (others_of_in_heap x w r). repeat case_decide; naive_solver.
Qed.

Lemma toggleActionVisibility_run id w :
  toggleActionVisibility id w =
    match element_by_id w id with
    | None => (w, Abrupt null_style_error)
    | Some r => (alter_element (set_el_display (toggle_display (display_of w r))) r w, Normal tt)
    end.
Proof.
  unfold toggleActionVisibility, getElementById. rewrite js_bind_gets.
  by destruct (element_by_id w id).
Qed.

Lemma element_by_id_set_display_all v l w id :
  element_by_id (set_display_all v l w) id = element_by_id w id.
Proof.
  unfold element_by_id. destruct (set_display_all_frame v l w) as (-> & _).
  by rewrite find_id_set_display_all.
Qed.

Lemma show_action_listener_found a w t :
  element_by_id w a = Some t ->
  show_action_listener a w =
    (alter_element (set_el_display (toggle_display (display_of w t))) t
       (set_display_all "none" (others_of a w) w), Normal tt).
Proof.
  intros Ht. unfold show_action_listener.
  erewrite js_bind_normal by apply hideAllOtherActions_run.
  rewrite toggleActionVisibility_run, element_by_id_set_display_all, Ht.
  rewrite display_of_set_display_all, decide_False; [done |].
  apply element_by_id_Some in Ht as (_ & _ & Hid & _).
  rewrite elem_of_others_of. naive_solver.
Qed.

Lemma show_action_listener_missing a w :
  element_by_id w a = None ->
  show_action_listener a w =
    (set_display_all "none" (others_of a w) w, Abrupt null_style_error).
Proof.
  intros Ha. unfold show_action_listener.
  erewrite js_bind_normal by apply hideAllOtherActions_run.
  by rewrite toggleActionVisibility_run, element_by_id_set_display_all, Ha.
Qed.

Lemma registerShowActionOnClick_run b a w :
  registerShowActionOnClick b a w =
    (match element_by_id w b with
     | None => w
     | Some r =>
         exec (addEventListener r "click" (mkFn (w_next_fn w) (ShowActionOnClick a)))
              (mkWorld (w_heap w) (w_order w) (w_parent w) (S (w_next_fn w)))
     end, Normal tt).
Proof.
  unfold registerShowActionOnClick, getElementById. rewrite js_bind_gets.
  by destruct (element_by_id w b).
Qed.
End runs.


Section helpers.
Implicit Types (w : W) (r t : ref).

(** No element of the document has the ID: the lookup fails. *)
Lemma element_by_id_absent w id :
  Forall (fun r => id_of w r <> id) (w_order w) -> element_by_id w id = None.
Proof.
  intros Hall. apply element_by_id_None_iff. right. intros r Hr _.
  rewrite Forall_forall in Hall. by apply Hall.
Qed.

Lemma display_of_hide_others x w r :
  display_of (set_display_all "none" (others_of x w) w) r =
    if decide (r ∈ others_of x w) then "none" else display_of w r.
Proof.
  rewrite display_of_set_display_all.
  pose proof (others_of_in_heap x w r). repeat case_decide; naive_solver.
Qed.

Lemma others_of_absent x w r :
  Forall (fun r => id_of w r <> x) (w_order w) ->
  r ∈ others_of x w <-> r ∈ w_order w /\ has_class "action" w r.
Proof.
  intros Hall. rewrite elem_of_others_of. rewrite Forall_forall in Hall. naive_solver.
Qed.
End helpers.

Section listener.
Implicit Types (w : W) (r t : ref).

Lemma element_by_id_alter_display v r w id :
  element_by_id (alter_element (set_el_display v) r w) id = element_by_id w id.
Proof. unfold element_by_id. by rewrite find_id_alter. Qed.

Lemma others_of_alter_display x v r w :
  others_of x (alter_element (set_el_display v) r w) = others_of x w.
Proof.
  unfold others_of. rewrite class_members_alter by done.
  apply filter_agree. intros r' _. by rewrite id_of_set_display.
Qed.

(** The display of every element after the listener, in both cases of
    the lookup of line 8. *)
Lemma show_action_listener_display a w r :
  display_of (exec (show_action_listener a) w) r =
    match element_by_id w a with
    | Some t =>
        if decide (r = t) then toggle_display (display_of w t)
        else if decide (r ∈ others_of a w) then "none" else display_of w r
    | None => if decide (r ∈ others_of a w) then "none" else display_of w r
    end.
Proof.
  unfold exec. destruct (element_by_id w a) as [t|] eqn:Ht.
  - rewrite (show_action_listener_found a w t Ht). cbn [fst].
    apply element_by_id_Some in Ht as (_ & Hts & _).
    rewrite display_of_set, display_of_hide_others.
    pose proof (is_Some_set_display_all "none" (others_of a w) w t).
    repeat case_decide; naive_solver.
  - rewrite (show_action_listener_missing a w Ht). cbn [fst].
    apply display_of_hide_others.
Qed.

(** The listener writes displays only. *)
Lemma show_action_listener_frame a w :
  let w' := exec (show_action_listener a) w in
  w_order w' = w_order w /\ w_next_fn w' = w_next_fn w /\
  (forall r, id_of w' r = id_of w r /\
             (forall cls, has_class cls w' r <-> has_class cls w r) /\
             (forall type, listeners_of type w' r = listeners_of type w r)) /\
  (forall r, is_Some (w_heap w' !! r) <-> is_Some (w_heap w !! r)).
Proof.
  unfold exec. destruct (set_display_all_frame "none" (others_of a w) w) as (Ho & Hn & Hid & Hcl).
  destruct (element_by_id w a) as [t|] eqn:Ht;
    [rewrite (show_action_listener_found a w t Ht) | rewrite (show_action_listener_missing a w Ht)];
    cbn [fst]; (split_and!; [done | done | intros r; split_and! | intros r]).
  all: rewrite ?id_of_set_display, ?is_Some_alter_element, ?is_Some_set_display_all; try done.
  all: try (intros cls; by rewrite ?has_class_set_display, Hcl).
  all: intros type; by rewrite ?listeners_of_alter, listeners_of_set_display_all.
Qed.

Lemma element_by_id_show_action_listener a w id :
  element_by_id (exec (show_action_listener a) w) id = element_by_id w id.
Proof.
  unfold exec. destruct (element_by_id w a) as [t|] eqn:Ht;
    [rewrite (show_action_listener_found a w t Ht) | rewrite (show_action_listener_missing a w Ht)];
    cbn [fst]; by rewrite ?element_by_id_alter_display, element_by_id_set_display_all.
Qed.

(** The listener runs its two calls one after the other: the hiding
    never throws. *)
Lemma show_action_listener_exec a w :
  exec (show_action_listener a) w =
    exec (toggleActionVisibility a) (exec (hideAllOtherActions a) w).
Proof.
  unfold exec at 1, show_action_listener.
  erewrite js_bind_normal by apply hideAllOtherActions_run.
  unfold exec. by rewrite hideAllOtherActions_run.
Qed.

(** Each function is a batch of display writes: what such writes keep,
    it keeps. *)
Lemma hideAllOtherActions_preserves (P : W -> Prop) x w :
  (forall v l w, P (set_display_all v l w) <-> P w) ->
  P (exec (hideAllOtherActions x) w) <-> P w.
Proof. intros HP. unfold exec. rewrite hideAllOtherActions_run. apply HP. Qed.

Lemma toggleActionVisibility_preserves (P : W -> Prop) a w :
  (forall v l w, P (set_display_all v l w) <-> P w) ->
  P (exec (toggleActionVisibility a) w) <-> P w.
Proof.
  intros HP. unfold exec. rewrite toggleActionVisibility_run.
  destruct (element_by_id w a) as [t|]; cbn [fst]; [| done].
  change (alter_element (set_el_display ?v) t w) with (set_display_all v [t] w). apply HP.
Qed.

Lemma show_action_listener_preserves (P : W -> Prop) a w :
  (forall v l w, P (set_display_all v l w) <-> P w) ->
  P (exec (show_action_listener a) w) <-> P w.
Proof.
  intros HP. rewrite show_action_listener_exec.
  by rewrite toggleActionVisibility_preserves, hideAllOtherActions_preserves.
Qed.

Lemma dom_wf_show_action_listener a w :
  dom_wf (exec (show_action_listener a) w) <-> dom_wf w.
Proof. apply show_action_listener_preserves, dom_wf_set_display_all. Qed.

Lemma listeners_of_show_action_listener a w type r :
  listeners_of type (exec (show_action_listener a) w) r = listeners_of type w r.
Proof. destruct (show_action_listener_frame a w) as (_ & _ & Hr & _). apply (Hr r). Qed.
End listener.

#[export] Hint Rewrite @dom_wf_show_action_listener : mimir_rw.

Section registration.
Implicit Types (w : W) (r : ref).

Definition show_listener (n : nat) (a : string) : Listener Closure :=
  mkListener "click" (mkFn n (ShowActionOnClick a)).

(** The action a listener of the program shows: the [actionId] its
    closure captured. *)
Definition listener_target (l : Listener Closure) : string :=
  match fn_closure (l_fn l) with ShowActionOnClick a => a end.

Lemma registerShowActionOnClick_found b a w rb :
  fn_ids_below w -> element_by_id w b = Some rb ->
  exec (registerShowActionOnClick b a) w =
    alter_element (add_el_listener (show_listener (w_next_fn w) a)) rb
      (mkWorld (w_heap w) (w_order w) (w_parent w) (S (w_next_fn w))).
Proof.
  intros Hfn Hb. unfold exec. rewrite registerShowActionOnClick_run, Hb. cbn [fst].
  apply element_by_id_Some in Hb as (_ & [e He] & _).
  apply (addEventListener_fresh _ _ _ _ e); [done |].
  specialize (Hfn rb e He). rewrite Forall_forall in Hfn |- *.
  intros l Hl. specialize (Hfn l Hl). simpl. lia.
Qed.

Lemma listeners_of_register_same b a w rb :
  fn_ids_below w -> element_by_id w b = Some rb ->
  listeners_of "click" (exec (registerShowActionOnClick b a) w) rb =
    (listeners_of "click" w rb ++ [show_listener (w_next_fn w) a])%list.
Proof.
  intros Hfn Hb. rewrite (registerShowActionOnClick_found b a w rb Hfn Hb).
  apply element_by_id_Some in Hb as (_ & Hs & _).
  unfold show_listener. by rewrite listeners_of_add_same.
Qed.

Lemma listeners_of_register_other b a w rb r type :
  fn_ids_below w -> element_by_id w b = Some rb -> r <> rb ->
  listeners_of type (exec (registerShowActionOnClick b a) w) r = listeners_of type w r.
Proof.
  intros Hfn Hb Hne. rewrite (registerShowActionOnClick_found b a w rb Hfn Hb).
  unfold listeners_of. rewrite lookup_alter_element, decide_False by done. done.
Qed.

Lemma fn_ids_below_register b a w :
  fn_ids_below w -> fn_ids_below (exec (registerShowActionOnClick b a) w).
Proof.
  intros Hfn. destruct (element_by_id w b) as [rb|] eqn:Hb.
  - rewrite (registerShowActionOnClick_found b a w rb Hfn Hb).
    apply listeners_Forall_add; [simpl; lia |].
    eapply listeners_Forall_impl; [| exact Hfn]. simpl. intros l Hl. lia.
  - unfold exec. rewrite registerShowActionOnClick_run, Hb. done.
Qed.

Lemma w_next_fn_register b a w rb :
  fn_ids_below w -> element_by_id w b = Some rb ->
  w_next_fn (exec (registerShowActionOnClick b a) w) = S (w_next_fn w).
Proof. intros Hfn Hb. by rewrite (registerShowActionOnClick_found b a w rb Hfn Hb). Qed.

(** The listener adds and removes no listener, so the snapshot the
    dispatch takes at each node of the event path is the node's
    listeners before the click: a click runs the listeners of the whole
    path, target first, as one list. *)
Lemma click_flat r w : click r w = invoke_listeners (path_listeners "click" w r) w.
Proof.
  unfold click, dispatch, path_listeners. apply dispatch_path_flat.
  intros [a] w' t n. exact (listeners_of_show_action_listener a w' t n).
Qed.

Lemma click_listeners r w ls :
  path_listeners "click" w r = ls -> click r w = invoke_listeners ls w.
Proof. intros <-. apply click_flat. Qed.


Lemma invoke_listeners_cons l ls w :
  invoke_listeners (l :: ls) w =
    let '(w2, errs) := invoke_listeners ls (exec (show_action_listener (listener_target l)) w) in
    (w2, match snd (show_action_listener (listener_target l) w) with
         | Normal _ => errs | Abrupt e => e :: errs end).
Proof.
  destruct l as [ty [n [a]]]. cbn [invoke_listeners].
  change (invoke_closure (fn_closure (l_fn (mkListener ty (mkFn n (ShowActionOnClick a))))))
    with (show_action_listener a).
  change (listener_target (mkListener ty (mkFn n (ShowActionOnClick a)))) with a.
  unfold exec. destruct (show_action_listener a w) as [w1 c]. cbn [fst snd].
  by destruct (invoke_listeners ls w1).
Qed.

Lemma invoke_show_listener n a ls w :
  invoke_listeners (show_listener n a :: ls) w =
    let '(w2, errs) := invoke_listeners ls (exec (show_action_listener a) w) in
    (w2, match snd (show_action_listener a w) with
         | Normal _ => errs | Abrupt e => e :: errs end).
Proof. apply invoke_listeners_cons. Qed.

(** The exceptions a list of the program's listeners reports: one
    [TypeError] per listener whose target no element has, in order.  No
    listener adds or removes an element or changes an [id], so whether a
    target exists is decided by the world before the first one runs. *)
Lemma invoke_listeners_errors ls w0 w :
  (forall id, element_by_id w id = element_by_id w0 id) ->
  snd (invoke_listeners ls w) =
    (fun _ => null_style_error) <$>
      filter (fun l => element_by_id w0 (listener_target l) = None) ls.
Proof.
  revert w. induction ls as [|l ls IH]; intros w Hw; [done |].
  rewrite invoke_listeners_cons, filter_cons.
  pose proof (IH (exec (show_action_listener (listener_target l)) w)) as IH'.
  specialize (IH' (fun id => eq_trans (element_by_id_show_action_listener _ w id) (Hw id))).
  destruct (invoke_listeners ls _) as [w2 errs]. cbn [snd] in IH' |- *. rewrite IH'.
  destruct (element_by_id w (listener_target l)) as [t|] eqn:Ht.
  - rewrite (show_action_listener_found _ w t Ht). cbn [snd].
    rewrite decide_False; [done |]. by rewrite <- Hw, Ht.
  - rewrite (show_action_listener_missing _ w Ht). cbn [snd].
    rewrite decide_True; [done |]. by rewrite <- Hw.
Qed.
End registration.

#[export] Hint Resolve fn_ids_below_register : mimir.

(** ** What each function reads and writes *)

Section frames.
Implicit Types (w : W) (r t : ref).

#[export] Instance others_of_proper : Proper (eq ==> doc_equiv ==> eq) others_of.
Proof.
  intros x ? <- w1 w2 Hw. unfold others_of.
  rewrite (proj1 Hw).
  rewrite (filter_agree (has_class "action" w1) (has_class "action" w2))
    by (intros r _; by apply has_class_proper).
  apply filter_agree. intros r _. by rewrite (id_of_proper w1 w2 Hw r r eq_refl).
Qed.

Lemma hideAllOtherActions_doc_proper x w1 w2 :
  w1 ≡doc w2 -> exec (hideAllOtherActions x) w1 ≡doc exec (hideAllOtherActions x) w2.
Proof.
  intros Hw. unfold exec. rewrite !hideAllOtherActions_run; cbn [fst].
  rewrite Hw at 1. by apply doc_equiv_set_display_all.
Qed.

(** The listener reads and writes the document only: on two worlds that
    show the same document it completes alike and leaves the same
    document. *)
Lemma show_action_listener_doc_proper a w1 w2 :
  w1 ≡doc w2 ->
  snd (show_action_listener a w1) = snd (show_action_listener a w2) /\
  exec (show_action_listener a) w1 ≡doc exec (show_action_listener a) w2.
Proof.
  intros Hw. unfold exec. pose proof (element_by_id_proper w1 w2 Hw a a eq_refl) as He.
  destruct (element_by_id w2 a) as [t|] eqn:Ht.
  - rewrite !(show_action_listener_found a _ t) by done. cbn [fst snd].
    split; [done |].
    rewrite (display_of_proper w1 w2 Hw t t eq_refl), (others_of_proper a a eq_refl w1 w2 Hw).
    by apply doc_equiv_alter_display, doc_equiv_set_display_all.
  - rewrite !show_action_listener_missing by done. cbn [fst snd].
    split; [done |]. rewrite (others_of_proper a a eq_refl w1 w2 Hw).
    by apply doc_equiv_set_display_all.
Qed.

Lemma addEventListener_doc_equiv r type (f : FnObj Closure) w :
  exec (addEventListener r type f) w ≡doc w.
Proof.
  unfold exec, addEventListener, js_modify; simpl.
  destruct (w_heap w !! r); [case_decide |]; [done | | done].
  by apply doc_equiv_alter.
Qed.

Lemma register_doc_equiv b a w :
  exec (registerShowActionOnClick b a) w ≡doc w.
Proof.
  unfold exec. rewrite registerShowActionOnClick_run. cbn [fst].
  destruct (element_by_id w b); [| done].
  by rewrite addEventListener_doc_equiv.
Qed.
(** On the event path of a well-formed tree where only [rb] has click
    listeners, the path's listeners are [rb]'s. *)
Lemma path_listeners_single w d rb :
  tree_wf w -> rb ∈ event_path w d ->
  (forall n, n ∈ event_path w d -> n <> rb -> listeners_of "click" w n = []) ->
  path_listeners "click" w d = listeners_of "click" w rb.
Proof. intros Hwf Hin Hl. unfold path_listeners. apply concat_map_single; auto using event_path_NoDup. Qed.

(** Registering on [rb], an element of the path where only [rb] has
    click listeners, appends the new listener to the path's. *)
Lemma path_listeners_register b a w rb d :
  tree_wf w -> fn_ids_below w -> element_by_id w b = Some rb -> rb ∈ event_path w d ->
  (forall n, n ∈ event_path w d -> n <> rb -> listeners_of "click" w n = []) ->
  path_listeners "click" (exec (registerShowActionOnClick b a) w) d =
    (listeners_of "click" w rb ++ [show_listener (w_next_fn w) a])%list.
Proof.
  intros Hwf Hfn Hb Hin Hl.
  pose proof (register_doc_equiv b a w) as Hdoc.
  assert (Hp : event_path (exec (registerShowActionOnClick b a) w) d = event_path w d)
    by (by rewrite Hdoc).
  rewrite (path_listeners_single _ d rb).
  - by apply listeners_of_register_same.
  - by rewrite Hdoc.
  - by rewrite Hp.
  - rewrite Hp. intros n Hn Hne. rewrite (listeners_of_register_other b a w rb) by done. by apply Hl.
Qed.

Lemma event_path_show_action_listener a w d :
  event_path (exec (show_action_listener a) w) d = event_path w d.
Proof.
  pose proof (show_action_listener_frame a w) as (Ho & _).
  assert (Hp : w_parent (exec (show_action_listener a) w) = w_parent w).
  { apply (show_action_listener_preserves (fun w' => w_parent w' = w_parent w)); [| done].
    intros v l w'. by rewrite w_parent_set_display_all. }
  unfold event_path. by rewrite Ho, Hp.
Qed.

(** A click leaves every event path's listeners and every lookup by ID
    as they were. *)
Lemma path_listeners_click r d w :
  path_listeners "click" (fst (click r w)) d = path_listeners "click" w d.
Proof.
  rewrite click_flat.
  apply (invoke_listeners_ind (fun w0 w1 => path_listeners "click" w1 d = path_listeners "click" w0 d));
    [| done].
  intros w0 w1 [a] H. rewrite <- H. unfold path_listeners.
  change (exec (invoke_closure (ShowActionOnClick a)) w1) with (exec (show_action_listener a) w1).
  rewrite event_path_show_action_listener. f_equal. apply map_ext. intros n.
  apply listeners_of_show_action_listener.
Qed.

Lemma element_by_id_click r w id : element_by_id (fst (click r w)) id = element_by_id w id.
Proof.
  rewrite click_flat.
  apply (invoke_listeners_ind (fun w0 w1 => element_by_id w1 id = element_by_id w0 id)); [| done].
  intros w0 w1 [a] H. rewrite <- H. apply element_by_id_show_action_listener.
Qed.

(** A click whose event path carries one trigger toggles its target. *)
Lemma click_single_display w d n a t :
  path_listeners "click" w d = [show_listener n a] -> element_by_id w a = Some t ->
  display_of (fst (click d w)) t = toggle_display (display_of w t).
Proof.
  intros Hl Ht. rewrite (click_listeners d w _ Hl), invoke_show_listener. cbn [invoke_listeners fst].
  by rewrite show_action_listener_display, Ht, decide_True.
Qed.
(** The exceptions a click reports, from the world it starts in. *)
Lemma click_reported_errors r w :
  snd (click r w) =
    (fun _ => null_style_error) <$>
      filter (fun l => element_by_id w (listener_target l) = None) (path_listeners "click" w r).
Proof. rewrite click_flat. by apply invoke_listeners_errors. Qed.
End frames.


(** ** Properties of the three functions *)

Section properties.
Implicit Types (w : W) (r t : ref).

(** C3: the listener of lines 17-20 on a target that exists completes
    normally, inverts the display of the target, hides every other
    element of class [action] whose ID differs from [actionId], and
    changes nothing else: tree order, IDs, classes and listeners stay. *)
Theorem show_action_listener_spec a w t :
  element_by_id w a = Some t ->
  let '(w', c) := show_action_listener a w in
  c = Normal tt /\ w_order w' = w_order w /\
  (forall r, id_of w' r = id_of w r /\
             (forall cls, has_class cls w' r <-> has_class cls w r) /\
             (forall type, listeners_of type w' r = listeners_of type w r)) /\
  (forall r, display_of w' r =
     if decide (r = t) then toggle_display (display_of w t)
     else if decide (r ∈ w_order w /\ has_class "action" w r /\ id_of w r <> a)
     then "none" else display_of w r).
Proof.
  intros Ht. pose proof (show_action_listener_frame a w) as (Ho & _ & Hr & _).
  pose proof (show_action_listener_display a w) as Hd. rewrite Ht in Hd.
  assert (Hc : snd (show_action_listener a w) = Normal tt)
    by (by rewrite (show_action_listener_found a w t Ht)).
  unfold exec in *. destruct (show_action_listener a w) as [w' c]. cbn [fst snd] in *.
  split_and!; [done | done | done |]. intros r. rewrite Hd.
  pose proof (elem_of_others_of a w r). repeat case_decide; naive_solver.
Qed.

(** C6: when no element has the ID [actionId], the listener still runs
    [hideAllOtherActions] first: every element of class [action] is
    hidden, and then the [TypeError] of line 9 is thrown. *)
Theorem show_action_listener_missing_target a w :
  Forall (fun r => id_of w r <> a) (w_order w) ->
  let '(w', c) := show_action_listener a w in
  c = Abrupt null_style_error /\
  forall r, display_of w' r =
    if decide (r ∈ w_order w /\ has_class "action" w r) then "none" else display_of w r.
Proof.
  intros Hall. rewrite show_action_listener_missing by (by apply element_by_id_absent).
  split; [done |]. intros r. rewrite display_of_hide_others.
  pose proof (others_of_absent a w r Hall). repeat case_decide; naive_solver.
Qed.

(** C8: [hideAllOtherActions x] for an [x] no element has as ID
    completes normally and hides every element of class [action],
    leaving every other display as it was. *)
Theorem hideAllOtherActions_absent x w :
  Forall (fun r => id_of w r <> x) (w_order w) ->
  let '(w', c) := hideAllOtherActions x w in
  c = Normal tt /\
  forall r, display_of w' r =
    if decide (r ∈ w_order w /\ has_class "action" w r) then "none" else display_of w r.
Proof.
  intros Hall. rewrite hideAllOtherActions_run. split; [done |]. intros r.
  rewrite display_of_hide_others.
  pose proof (others_of_absent x w r Hall). repeat case_decide; naive_solver.
Qed.

(** C9: [toggleActionVisibility] on an ID no element has throws the
    [TypeError] of line 9 and changes nothing. *)
Theorem toggleActionVisibility_missing id w :
  Forall (fun r => id_of w r <> id) (w_order w) ->
  toggleActionVisibility id w = (w, Abrupt null_style_error).
Proof.
  intros Hall. rewrite toggleActionVisibility_run. by rewrite element_by_id_absent.
Qed.

(** C10: [registerShowActionOnClick] with a button ID no element has
    returns normally (the guard of line 14) and changes nothing: no
    function object is allocated and no listener is attached. *)
Theorem registerShowActionOnClick_missing b a w :
  Forall (fun r => id_of w r <> b) (w_order w) ->
  registerShowActionOnClick b a w = (w, Normal tt).
Proof.
  intros Hall. rewrite registerShowActionOnClick_run. by rewrite element_by_id_absent.
Qed.

(** C14: with no element of class [action] in the document,
    [hideAllOtherActions] is a no-op that completes normally. *)
Theorem hideAllOtherActions_empty x w :
  Forall (fun r => ~ has_class "action" w r) (w_order w) ->
  hideAllOtherActions x w = (w, Normal tt).
Proof.
  intros Hall. rewrite hideAllOtherActions_run.
  assert (Hnil : others_of x w = []).
  { unfold others_of. rewrite (filter_all_false (has_class "action" w)); [done |].
    by apply Forall_forall. }
  by rewrite Hnil.
Qed.
(** C2: the spec's mutual exclusion.  Register a trigger [b] for the
    panel [a], then click the button [rb] or any element inside it (the
    click bubbles up to the button), where no click listener is on that
    element's event path yet: no error is reported, the panel's display
    is inverted, and every other element of class [action] is hidden. *)
Theorem register_click_mutual_exclusion w b a rb t d :
  dom_wf w -> fn_ids_below w ->
  element_by_id w b = Some rb -> rb ∈ event_path w d -> path_listeners "click" w d = [] ->
  element_by_id w a = Some t ->
  let '(w2, errs) := click d (exec (registerShowActionOnClick b a) w) in
  errs = [] /\
  display_of w2 t = toggle_display (display_of w t) /\
  (forall r, r ∈ w_order w -> has_class "action" w r -> r <> t -> display_of w2 r = "none").
Proof.
  intros Hwf Hfn Hb Hin Hnone Ht.
  pose proof (register_doc_equiv b a w) as Hdoc.
  unfold path_listeners in Hnone. rewrite concat_map_nil in Hnone.
  rewrite (click_listeners d _ [show_listener (w_next_fn w) a]); last first.
  { rewrite (path_listeners_register b a w rb d), Hnone; try done; [apply Hwf |].
    intros n Hn _. by apply Hnone. }
  set (w1 := exec (registerShowActionOnClick b a) w) in *.
  rewrite invoke_show_listener. cbn [invoke_listeners].
  assert (Ht1 : element_by_id w1 a = Some t) by (by rewrite Hdoc).
  assert (Hc : snd (show_action_listener a w1) = Normal tt)
    by (by rewrite (show_action_listener_found a w1 t Ht1)).
  rewrite Hc.
  split_and!; [done | |].
  - rewrite show_action_listener_display, Ht1, decide_True by done. by rewrite Hdoc.
  - intros r Hr Hcl Hne. rewrite show_action_listener_display, Ht1, decide_False by done.
    rewrite decide_True; [done |]. rewrite elem_of_others_of, (proj1 Hdoc).
    rewrite (has_class_proper "action" w1 w Hdoc r r eq_refl), (id_of_proper w1 w Hdoc r r eq_refl).
    split_and!; [done | done |]. intros Hid. apply Hne. by eapply element_by_id_unique.
Qed.

Lemma toggle_display_twice_iff d :
  toggle_display (toggle_display d) = d <-> d = "block" \/ d = "none".
Proof.
  unfold toggle_display. case_streq d "block".
  - subst. vm_compute. naive_solver.
  - rewrite js_streq_refl. naive_solver.
Qed.

Lemma toggle_display_block_within_two d :
  toggle_display d = "block" \/ toggle_display (toggle_display d) = "block".
Proof. unfold toggle_display. case_streq d "block"; [right | left]; reflexivity. Qed.

(** C7: two toggles in succession give back the world exactly when the
    element's display was ["block"] or ["none"]; from any other value
    (an unset [""], say) they end on ["none"]. *)
Theorem toggleActionVisibility_twice id w t :
  element_by_id w id = Some t ->
  (toggleActionVisibility id ;; toggleActionVisibility id) w = (w, Normal tt) <->
  display_of w t = "block" \/ display_of w t = "none".
Proof.
  intros Ht. erewrite js_bind_normal by (by rewrite toggleActionVisibility_run, Ht).
  rewrite toggleActionVisibility_run, element_by_id_alter_display, Ht.
  apply element_by_id_Some in Ht as (_ & Hs & _).
  rewrite display_of_set_same, alter_element_set_display_twice by done.
  rewrite <- toggle_display_twice_iff. split.
  - intros [= Heq]. symmetry. by apply (alter_element_set_display_id_iff _ _ _ Hs).
  - intros Heq. f_equal. apply alter_element_set_display_id_iff; [done |]. by symmetry.
Qed.
(** C11: registering on an existing button allocates a new function
    object and appends exactly one click listener running
    [ShowActionOnClick actionId] to the button, leaving every other
    element's listeners and the whole document as they were. *)
Theorem registerShowActionOnClick_adds_listener b a w rb :
  fn_ids_below w -> element_by_id w b = Some rb ->
  let '(w', c) := registerShowActionOnClick b a w in
  c = Normal tt /\
  listeners_of "click" w' rb = (listeners_of "click" w rb ++ [show_listener (w_next_fn w) a])%list /\
  (forall r type, r <> rb -> listeners_of type w' r = listeners_of type w r) /\
  w' ≡doc w /\ w_next_fn w' = S (w_next_fn w) /\ fn_ids_below w'.
Proof.
  intros Hfn Hb.
  pose proof (listeners_of_register_same b a w rb Hfn Hb) as H1.
  pose proof (listeners_of_register_other b a w rb) as H2.
  pose proof (register_doc_equiv b a w) as H3.
  pose proof (w_next_fn_register b a w rb Hfn Hb) as H4.
  pose proof (fn_ids_below_register b a w Hfn) as H5.
  assert (Hc : snd (registerShowActionOnClick b a w) = Normal tt)
    by (by rewrite registerShowActionOnClick_run).
  unfold exec in *. destruct (registerShowActionOnClick b a w) as [w' c].
  cbn [fst snd] in *. naive_solver.
Qed.

(** C12: each call of [registerShowActionOnClick] evaluates the function
    expression anew, so registering the same pair twice attaches two
    listeners; one click on the button or inside it then toggles the
    panel twice, and a panel that was not shown stays hidden. *)
Theorem register_twice_click_hides_target w b a rb t d :
  tree_wf w -> fn_ids_below w ->
  element_by_id w b = Some rb -> rb ∈ event_path w d -> path_listeners "click" w d = [] ->
  element_by_id w a = Some t -> display_of w t <> "block" ->
  let '(w2, errs) :=
    click d (exec (registerShowActionOnClick b a ;; registerShowActionOnClick b a) w) in
  errs = [] /\ display_of w2 t = "none".
Proof.
  intros Hwf Hfn Hb Hin Hnone Ht Hd.
  unfold path_listeners in Hnone. rewrite concat_map_nil in Hnone.
  pose proof (register_doc_equiv b a w) as Hdoc1.
  set (w1 := exec (registerShowActionOnClick b a) w) in *.
  assert (Hb1 : element_by_id w1 b = Some rb) by (by rewrite Hdoc1).
  assert (Hp1 : event_path w1 d = event_path w d) by (by rewrite Hdoc1).
  pose proof (fn_ids_below_register b a w Hfn) as Hfn1.
  assert (E : exec (registerShowActionOnClick b a ;; registerShowActionOnClick b a) w =
              exec (registerShowActionOnClick b a) w1).
  { unfold exec. rewrite (js_bind_normal _ _ w w1 tt); [done |].
    unfold w1, exec. by rewrite registerShowActionOnClick_run. }
  rewrite E, (click_listeners d _ [show_listener (w_next_fn w) a; show_listener (S (w_next_fn w)) a]).
  2:{ rewrite (path_listeners_register b a w1 rb d); try done.
      - unfold w1. rewrite (w_next_fn_register b a w rb), listeners_of_register_same, Hnone by done.
        done.
      - by rewrite Hdoc1.
      - by rewrite Hp1.
      - rewrite Hp1. intros n Hn Hne. unfold w1.
        rewrite (listeners_of_register_other b a w rb) by done. by apply Hnone. }
  pose proof (register_doc_equiv b a w1) as Hdoc2.
  set (w2 := exec (registerShowActionOnClick b a) w1) in *.
  assert (Ht2 : element_by_id w2 a = Some t) by (by rewrite Hdoc2, Hdoc1).
  assert (Ht3 : element_by_id (exec (show_action_listener a) w2) a = Some t)
    by (by rewrite element_by_id_show_action_listener).
  rewrite !invoke_show_listener. cbn [invoke_listeners].
  rewrite (show_action_listener_found a w2 t Ht2),
    (show_action_listener_found a _ t Ht3); cbn [snd]. split; [done |].
  rewrite show_action_listener_display, Ht3, decide_True by done.
  rewrite show_action_listener_display, Ht2, decide_True by done.
  rewrite Hdoc2, Hdoc1. unfold toggle_display. case_streq (display_of w t) "block"; [done |].
  by rewrite js_streq_refl.
Qed.

(** C13: when the target exists the two calls of the listener commute:
    toggling first and hiding the others second gives the same world and
    completion.  The order of lines 18-19 matters only on the error path
    (see C6). *)
Theorem show_action_listener_order_irrelevant a w :
  is_Some (element_by_id w a) ->
  (toggleActionVisibility a ;; hideAllOtherActions a) w = show_action_listener a w.
Proof.
  intros [t Ht]. rewrite (show_action_listener_found a w t Ht).
  erewrite js_bind_normal by (by rewrite toggleActionVisibility_run, Ht).
  rewrite hideAllOtherActions_run, others_of_alter_display.
  rewrite set_display_all_alter_comm; [done |].
  apply element_by_id_Some in Ht as (_ & _ & Hid & _). rewrite elem_of_others_of. naive_solver.
Qed.
(** C15: an exception in one listener does not stop the next.  A click
    whose event path carries two triggers, the first for an ID no element
    has and the second for the panel [t]: the click reports the first
    listener's [TypeError], and the second listener still runs and shows
    [t] (the first hid it). *)
Theorem click_error_isolated w r n1 a1 n2 a2 t :
  path_listeners "click" w r = [show_listener n1 a1; show_listener n2 a2] ->
  Forall (fun r => id_of w r <> a1) (w_order w) ->
  element_by_id w a2 = Some t -> has_class "action" w t ->
  let '(w', errs) := click r w in
  errs = [null_style_error] /\ display_of w' t = "block".
Proof.
  intros Hl Hall Ht Hc. rewrite (click_listeners r w _ Hl), !invoke_show_listener.
  cbn [invoke_listeners].
  assert (Ht1 : element_by_id (exec (show_action_listener a1) w) a2 = Some t)
    by (by rewrite element_by_id_show_action_listener).
  rewrite (show_action_listener_found a2 _ t Ht1),
    show_action_listener_missing by (by apply element_by_id_absent). cbn [snd].
  split; [done |].
  rewrite show_action_listener_display, Ht1, decide_True by done.
  rewrite show_action_listener_display, (element_by_id_absent w a1 Hall).
  rewrite decide_True; [reflexivity |].
  apply element_by_id_Some in Ht as (Hin & _ & _).
  rewrite Forall_forall in Hall. rewrite elem_of_others_of. naive_solver.
Qed.

(** C30: nested triggers run inner first, and the outer one wins.  When
    the event path of a click carries a trigger for the panel [a] (on the
    clicked element) and then one for another panel [b] (on an
    ancestor), the click reports no error and ends with [b] shown and
    [a] hidden, whatever their states before. *)
Theorem nested_triggers_outer_wins w d n1 a n2 b ta tb :
  dom_wf w -> path_listeners "click" w d = [show_listener n1 a; show_listener n2 b] ->
  element_by_id w a = Some ta -> element_by_id w b = Some tb -> a <> b ->
  has_class "action" w ta -> has_class "action" w tb ->
  let '(w', errs) := click d w in
  errs = [] /\ display_of w' ta = "none" /\ display_of w' tb = "block".
Proof.
  intros Hwf Hl Ha Hb Hab Hca Hcb. pose proof Ha as Ha0.
  rewrite (click_listeners d w _ Hl), !invoke_show_listener. cbn [invoke_listeners].
  pose proof (show_action_listener_frame a w) as (Ho & _ & Hr & _).
  set (w1 := exec (show_action_listener a) w) in *.
  assert (Hb1 : element_by_id w1 b = Some tb)
    by (unfold w1; by rewrite element_by_id_show_action_listener).
  assert (Hc1 : snd (show_action_listener a w) = Normal tt)
    by (by rewrite (show_action_listener_found a w ta Ha)).
  assert (Hc2 : snd (show_action_listener b w1) = Normal tt)
    by (by rewrite (show_action_listener_found b w1 tb Hb1)).
  rewrite Hc1, Hc2. split; [done |].
  rewrite !show_action_listener_display, Hb1.
  apply element_by_id_Some in Ha as (Hta & _ & Hida & _), Hb as (Htb & _ & Hidb & _).
  assert (Hne : ta <> tb) by congruence.
  split.
  - rewrite decide_False by done. rewrite decide_True; [done |].
    apply elem_of_others_of. rewrite Ho. split_and!; [done | by apply Hr |].
    rewrite (proj1 (Hr ta)). congruence.
  - rewrite decide_True by done. unfold w1. rewrite show_action_listener_display.
    rewrite Ha0, decide_False by congruence. rewrite decide_True; [done |].
    apply elem_of_others_of. split_and!; [done | done | congruence].
Qed.

(** C17: liveness of a trigger.  When the event path of a click carries
    exactly one trigger, for a panel [t] that exists, the panel is shown
    after the first click or after the second: a panel shown before is
    hidden by the first click and shown again by the second. *)
Theorem trigger_shows_within_two_clicks w d n a t :
  path_listeners "click" w d = [show_listener n a] -> element_by_id w a = Some t ->
  display_of (fst (click d w)) t = "block" \/
  display_of (fst (click d (fst (click d w)))) t = "block".
Proof.
  intros Hl Ht.
  rewrite (click_single_display (fst (click d w)) d n a t), (click_single_display w d n a t);
    try done; [apply toggle_display_block_within_two | |].
  - by rewrite path_listeners_click.
  - by rewrite element_by_id_click.
Qed.

(** C18: the exceptions a click reports, and their bound.  The click
    reports one [TypeError] (line 9's read of [style] on [null]) for
    each listener on its event path whose target no element has, in
    dispatch order, and nothing else; so never more than the listeners
    on the path. *)
Theorem click_errors r w :
  snd (click r w) =
    (fun _ => null_style_error) <$>
      filter (fun l => element_by_id w (listener_target l) = None) (path_listeners "click" w r) /\
  length (snd (click r w)) <= length (path_listeners "click" w r).
Proof.
  rewrite click_reported_errors. split; [done |]. rewrite length_fmap. apply length_filter.
Qed.

(** C16: a trigger registered with the empty string as [actionId] never
    shows anything and leaves the panels without an ID alone: line 3
    exempts every element whose [id] is [""], and line 8 finds no element
    for [""], so line 9 throws. *)
Theorem show_action_listener_empty_id w r :
  id_of w r = "" ->
  let '(w', c) := show_action_listener "" w in
  c = Abrupt null_style_error /\ display_of w' r = display_of w r.
Proof.
  intros Hr. rewrite show_action_listener_missing by done.
  split; [done |]. rewrite display_of_hide_others, decide_False; [done |].
  rewrite elem_of_others_of. naive_solver.
Qed.
End properties.



(** ** A concrete page

    The page of the spec's scenario: two buttons [b1], [b2] and two
    panels [p1], [p2] of class [action], both hidden.  The button [b1]
    holds a label [b1-label] (node 5), whose clicks bubble up to [b1]. *)

Definition demo_element (id : string) (classes : list string) (display : string)
    : Element Closure :=
  mkElement id classes display [].

Definition demo_world : W :=
  mkWorld (list_to_map [(1, demo_element "b1" [] "");
                        (5, demo_element "b1-label" [] "");
                        (2, demo_element "b2" [] "");
                        (3, demo_element "p1" ["action"] "none");
                        (4, demo_element "p2" ["action"] "none")])
          [1; 5; 2; 3; 4] {[5 := 1]} 0.

Lemma show_action_listener_spec_witness :
  element_by_id demo_world "p1" = Some 3 /\
  display_of (exec (show_action_listener "p1") demo_world) 3 = "block" /\
  display_of (exec (show_action_listener "p1") demo_world) 4 = "none".
Proof.
  assert (Ht : element_by_id demo_world "p1" = Some 3) by reflexivity.
  pose proof (show_action_listener_spec "p1" demo_world 3 Ht) as H.
  unfold exec. destruct (show_action_listener "p1" demo_world) as [w' c].
  destruct H as (_ & _ & _ & Hd). rewrite !Hd. split; [exact Ht | split; reflexivity].
Defined.

Lemma show_action_listener_missing_target_witness :
  Forall (fun r => id_of demo_world r <> "p9") (w_order demo_world) /\
  snd (show_action_listener "p9" demo_world) = Abrupt null_style_error /\
  display_of (exec (show_action_listener "p9") demo_world) 1 = "".
Proof.
  assert (Hall : Forall (fun r => id_of demo_world r <> "p9") (w_order demo_world))
    by decide_by_eval.
  pose proof (show_action_listener_missing_target "p9" demo_world Hall) as H.
  unfold exec. destruct (show_action_listener "p9" demo_world) as [w' c].
  destruct H as [Hc Hd]. rewrite Hd. split; [exact Hall | split; [exact Hc | reflexivity]].
Defined.

Lemma hideAllOtherActions_absent_witness :
  Forall (fun r => id_of demo_world r <> "none") (w_order demo_world) /\
  display_of (exec (hideAllOtherActions "none") demo_world) 3 = "none".
Proof.
  assert (Hall : Forall (fun r => id_of demo_world r <> "none") (w_order demo_world))
    by decide_by_eval.
  pose proof (hideAllOtherActions_absent "none" demo_world Hall) as H.
  unfold exec. destruct (hideAllOtherActions "none" demo_world) as [w' c].
  destruct H as [_ Hd]. rewrite Hd. split; [exact Hall | reflexivity].
Defined.

Lemma toggleActionVisibility_missing_witness :
  Forall (fun r => id_of demo_world r <> "doesNotExist") (w_order demo_world) /\
  toggleActionVisibility "doesNotExist" demo_world = (demo_world, Abrupt null_style_error).
Proof.
  assert (Hall : Forall (fun r => id_of demo_world r <> "doesNotExist") (w_order demo_world))
    by decide_by_eval.
  split; [exact Hall | exact (toggleActionVisibility_missing _ _ Hall)].
Defined.

Lemma registerShowActionOnClick_missing_witness :
  Forall (fun r => id_of demo_world r <> "missingButton") (w_order demo_world) /\
  registerShowActionOnClick "missingButton" "anyAction" demo_world = (demo_world, Normal tt).
Proof.
  assert (Hall : Forall (fun r => id_of demo_world r <> "missingButton") (w_order demo_world))
    by decide_by_eval.
  split; [exact Hall | exact (registerShowActionOnClick_missing _ _ _ Hall)].
Defined.

Definition demo_buttons_only : W :=
  mkWorld (list_to_map [(1, demo_element "b1" [] "block")]) [1] ∅ 0.

Lemma hideAllOtherActions_empty_witness :
  Forall (fun r => ~ has_class "action" demo_buttons_only r) (w_order demo_buttons_only) /\
  hideAllOtherActions "b1" demo_buttons_only = (demo_buttons_only, Normal tt).
Proof.
  assert (Hall : Forall (fun r => ~ has_class "action" demo_buttons_only r)
                   (w_order demo_buttons_only)) by decide_by_eval.
  split; [exact Hall | exact (hideAllOtherActions_empty _ _ Hall)].
Defined.

Lemma register_click_mutual_exclusion_witness :
  dom_wf demo_world /\ fn_ids_below demo_world /\
  element_by_id demo_world "b1" = Some 1 /\ 1 ∈ event_path demo_world 5 /\
  path_listeners "click" demo_world 5 = [] /\ element_by_id demo_world "p1" = Some 3 /\
  snd (click 5 (exec (registerShowActionOnClick "b1" "p1") demo_world)) = [] /\
  display_of (fst (click 5 (exec (registerShowActionOnClick "b1" "p1") demo_world))) 3 = "block".
Proof.
  assert (Hwf : dom_wf demo_world) by decide_by_eval.
  assert (Hfn : fn_ids_below demo_world) by decide_by_eval.
  assert (Hb : element_by_id demo_world "b1" = Some 1) by reflexivity.
  assert (Hin : 1 ∈ event_path demo_world 5) by decide_by_eval.
  assert (Hn : path_listeners "click" demo_world 5 = []) by reflexivity.
  assert (Ht : element_by_id demo_world "p1" = Some 3) by reflexivity.
  pose proof (register_click_mutual_exclusion demo_world "b1" "p1" 1 3 5 Hwf Hfn Hb Hin Hn Ht) as H.
  destruct (click 5 (exec (registerShowActionOnClick "b1" "p1") demo_world)) as [w2 errs].
  destruct H as (He & Hd & _). cbn [fst snd]. rewrite Hd. split_and!; try done.
Defined.

Lemma toggleActionVisibility_twice_witness :
  element_by_id demo_world "p1" = Some 3 /\
  (toggleActionVisibility "p1" ;; toggleActionVisibility "p1")%js demo_world = (demo_world, Normal tt).
Proof.
  assert (Ht : element_by_id demo_world "p1" = Some 3) by reflexivity.
  split; [exact Ht |]. apply (toggleActionVisibility_twice "p1" demo_world 3 Ht).
  right. reflexivity.
Defined.

Lemma registerShowActionOnClick_adds_listener_witness :
  fn_ids_below demo_world /\ element_by_id demo_world "b1" = Some 1 /\
  listeners_of "click" (exec (registerShowActionOnClick "b1" "p1") demo_world) 1 =
    [show_listener 0 "p1"].
Proof.
  assert (Hfn : fn_ids_below demo_world) by decide_by_eval.
  assert (Hb : element_by_id demo_world "b1" = Some 1) by reflexivity.
  pose proof (registerShowActionOnClick_adds_listener "b1" "p1" demo_world 1 Hfn Hb) as H.
  unfold exec. destruct (registerShowActionOnClick "b1" "p1" demo_world) as [w' c].
  destruct H as (_ & Hl & _). cbn [fst]. rewrite Hl. split_and!; done.
Defined.

Lemma register_twice_click_hides_target_witness :
  tree_wf demo_world /\ fn_ids_below demo_world /\ element_by_id demo_world "b1" = Some 1 /\
  1 ∈ event_path demo_world 1 /\ path_listeners "click" demo_world 1 = [] /\
  element_by_id demo_world "p1" = Some 3 /\ display_of demo_world 3 <> "block" /\
  display_of (fst (click 1 (exec (registerShowActionOnClick "b1" "p1" ;;
                                   registerShowActionOnClick "b1" "p1")%js demo_world))) 3 = "none".
Proof.
  assert (Hwf : tree_wf demo_world) by decide_by_eval.
  assert (Hfn : fn_ids_below demo_world) by decide_by_eval.
  assert (Hb : element_by_id demo_world "b1" = Some 1) by reflexivity.
  assert (Hin : 1 ∈ event_path demo_world 1) by decide_by_eval.
  assert (Hn : path_listeners "click" demo_world 1 = []) by reflexivity.
  assert (Ht : element_by_id demo_world "p1" = Some 3) by reflexivity.
  assert (Hd : display_of demo_world 3 <> "block") by decide_by_eval.
  pose proof (register_twice_click_hides_target demo_world "b1" "p1" 1 3 1 Hwf Hfn Hb Hin Hn Ht Hd)
    as H.
  destruct (click 1 _) as [w2 errs]. destruct H as [_ H]. split_and!; done.
Defined.

Lemma show_action_listener_order_irrelevant_witness :
  is_Some (element_by_id demo_world "p2") /\
  (toggleActionVisibility "p2" ;; hideAllOtherActions "p2")%js demo_world =
    show_action_listener "p2" demo_world.
Proof.
  assert (Hs : is_Some (element_by_id demo_world "p2")) by (eexists; reflexivity).
  split; [exact Hs | exact (show_action_listener_order_irrelevant "p2" demo_world Hs)].
Defined.

Definition demo_two_triggers : W :=
  exec (registerShowActionOnClick "b1" "p9" ;; registerShowActionOnClick "b1" "p2") demo_world.

Lemma click_error_isolated_witness :
  path_listeners "click" demo_two_triggers 5 = [show_listener 0 "p9"; show_listener 1 "p2"] /\
  Forall (fun r => id_of demo_two_triggers r <> "p9") (w_order demo_two_triggers) /\
  element_by_id demo_two_triggers "p2" = Some 4 /\ has_class "action" demo_two_triggers 4 /\
  snd (click 5 demo_two_triggers) = [null_style_error].
Proof.
  assert (Hl : path_listeners "click" demo_two_triggers 5 =
                 [show_listener 0 "p9"; show_listener 1 "p2"]) by reflexivity.
  assert (Hall : Forall (fun r => id_of demo_two_triggers r <> "p9") (w_order demo_two_triggers))
    by decide_by_eval.
  assert (Ht : element_by_id demo_two_triggers "p2" = Some 4) by reflexivity.
  assert (Hc : has_class "action" demo_two_triggers 4) by decide_by_eval.
  pose proof (click_error_isolated demo_two_triggers 5 0 "p9" 1 "p2" 4 Hl Hall Ht Hc) as H.
  destruct (click 5 demo_two_triggers) as [w' errs]. destruct H as [He _].
  split_and!; done.
Defined.

Definition demo_unnamed_panel : W :=
  mkWorld (list_to_map [(1, demo_element "" ["action"] "block")]) [1] ∅ 0.

Lemma show_action_listener_empty_id_witness :
  id_of demo_unnamed_panel 1 = "" /\
  display_of (exec (show_action_listener "") demo_unnamed_panel) 1 = "block".
Proof.
  assert (Hr : id_of demo_unnamed_panel 1 = "") by reflexivity.
  pose proof (show_action_listener_empty_id demo_unnamed_panel 1 Hr) as H.
  unfold exec. destruct (show_action_listener "" demo_unnamed_panel) as [w' c].
  destruct H as [_ Hd]. cbn [fst]. rewrite Hd. split; reflexivity.
Defined.

Definition demo_one_trigger : W := exec (registerShowActionOnClick "b1" "p1") demo_world.

Lemma trigger_shows_within_two_clicks_witness :
  path_listeners "click" demo_one_trigger 5 = [show_listener 0 "p1"] /\
  element_by_id demo_one_trigger "p1" = Some 3 /\
  (display_of (fst (click 5 demo_one_trigger)) 3 = "block" \/
   display_of (fst (click 5 (fst (click 5 demo_one_trigger)))) 3 = "block").
Proof.
  assert (Hl : path_listeners "click" demo_one_trigger 5 = [show_listener 0 "p1"]) by reflexivity.
  assert (Ht : element_by_id demo_one_trigger "p1" = Some 3) by reflexivity.
  split_and!; [exact Hl | exact Ht |].
  exact (trigger_shows_within_two_clicks demo_one_trigger 5 0 "p1" 3 Hl Ht).
Defined.

(** The button [b1] triggers [p1]; its label, inside it, triggers [p2]. *)
Definition demo_nested : W :=
  exec (registerShowActionOnClick "b1" "p1" ;; registerShowActionOnClick "b1-label" "p2") demo_world.

Lemma nested_triggers_outer_wins_witness :
  dom_wf demo_nested /\
  path_listeners "click" demo_nested 5 = [show_listener 1 "p2"; show_listener 0 "p1"] /\
  element_by_id demo_nested "p2" = Some 4 /\ element_by_id demo_nested "p1" = Some 3 /\
  "p2" <> "p1" /\ has_class "action" demo_nested 4 /\ has_class "action" demo_nested 3 /\
  display_of (fst (click 5 demo_nested)) 3 = "block".
Proof.
  assert (Hwf : dom_wf demo_nested) by decide_by_eval.
  assert (Hl : path_listeners "click" demo_nested 5 = [show_listener 1 "p2"; show_listener 0 "p1"])
    by reflexivity.
  assert (Ha : element_by_id demo_nested "p2" = Some 4) by reflexivity.
  assert (Hb : element_by_id demo_nested "p1" = Some 3) by reflexivity.
  assert (Hab : "p2" <> "p1") by discriminate.
  assert (Hca : has_class "action" demo_nested 4) by decide_by_eval.
  assert (Hcb : has_class "action" demo_nested 3) by decide_by_eval.
  pose proof (nested_triggers_outer_wins demo_nested 5 1 "p2" 0 "p1" 4 3 Hwf Hl Ha Hb Hab Hca Hcb) as H.
  destruct (click 5 demo_nested) as [w' errs]. destruct H as (_ & _ & Hd).
  split_and!; assumption.
Defined.
