(* ===== verification/Live.v ===== *)
(** * The snapshot of line 2 against the live collection

    Line 2 copies the live [HTMLCollection] that
    [getElementsByClassName("action")] returns into an array
    ([Array.from]) before the loop.  The usual alternative walks the
    live collection by index, [for (let i = 0; i < coll.length; i++)],
    and re-reads it at each step: a loop that changes class membership
    then skips or repeats elements.  [hideAllOtherActions_live] is that
    loop, written as a reference: [live_loop] reads the collection at
    each iteration, with the size of the document as fuel.  Writing
    [style.display] changes no class and no tree order, so the live
    collection stays the same during the loop and the two functions agree
    on every document (C25): the copy of line 2 is not needed for this
    loop, and nothing breaks if the page's markup gives the panels more
    classes. *)

From stdpp Require Import base list gmap strings.
From S2P Require Import Prelude Js Dom Actions.

Local Open Scope string_scope.
Local Open Scope js_scope.

Section live.
Implicit Types (w : W) (r : ref).

(** The members of the class [action], read from the document. *)
Definition members w : list ref := filter (has_class "action" w) (w_order w).

(** The loop body at index [i], reading the live collection each time. *)
Fixpoint live_loop (fuel i : nat) (exceptId : string) : JS W unit :=
  match fuel with
  | 0 => js_ret tt
  | S fuel' =>
      coll <- getElementsByClassName "action" ;;
      match coll !! i with
      | None => js_ret tt
      | Some r =>
          id <- get_id r ;;
          (if id !== exceptId then set_display r "none" else js_ret tt) ;;
          live_loop fuel' (S i) exceptId
      end
  end.

Definition hideAllOtherActions_live (exceptId : string) : JS W unit :=
  fun w => live_loop (length (w_order w)) 0 exceptId w.

Lemma members_set_display v r w :
  members (alter_element (set_el_display v) r w) = members w.
Proof. by apply class_members_alter. Qed.

Lemma id_of_set_display_any v r w r' :
  id_of (alter_element (set_el_display v) r w) r' = id_of w r'.
Proof. by apply id_of_alter. Qed.

Lemma live_loop_nil n i x w :
  members w !! i = None -> live_loop n i x w = (w, Normal tt).
Proof.
  intros Hi. destruct n as [|n]; [done |]. cbn [live_loop].
  unfold getElementsByClassName. rewrite js_bind_gets. fold (members w). by rewrite Hi.
Qed.

(** With fuel for the rest of the collection, the live loop hides the
    members from index [i] on whose ID is not [x]. *)
Lemma live_loop_run n i x w :
  length (members w) <= i + n ->
  live_loop n i x w =
    (set_display_all "none" (filter (fun r => id_of w r <> x) (drop i (members w))) w, Normal tt).
Proof.
  revert i w. induction n as [|n IH]; intros i w Hn.
  - rewrite drop_ge by lia. done.
  - destruct (members w !! i) as [r|] eqn:Hi.
    2:{ rewrite live_loop_nil by done. apply lookup_ge_None in Hi. by rewrite drop_ge. }
    cbn [live_loop]. unfold getElementsByClassName. rewrite js_bind_gets.
    fold (members w). rewrite Hi. cbv beta iota. unfold get_id. rewrite js_bind_gets.
    rewrite (drop_S _ _ _ Hi), filter_cons.
    unfold js_streq. case_bool_decide as Hid; cbn [negb].
    + rewrite js_bind_ret_l, decide_False by congruence. apply IH. lia.
    + unfold set_display. rewrite js_bind_modify, decide_True by done.
      rewrite IH by (rewrite members_set_display; lia).
      rewrite members_set_display.
      rewrite (filter_agree _ (fun r => id_of w r <> x))
        by (intros r' _; by rewrite id_of_set_display_any).
      done.
Qed.

(** C25: the loop of lines 2-4 over its array copy and the loop over the
    live collection give the same world and completion on every
    document. *)
Theorem hideAllOtherActions_live_equiv x w :
  hideAllOtherActions_live x w = hideAllOtherActions x w.
Proof.
  unfold hideAllOtherActions_live. rewrite hideAllOtherActions_run, live_loop_run.
  - done.
  - pose proof (length_filter (has_class "action" w) (w_order w)). unfold members. lia.
Qed.
End live.
