(* ===== verification/Page.v ===== *)
(** * The page: registrations and clicks as a transition system

    The program runs inside a page: the page's script calls
    [registerShowActionOnClick] for its (button, panel) pairs, then the
    event loop dispatches the user's clicks one at a time, each to run to
    completion (spec, section 5).  [page_step] is that transition system;
    [run_events] runs a finite sequence of events and collects the
    exceptions the host reports.  The invariants here are proved by
    induction on reachability ([rtc page_step]).  [dyn_step] adds the
    host's insertion of new elements ([Mutation.append_child]) between
    the program's steps, for the claims on a changing document, and
    [call_step] adds the page's own direct calls of [hideAllOtherActions]
    and [toggleActionVisibility].  [safe_step] is a page that registers
    triggers only for panels in the document; under it no click throws. *)

From stdpp Require Import base list gmap strings relations.
From S2P Require Import Prelude Js Dom Mutation Actions.

Local Open Scope string_scope.
Local Open Scope js_scope.

Inductive event :=
| Register (buttonId actionId : string)
| Click (r : ref).

Definition errors_of (c : completion unit) : list JsError :=
  match c with Normal _ => [] | Abrupt e => [e] end.

Definition run_event (ev : event) (w : W) : W * list JsError :=
  match ev with
  | Register b a => let '(w', c) := registerShowActionOnClick b a w in (w', errors_of c)
  | Click r => click r w
  end.

Fixpoint run_events (evs : list event) (w : W) : W * list JsError :=
  match evs with
  | [] => (w, [])
  | ev :: evs' =>
      let '(w1, e1) := run_event ev w in
      let '(w2, e2) := run_events evs' w1 in
      (w2, (e1 ++ e2)%list)
  end.

Inductive page_step : W -> W -> Prop :=
| page_register b a w : page_step w (exec (registerShowActionOnClick b a) w)
| page_click r w : page_step w (fst (click r w)).

(** The page together with the host's insertions of new elements
    ([Mutation.append_child]), each one respecting [insert_ok] and not a
    shown panel. *)
Inductive dyn_step : W -> W -> Prop :=
| dyn_page w w' : page_step w w' -> dyn_step w w'
| dyn_insert par e w :
    insert_ok par e w -> ~ ("action" ∈ el_classes e /\ el_display e = "block") ->
    dyn_step w (exec (append_child par e) w).

(** The page calling the entry points itself (spec, section 6): a step
    of [page_step], or a direct call of [hideAllOtherActions] or
    [toggleActionVisibility], the kind of call an initialization script
    makes to set up which panel is shown. *)
Inductive call_step : W -> W -> Prop :=
| call_page w w' : page_step w w' -> call_step w w'
| call_hide x w : call_step w (exec (hideAllOtherActions x) w)
| call_toggle a w : call_step w (exec (toggleActionVisibility a) w).

(** The page that registers a trigger only for a panel in the document:
    registrations whose [actionId] an element has, clicks, the host's
    insertions, and direct calls of the other two entry points. *)
Inductive safe_step : W -> W -> Prop :=
| safe_register b a w :
    is_Some (element_by_id w a) -> safe_step w (exec (registerShowActionOnClick b a) w)
| safe_click d w : safe_step w (fst (click d w))
| safe_insert par e w : insert_ok par e w -> safe_step w (exec (append_child par e) w)
| safe_hide x w : safe_step w (exec (hideAllOtherActions x) w)
| safe_toggle a w : safe_step w (exec (toggleActionVisibility a) w).

(** Every listener's panel is in the document. *)
Definition targets_exist (w : W) : Prop :=
  listeners_Forall (fun l => is_Some (element_by_id w (listener_target l))) w.

(** The panels a user sees: elements of class [action] displayed as ["block"]. *)
Definition visible_actions (w : W) : list ref :=
  filter (fun r => has_class "action" w r /\ display_of w r = "block") (w_order w).

Definition at_most_one_visible (w : W) : Prop := length (visible_actions w) <= 1.

#[export] Instance at_most_one_visible_dec w : Decision (at_most_one_visible w).
Proof. unfold at_most_one_visible. apply _. Defined.

Section runs.
Implicit Types (w : W).

Lemma run_event_step ev w : page_step w (fst (run_event ev w)).
Proof.
  destruct ev as [b a|r]; simpl; [| constructor].
  pose proof (page_register b a w) as H. unfold exec in H.
  by destruct (registerShowActionOnClick b a w).
Qed.

Lemma run_events_reachable evs w : rtc page_step w (fst (run_events evs w)).
Proof.
  revert w. induction evs as [|ev evs IH]; intros w; simpl; [done |].
  pose proof (run_event_step ev w) as Hs.
  destruct (run_event ev w) as [w1 e1]. specialize (IH w1).
  destruct (run_events evs w1) as [w2 e2]. simpl in *. by eapply rtc_l.
Qed.

Lemma run_event_errors ev w : Forall (eq null_style_error) (snd (run_event ev w)).
Proof.
  destruct ev as [b a|r]; cbn [run_event].
  - rewrite registerShowActionOnClick_run. constructor.
  - rewrite click_reported_errors. apply Forall_fmap, Forall_true. done.
Qed.
End runs.

(** ** What one run of the listener keeps *)

Section listener_invariants.
Implicit Types (w : W) (r t : ref).

(** A panel visible after the listener is the target, or, when the
    target is missing, was visible before. *)
Lemma visible_after_listener a w z :
  dom_wf w -> z ∈ w_order w -> has_class "action" w z ->
  display_of (exec (show_action_listener a) w) z = "block" ->
  match element_by_id w a with
  | Some t => z = t
  | None => display_of w z = "block"
  end.
Proof.
  intros Hwf Hz Hc Hd. rewrite show_action_listener_display in Hd.
  destruct (element_by_id w a) as [t|] eqn:Ht.
  - case_decide as H1; [done |]. case_decide as H2; [discriminate |].
    rewrite elem_of_others_of in H2.
    eapply element_by_id_unique; [done | done | done |].
    destruct (decide (id_of w z = a)); [done |]. naive_solver.
  - case_decide; [discriminate | done].
Qed.

Lemma visible_actions_NoDup w : dom_wf w -> NoDup (visible_actions w).
Proof. intros Hwf. apply NoDup_filter, Hwf. Qed.

Lemma at_most_one_visible_iff w :
  dom_wf w ->
  at_most_one_visible w <-> forall x y, x ∈ visible_actions w -> y ∈ visible_actions w -> x = y.
Proof. intros Hwf. by apply length_le_1_iff, visible_actions_NoDup. Qed.

Lemma elem_of_visible_actions w x :
  x ∈ visible_actions w <-> x ∈ w_order w /\ has_class "action" w x /\ display_of w x = "block".
Proof. unfold visible_actions. rewrite list_elem_of_filter. tauto. Qed.

(** A panel visible after the listener is its target, or, without a
    target, a panel visible before. *)
Lemma visible_after_listener_elem a w x :
  dom_wf w -> x ∈ visible_actions (exec (show_action_listener a) w) ->
  match element_by_id w a with
  | Some t => x = t
  | None => x ∈ visible_actions w
  end.
Proof.
  intros Hwf Hx. pose proof (show_action_listener_frame a w) as (Ho & _ & Hr & _).
  apply elem_of_visible_actions in Hx as (Hx & Hc & Hd). rewrite Ho in Hx.
  apply (proj1 (proj2 (Hr x)) "action") in Hc.
  pose proof (visible_after_listener a w x Hwf Hx Hc Hd) as V.
  destruct (element_by_id w a); [done |]. by apply elem_of_visible_actions.
Qed.

Lemma at_most_one_visible_listener a w :
  dom_wf w -> at_most_one_visible w -> at_most_one_visible (exec (show_action_listener a) w).
Proof.
  intros Hwf Hvis. rewrite at_most_one_visible_iff in Hvis |- * by (by rewrite ?dom_wf_show_action_listener).
  intros x y Hx%visible_after_listener_elem Hy%visible_after_listener_elem; try done.
  destruct (element_by_id w a); [congruence | by apply Hvis].
Qed.

(** The listener with a target restores the exclusion, whatever was
    visible before. *)
Lemma listener_restores_exclusion a w :
  dom_wf w -> is_Some (element_by_id w a) -> at_most_one_visible (exec (show_action_listener a) w).
Proof.
  intros Hwf [t Ht]. rewrite at_most_one_visible_iff by (by rewrite dom_wf_show_action_listener).
  intros x y Hx%visible_after_listener_elem Hy%visible_after_listener_elem; try done.
  rewrite Ht in Hx, Hy. congruence.
Qed.

Lemma fn_ids_below_listener a w :
  fn_ids_below (exec (show_action_listener a) w) <-> fn_ids_below w.
Proof. apply show_action_listener_preserves, fn_ids_below_set_display_all. Qed.

(** The listener writes ["none"] or ["block"] and nothing else. *)
Lemma listener_display_values a w r :
  display_of (exec (show_action_listener a) w) r = display_of w r \/
  display_of (exec (show_action_listener a) w) r = "block" \/
  display_of (exec (show_action_listener a) w) r = "none".
Proof.
  rewrite show_action_listener_display. unfold toggle_display.
  destruct (element_by_id w a); repeat case_decide; try destruct (_ === _); auto.
Qed.

(** A click runs the program's listener once per registration on its
    event path. *)
Lemma click_ind (P : W -> W -> Prop) r :
  (forall a w0 w, P w0 w -> P w0 (exec (show_action_listener a) w)) ->
  forall w, P w w -> P w (fst (click r w)).
Proof.
  intros Hstep w Hw. unfold click, dispatch.
  apply dispatch_path_ind; [| done].
  intros w0 w' [a] Hw'. by apply Hstep.
Qed.

#[export] Instance at_most_one_visible_proper : Proper (doc_equiv ==> iff) at_most_one_visible.
Proof.
  intros w1 w2 Hw. unfold at_most_one_visible, visible_actions. rewrite (proj1 Hw).
  rewrite (filter_agree _ (fun r => has_class "action" w2 r /\ display_of w2 r = "block")); [done |].
  intros r _. by rewrite (has_class_proper "action" w1 w2 Hw r r eq_refl),
    (display_of_proper w1 w2 Hw r r eq_refl).
Qed.
End listener_invariants.

(** ** Invariants of the page *)

Section page_invariants.
Implicit Types (w : W).

Lemma page_step_wf w w' :
  page_step w w' -> dom_wf w /\ fn_ids_below w -> dom_wf w' /\ fn_ids_below w'.
Proof.
  intros [b a w0|r w0] [Hwf Hfn].
  - split; [by rewrite register_doc_equiv | by apply fn_ids_below_register].
  - apply (click_ind (fun _ w => dom_wf w /\ fn_ids_below w)); [| done].
    intros a _ w1 [H1 H2]. by rewrite dom_wf_show_action_listener, fn_ids_below_listener.
Qed.

Lemma page_step_at_most_one w w' :
  page_step w w' -> dom_wf w /\ at_most_one_visible w -> dom_wf w' /\ at_most_one_visible w'.
Proof.
  intros [b a w0|r w0] [Hwf Hvis].
  - by rewrite register_doc_equiv.
  - apply (click_ind (fun _ w => dom_wf w /\ at_most_one_visible w)); [| done].
    intros a _ w1 [H1 H2]. rewrite dom_wf_show_action_listener.
    split; [done |]. by apply at_most_one_visible_listener.
Qed.

(** An insertion that is not a shown panel makes no panel visible. *)
Lemma at_most_one_visible_append_child par e w :
  dom_wf w -> insert_ok par e w -> ~ ("action" ∈ el_classes e /\ el_display e = "block") ->
  at_most_one_visible w -> at_most_one_visible (exec (append_child par e) w).
Proof.
  intros Hwf Hok Hnot Hvis.
  rewrite at_most_one_visible_iff in Hvis |- * by first [done | by apply dom_wf_append_child].
  assert (Hold : forall x, x ∈ visible_actions (exec (append_child par e) w) -> x ∈ visible_actions w).
  { intros x (Hx & Hc & Hd)%elem_of_visible_actions.
    apply (elem_of_append_child_order w par e Hok) in Hx as [-> | Hx].
    - rewrite has_class_append_child_new in Hc. rewrite display_of_append_child_new in Hd.
      by destruct Hnot.
    - unfold has_class in Hc. rewrite (append_child_lookup_in w par e) in Hc by done.
      rewrite (display_of_append_child w par e) in Hd by done.
      by apply elem_of_visible_actions. }
  intros x y Hx Hy. apply Hvis; by apply Hold.
Qed.

Lemma dyn_step_inv w w' :
  dyn_step w w' ->
  dom_wf w /\ fn_ids_below w /\ at_most_one_visible w ->
  dom_wf w' /\ fn_ids_below w' /\ at_most_one_visible w'.
Proof.
  intros [w0 w1 Hs | par e w0 Hok Hnot] (Hwf & Hfn & Hvis).
  - destruct (page_step_wf w0 w1 Hs (conj Hwf Hfn)) as [Hwf1 Hfn1].
    destruct (page_step_at_most_one w0 w1 Hs (conj Hwf Hvis)) as [_ Hvis1]. done.
  - split_and!; [by apply dom_wf_append_child | by apply fn_ids_below_append_child |].
    by apply at_most_one_visible_append_child.
Qed.

(** The program's listeners keep the exclusion, in any number. *)
Lemma invoke_listeners_at_most_one ls w :
  dom_wf w /\ at_most_one_visible w ->
  dom_wf (fst (invoke_listeners ls w)) /\ at_most_one_visible (fst (invoke_listeners ls w)).
Proof.
  intros H. apply (invoke_listeners_ind (fun _ w => dom_wf w /\ at_most_one_visible w) ls) with (w0 := w);
    [| exact H].
  intros _ w' [a] [H1 H2]. change (invoke_closure (ShowActionOnClick a)) with (show_action_listener a).
  split; [by rewrite dom_wf_show_action_listener | by apply at_most_one_visible_listener].
Qed.

Lemma wf_set_display_all v l w :
  dom_wf (set_display_all v l w) /\ fn_ids_below (set_display_all v l w) <->
  dom_wf w /\ fn_ids_below w.
Proof. by autorewrite with mimir_rw. Qed.

Lemma call_step_wf w w' :
  call_step w w' -> dom_wf w /\ fn_ids_below w -> dom_wf w' /\ fn_ids_below w'.
Proof.
  intros [w0 w1 Hs | x w0 | a w0] H.
  - by apply (page_step_wf w0 w1).
  - apply (hideAllOtherActions_preserves (fun w => dom_wf w /\ fn_ids_below w));
      [intros; apply wf_set_display_all | exact H].
  - apply (toggleActionVisibility_preserves (fun w => dom_wf w /\ fn_ids_below w));
      [intros; apply wf_set_display_all | exact H].
Qed.

Lemma rtc_call_step_wf w0 w :
  dom_wf w0 -> fn_ids_below w0 -> rtc call_step w0 w -> dom_wf w /\ fn_ids_below w.
Proof.
  intros Hwf Hfn Hr. induction Hr as [w|w1 w2 w3 Hs _ IH]; [done |].
  destruct (call_step_wf w1 w2 Hs (conj Hwf Hfn)). by apply IH.
Qed.

(** After [hideAllOtherActions x] a visible panel has the ID [x]. *)
Lemma visible_after_hide x w z :
  z ∈ visible_actions (exec (hideAllOtherActions x) w) -> z ∈ w_order w /\ id_of w z = x.
Proof.
  unfold exec. rewrite hideAllOtherActions_run. cbn [fst].
  destruct (set_display_all_frame "none" (others_of x w) w) as (Ho & _ & _ & Hcl).
  intros (Hz & Hc & Hd)%elem_of_visible_actions. rewrite Ho in Hz. apply Hcl in Hc.
  rewrite display_of_set_display_all in Hd. split; [done |].
  pose proof (has_class_is_Some _ _ _ Hc). pose proof (elem_of_others_of x w z).
  destruct (decide (id_of w z = x)); [done |]. rewrite decide_True in Hd by naive_solver. done.
Qed.

(** A click whose first listener has a target leaves at most one panel
    visible, from any well-formed document. *)
Lemma click_first_listener_exclusion w d l ls :
  dom_wf w -> path_listeners "click" w d = l :: ls ->
  is_Some (element_by_id w (listener_target l)) ->
  dom_wf (fst (click d w)) /\ at_most_one_visible (fst (click d w)).
Proof.
  intros Hwf Hl Ht. rewrite (click_listeners d w _ Hl), invoke_listeners_cons.
  set (w1 := exec (show_action_listener (listener_target l)) w).
  pose proof (invoke_listeners_at_most_one ls w1) as Hind.
  destruct (invoke_listeners ls w1) as [w2 errs]. cbn [fst] in *. apply Hind. unfold w1. split.
  - by rewrite dom_wf_show_action_listener.
  - by apply listener_restores_exclusion.
Qed.

Lemma rtc_page_step_preserves (I : W -> Prop) w0 w :
  (forall w w', page_step w w' -> I w -> I w') -> I w0 -> rtc page_step w0 w -> I w.
Proof. intros Hstep H0 Hr. induction Hr; eauto. Qed.
(** A trigger registered on [rb], then an insertion: a click at [d]
    under [rb], whose path had no listener, runs the new trigger alone. *)
Lemma path_listeners_register_insert w b a rb d par e :
  dom_wf w -> fn_ids_below w -> element_by_id w b = Some rb -> d ∈ w_order w ->
  rb ∈ event_path w d -> path_listeners "click" w d = [] ->
  insert_ok par e (exec (registerShowActionOnClick b a) w) ->
  path_listeners "click" (exec (append_child par e) (exec (registerShowActionOnClick b a) w)) d =
    [show_listener (w_next_fn w) a].
Proof.
  intros Hwf Hfn Hb Hd Hin Hnone Hok1.
  pose proof (register_doc_equiv b a w) as Hdoc.
  assert (Hwf1 : dom_wf (exec (registerShowActionOnClick b a) w)) by (by rewrite Hdoc).
  rewrite (path_listeners_append_child _ par e Hwf1 Hok1) by (by rewrite (proj1 Hdoc)).
  unfold path_listeners in Hnone. rewrite concat_map_nil in Hnone.
  rewrite (path_listeners_register b a w rb d), Hnone; try done; [apply Hwf |].
  intros n Hn _. by apply Hnone.
Qed.

(** A step that keeps every lookup that finds an element and keeps
    every property of all listeners keeps [targets_exist]. *)
Lemma targets_exist_transfer w w' :
  (forall id, is_Some (element_by_id w id) -> element_by_id w' id = element_by_id w id) ->
  (forall P, listeners_Forall P w -> listeners_Forall P w') ->
  targets_exist w -> targets_exist w'.
Proof.
  intros Hid HP Ht. apply HP in Ht. eapply listeners_Forall_impl; [| exact Ht].
  intros l Hl. by rewrite Hid.
Qed.

Lemma listeners_Forall_click P d w : listeners_Forall P w -> listeners_Forall P (fst (click d w)).
Proof.
  apply (click_ind (fun _ w => listeners_Forall P w)).
  intros a _ w0 H. apply show_action_listener_preserves; [| done].
  intros. apply listeners_Forall_set_display_all.
Qed.

Lemma safe_inv_register b a w :
  is_Some (element_by_id w a) -> fn_ids_below w -> targets_exist w ->
  targets_exist (exec (registerShowActionOnClick b a) w).
Proof.
  intros Ha Hfn Ht. pose proof (register_doc_equiv b a w) as Hdoc.
  assert (Hid : forall id, element_by_id (exec (registerShowActionOnClick b a) w) id = element_by_id w id)
    by (intros id; by rewrite Hdoc).
  destruct (element_by_id w b) as [rb|] eqn:Hb.
  - unfold targets_exist. rewrite (registerShowActionOnClick_found b a w rb Hfn Hb) in Hid |- *.
    apply listeners_Forall_add; [by rewrite Hid |].
    eapply listeners_Forall_impl; [| exact Ht]. intros l Hl. by rewrite Hid.
  - unfold exec. by rewrite registerShowActionOnClick_run, Hb.
Qed.

Lemma safe_step_inv w w' :
  safe_step w w' -> fn_ids_below w /\ targets_exist w -> fn_ids_below w' /\ targets_exist w'.
Proof.
  intros [b a w0 Ha | d w0 | par e w0 Hok | x w0 | a w0] [Hfn Ht].
  - split; [by apply fn_ids_below_register | by apply safe_inv_register].
  - split; [apply (click_ind (fun _ w => fn_ids_below w)); [| done];
              intros a _ w1 H; by rewrite fn_ids_below_listener |].
    apply (targets_exist_transfer w0); [| intros P; apply listeners_Forall_click | done].
    intros id _. apply element_by_id_click.
  - split; [by apply (fn_ids_below_append_child w0 par e Hok) |].
    apply (targets_exist_transfer w0); [| intros P; apply (listeners_Forall_append_child w0 par e Hok) | done].
    intros id Hs. apply (element_by_id_append_child w0 par e Hok). intros ->.
    destruct Hs as [t Hs]. destruct Hok as (_ & _ & [He | He]); [| congruence].
    rewrite He in Hs. unfold element_by_id in Hs. by rewrite js_streq_refl in Hs.
  - split; [by rewrite hideAllOtherActions_preserves by apply fn_ids_below_set_display_all |].
    apply (targets_exist_transfer w0); [| intros P; rewrite hideAllOtherActions_preserves; [done |];
      intros; apply listeners_Forall_set_display_all | done].
    intros id _. apply hideAllOtherActions_preserves; [| done].
    intros. by rewrite element_by_id_set_display_all.
  - split; [by rewrite toggleActionVisibility_preserves by apply fn_ids_below_set_display_all |].
    apply (targets_exist_transfer w0); [| intros P; rewrite toggleActionVisibility_preserves; [done |];
      intros; apply listeners_Forall_set_display_all | done].
    intros id _. apply toggleActionVisibility_preserves; [| done].
    intros. by rewrite element_by_id_set_display_all.
Qed.

(** Under [targets_exist], a click reports no exception. *)
Lemma click_no_error d w : targets_exist w -> snd (click d w) = [].
Proof.
  intros Ht. rewrite click_reported_errors.
  rewrite (filter_all_false _ (path_listeners "click" w d)); [done |].
  pose proof (listeners_Forall_path _ "click" w d Ht) as Hp. rewrite Forall_forall in Hp.
  intros l Hl Hn. destruct (Hp l Hl) as [? Hs]. congruence.
Qed.

End page_invariants.

(** ** Properties of the page *)

Section page_properties.
Implicit Types (w : W).

(** C1: the mutual exclusion the program exists for.  In a well-formed
    document where at most one panel of class [action] is visible, every
    state the page reaches by registrations and clicks still has at most
    one visible panel, whatever was registered and clicked, exceptions
    included. *)
Theorem reachable_at_most_one_visible w0 w :
  dom_wf w0 -> at_most_one_visible w0 -> rtc page_step w0 w -> at_most_one_visible w.
Proof.
  intros Hwf Hvis Hr.
  apply (rtc_page_step_preserves (fun w => dom_wf w /\ at_most_one_visible w) w0 w);
    [apply page_step_at_most_one | done | done].
Qed.

(** The values a registration or a click writes to a display. *)
Lemma page_step_displays w w' r :
  page_step w w' ->
  display_of w' r = display_of w r \/ display_of w' r = "block" \/ display_of w' r = "none".
Proof.
  intros [b a w0|r' w0].
  - left. by rewrite register_doc_equiv.
  - apply (click_ind (fun w0 w => display_of w r = display_of w0 r \/
                                 display_of w r = "block" \/ display_of w r = "none"));
      [| by left].
    intros a w1 w2 H. destruct (listener_display_values a w2 r) as [->|?]; auto.
Qed.

(** The spec's scenario.  Panels [p1], [p2] hidden, triggers
    [b1] -> [p1] and [b2] -> [p2] registered; click [b1]: [p1] shown;
    click [b2]: [p2] shown and [p1] hidden; click [b2] again: both hidden;
    no exception on the way. *)
Example spec_scenario :
  let setup := [Register "b1" "p1"; Register "b2" "p2"] in
  let shown evs := map (display_of (fst (run_events evs demo_world))) [3; 4] in
  shown (setup ++ [Click 1])%list = ["block"; "none"] /\
  shown (setup ++ [Click 1; Click 2])%list = ["none"; "block"] /\
  shown (setup ++ [Click 1; Click 2; Click 2])%list = ["none"; "none"] /\
  snd (run_events (setup ++ [Click 1; Click 2; Click 2])%list demo_world) = [].
Proof. vm_compute. split_and!; reflexivity. Qed.

(** C19: the only exception a page ever reports is the [TypeError] of
    line 9, the read of [style] on the [null] that [getElementById]
    returns for a missing panel: a registration never throws (its guard
    at line 14), and every exception of a click is a listener's. *)
Theorem run_events_errors evs w : Forall (eq null_style_error) (snd (run_events evs w)).
Proof.
  revert w. induction evs as [|ev evs IH]; intros w; cbn [run_events]; [constructor |].
  pose proof (run_event_errors ev w) as He.
  destruct (run_event ev w) as [w1 e1]. specialize (IH w1).
  destruct (run_events evs w1) as [w2 e2]. cbn [snd] in *. by apply Forall_app.
Qed.

(** C20: a click restores the mutual exclusion from any well-formed
    state.  When the first listener on the click's event path has a
    target, at most one panel is visible after the click, however many
    were visible before (after a panel was inserted shown, say): the
    first listener hides every panel but its target, and the later ones
    keep the exclusion. *)
Theorem click_restores_exclusion w d l ls :
  dom_wf w -> path_listeners "click" w d = l :: ls ->
  is_Some (element_by_id w (listener_target l)) ->
  at_most_one_visible (fst (click d w)).
Proof.
  intros Hwf Hl Ht. by apply (click_first_listener_exclusion w d l ls).
Qed.

(** C21: the program queries the document on each call (spec,
    section 9).  Register a trigger [b] for the panel [a], then let the
    page insert a new panel anywhere in the document, shown: the next
    click on the button or inside it hides the new panel, although it did
    not exist when the trigger was registered. *)
Theorem inserted_panel_hidden_by_click w b a rb t d par e :
  dom_wf w -> fn_ids_below w ->
  element_by_id w b = Some rb -> d ∈ w_order w -> rb ∈ event_path w d ->
  path_listeners "click" w d = [] -> element_by_id w a = Some t ->
  insert_ok par e w -> "action" ∈ el_classes e ->
  let w1 := exec (registerShowActionOnClick b a) w in
  match append_child par e w1 with
  | (w2, Normal r) => display_of (fst (click d w2)) r = "none"
  | (_, Abrupt _) => False
  end.
Proof.
  intros Hwf Hfn Hb Hd Hin Hnone Ht Hok Hcl w1.
  pose proof (register_doc_equiv b a w) as Hdoc. fold w1 in Hdoc.
  assert (Hwf1 : dom_wf w1) by (by rewrite Hdoc).
  assert (Hok1 : insert_ok par e w1) by (by rewrite Hdoc).
  assert (Ht1 : element_by_id w1 a = Some t) by (by rewrite Hdoc).
  assert (Hd1 : d ∈ w_order w1) by (by rewrite (proj1 Hdoc)).
  assert (Hida : a <> el_id e).
  { intros ->. destruct Hok1 as (_ & _ & [He | He]); [| congruence].
    apply element_by_id_Some in Ht1 as (_ & _ & _ & Hne). congruence. }
  change (append_child par e w1)
    with (pair (exec (append_child par e) w1) (Normal (fresh_ref w1))).
  cbv beta iota.
  set (w2 := exec (append_child par e) w1).
  rewrite (click_listeners d w2 [show_listener (w_next_fn w) a])
    by (by apply (path_listeners_register_insert w b a rb d par e)).
  rewrite invoke_show_listener. cbn [invoke_listeners fst].
  rewrite show_action_listener_display.
  unfold w2. rewrite (element_by_id_append_child w1 par e Hok1) by done. rewrite Ht1.
  apply element_by_id_Some in Ht1 as (Hto & _).
  rewrite decide_False by (apply not_eq_sym, fresh_ref_ne, Hto).
  rewrite decide_True; [done |]. apply elem_of_others_of. split_and!.
  - apply (elem_of_append_child_order w1 par e Hok1). by left.
  - by apply has_class_append_child_new.
  - by rewrite id_of_append_child_new.
Qed.

(** C22: the listener looks its panel up when it runs, not when it is
    registered (line 19 calls [getElementById] on each click).  Register
    a trigger [b] for an ID [a] that no element has yet, then let the
    page insert an element with that ID, not shown: the next click on the
    button or inside it reports no exception, shows the new element and
    hides every other panel. *)
Theorem late_panel_shown_by_click w b a rb d par e :
  dom_wf w -> fn_ids_below w ->
  element_by_id w b = Some rb -> d ∈ w_order w -> rb ∈ event_path w d ->
  path_listeners "click" w d = [] ->
  insert_ok par e w -> el_id e = a -> a <> "" -> el_display e <> "block" ->
  let w1 := exec (registerShowActionOnClick b a) w in
  match append_child par e w1 with
  | (w2, Normal r) =>
      let '(w3, errs) := click d w2 in
      errs = [] /\ display_of w3 r = "block" /\
      (forall x, x ∈ w_order w2 -> has_class "action" w2 x -> x <> r -> display_of w3 x = "none")
  | (_, Abrupt _) => False
  end.
Proof.
  intros Hwf Hfn Hb Hd Hin Hnone Hok Hid Ha Hdisp w1.
  pose proof (register_doc_equiv b a w) as Hdoc. fold w1 in Hdoc.
  assert (Hok1 : insert_ok par e w1) by (by rewrite Hdoc).
  assert (Hwf2 : dom_wf (exec (append_child par e) w1))
    by (apply dom_wf_append_child; [by rewrite Hdoc | done]).
  change (append_child par e w1)
    with (pair (exec (append_child par e) w1) (Normal (fresh_ref w1))).
  cbv beta iota.
  set (w2 := exec (append_child par e) w1) in *.
  assert (Ht : element_by_id w2 a = Some (fresh_ref w1))
    by (subst a; by apply element_by_id_append_child_new).
  rewrite (click_listeners d w2 [show_listener (w_next_fn w) a])
    by (by apply (path_listeners_register_insert w b a rb d par e)).
  rewrite invoke_show_listener. cbn [invoke_listeners].
  assert (Hc : snd (show_action_listener a w2) = Normal tt)
    by (by rewrite (show_action_listener_found a w2 _ Ht)).
  rewrite Hc. split_and!; [done | |].
  - rewrite show_action_listener_display, Ht, decide_True by done.
    unfold w2. rewrite display_of_append_child_new by done.
    unfold toggle_display. case_streq (el_display e) "block"; congruence.
  - intros x Hx Hcl Hne. rewrite show_action_listener_display, Ht, decide_False by done.
    rewrite decide_True; [done |]. apply elem_of_others_of. split_and!; [done | done |].
    intros Hxa. apply Hne. by eapply element_by_id_unique.
Qed.

(** C23: mutual exclusion with a changing document.  From a well-formed
    document with at most one visible panel, every state reached by
    registrations, clicks and the host's insertion of new elements (with
    an empty or new ID, under a parent in the document, not a shown
    panel) is well-formed, has every listener's function object
    allocated, and has at most one visible panel. *)
Theorem dyn_reachable_exclusion w0 w :
  dom_wf w0 -> fn_ids_below w0 -> at_most_one_visible w0 -> rtc dyn_step w0 w ->
  dom_wf w /\ fn_ids_below w /\ at_most_one_visible w.
Proof.
  intros Hwf Hfn Hvis Hr. induction Hr as [w|w1 w2 w3 Hs _ IH]; [done |].
  destruct (dyn_step_inv w1 w2 Hs (conj Hwf (conj Hfn Hvis))) as (H1 & H2 & H3).
  by apply IH.
Qed.

(** C28: a direct call of [hideAllOtherActions x] for a non-empty [x]
    leaves at most one panel visible, whatever was visible before: only
    the element with the ID [x] may stay shown. *)
Theorem hideAllOtherActions_restores_exclusion x w :
  dom_wf w -> x <> "" -> at_most_one_visible (exec (hideAllOtherActions x) w).
Proof.
  intros Hwf Hx.
  rewrite at_most_one_visible_iff
    by (apply (hideAllOtherActions_preserves dom_wf); [intros; apply dom_wf_set_display_all | done]).
  intros y z [Hy Hidy]%visible_after_hide [Hz Hidz]%visible_after_hide.
  eapply ids_unique_spec; [done | done | done | congruence | congruence].
Qed.

(** C29: the page's initialization and its event loop composed.  Whatever
    the page's script does first (registrations, clicks, direct calls of
    the entry points, possibly leaving several panels shown), once the
    user clicks an element whose event path starts with a trigger for an
    existing panel, at most one panel is visible, and it stays so through
    every later registration and click. *)
Theorem init_then_click_exclusion w0 w1 d l ls w :
  dom_wf w0 -> fn_ids_below w0 -> rtc call_step w0 w1 ->
  path_listeners "click" w1 d = l :: ls -> is_Some (element_by_id w1 (listener_target l)) ->
  rtc page_step (fst (click d w1)) w -> at_most_one_visible w.
Proof.
  intros Hwf Hfn Hinit Hl Ht Hr.
  destruct (rtc_call_step_wf w0 w1 Hwf Hfn Hinit) as [Hwf1 _].
  pose proof (click_first_listener_exclusion w1 d l ls Hwf1 Hl Ht) as H2.
  apply (rtc_page_step_preserves (fun w => dom_wf w /\ at_most_one_visible w) (fst (click d w1)) w);
    [apply page_step_at_most_one | done | done].
Qed.

(** C31: the outputs of every entry point (spec, section 6).  Whether the
    page calls [hideAllOtherActions] or [toggleActionVisibility] itself,
    registers a trigger, or a click runs the listeners, every display
    either keeps its value or ends as ["block"] or ["none"]. *)
Theorem call_step_display_values w w' r :
  call_step w w' ->
  display_of w' r = display_of w r \/ display_of w' r = "block" \/ display_of w' r = "none".
Proof.
  intros [w0 w1 Hs | x w0 | a w0]; [by apply page_step_displays | |].
  - unfold exec. rewrite hideAllOtherActions_run. cbn [fst].
    rewrite display_of_set_display_all. case_decide; auto.
  - unfold exec. rewrite toggleActionVisibility_run.
    destruct (element_by_id w0 a) as [t|]; cbn [fst]; [| auto].
    rewrite display_of_set. case_decide; [| auto].
    unfold toggle_display. destruct (_ === _); auto.
Qed.

(** C24: a page that registers triggers only for panels in the document
    never sees an exception.  From a document where every listener's
    panel exists, along any run of registrations whose [actionId] an
    element has, clicks, insertions and direct calls, every click reports
    no exception: the only one the program throws (line 9) needs a
    missing panel, and no step removes an element or changes an ID. *)
Theorem safe_page_click_no_error w0 w d :
  fn_ids_below w0 -> targets_exist w0 -> rtc safe_step w0 w -> snd (click d w) = [].
Proof.
  intros Hfn Ht Hr. apply click_no_error.
  cut (fn_ids_below w /\ targets_exist w); [tauto |].
  revert Hfn Ht. induction Hr as [w|w1 w2 w3 Hs _ IH]; intros Hfn Ht; [done |].
  apply IH; apply (safe_step_inv w1 w2 Hs); done.
Qed.
End page_properties.

Definition demo_events : list event :=
  [Register "b1" "p1"; Register "b2" "p2"; Click 1; Click 2; Click 2; Click 1].

Lemma reachable_at_most_one_visible_witness :
  dom_wf demo_world /\ at_most_one_visible demo_world /\
  rtc page_step demo_world (fst (run_events demo_events demo_world)) /\
  at_most_one_visible (fst (run_events demo_events demo_world)).
Proof.
  assert (Hwf : dom_wf demo_world) by decide_by_eval.
  assert (Hvis : at_most_one_visible demo_world) by decide_by_eval.
  pose proof (run_events_reachable demo_events demo_world) as Hr.
  split_and!; [exact Hwf | exact Hvis | exact Hr |].
  exact (reachable_at_most_one_visible _ _ Hwf Hvis Hr).
Defined.

(** Without unique IDs the exclusion fails: two panels share the ID [p1],
    one visible; the trigger of [p1] toggles the first and exempts both
    from hiding, so two panels end up visible.  The hypothesis [dom_wf]
    of C1 cannot be dropped. *)
Definition demo_duplicate_ids : W :=
  mkWorld (list_to_map [(1, demo_element "b1" [] "");
                        (2, demo_element "p1" ["action"] "none");
                        (3, demo_element "p1" ["action"] "block")])
          [1; 2; 3] ∅ 0.

Example duplicate_ids_break_exclusion :
  at_most_one_visible demo_duplicate_ids /\ ~ dom_wf demo_duplicate_ids /\
  visible_actions (fst (run_events [Register "b1" "p1"; Click 1] demo_duplicate_ids)) = [2; 3].
Proof. split_and!; [decide_by_eval | decide_by_eval | reflexivity]. Qed.

(** A panel [p3] the page adds later, shown, under the panel [p2]. *)
Definition demo_new_panel (display : string) : Element Closure :=
  demo_element "p3" ["action"] display.

Definition demo_registered : W := exec (registerShowActionOnClick "b1" "p1") demo_world.

Lemma inserted_panel_hidden_by_click_witness :
  dom_wf demo_world /\ fn_ids_below demo_world /\ element_by_id demo_world "b1" = Some 1 /\
  5 ∈ w_order demo_world /\ 1 ∈ event_path demo_world 5 /\
  path_listeners "click" demo_world 5 = [] /\ element_by_id demo_world "p1" = Some 3 /\
  insert_ok 4 (demo_new_panel "block") demo_world /\ "action" ∈ el_classes (demo_new_panel "block") /\
  display_of (fst (click 5 (exec (append_child 4 (demo_new_panel "block")) demo_registered)))
    (fresh_ref demo_registered) = "none".
Proof.
  assert (Hwf : dom_wf demo_world) by decide_by_eval.
  assert (Hfn : fn_ids_below demo_world) by decide_by_eval.
  assert (Hb : element_by_id demo_world "b1" = Some 1) by reflexivity.
  assert (Hd : 5 ∈ w_order demo_world) by decide_by_eval.
  assert (Hin : 1 ∈ event_path demo_world 5) by decide_by_eval.
  assert (Hn : path_listeners "click" demo_world 5 = []) by reflexivity.
  assert (Ht : element_by_id demo_world "p1" = Some 3) by reflexivity.
  assert (Hok : insert_ok 4 (demo_new_panel "block") demo_world) by decide_by_eval.
  assert (Hc : "action" ∈ el_classes (demo_new_panel "block")) by decide_by_eval.
  pose proof (inserted_panel_hidden_by_click demo_world "b1" "p1" 1 3 5 4 (demo_new_panel "block")
                Hwf Hfn Hb Hd Hin Hn Ht Hok Hc) as H.
  split_and!; assumption.
Defined.

Lemma late_panel_shown_by_click_witness :
  dom_wf demo_world /\ fn_ids_below demo_world /\ element_by_id demo_world "b1" = Some 1 /\
  5 ∈ w_order demo_world /\ 1 ∈ event_path demo_world 5 /\
  path_listeners "click" demo_world 5 = [] /\ insert_ok 4 (demo_new_panel "none") demo_world /\
  el_id (demo_new_panel "none") = "p3" /\ "p3" <> "" /\ el_display (demo_new_panel "none") <> "block" /\
  let w1 := exec (registerShowActionOnClick "b1" "p3") demo_world in
  match append_child 4 (demo_new_panel "none") w1 with
  | (w2, Normal r) =>
      let '(w3, errs) := click 5 w2 in
      errs = [] /\ display_of w3 r = "block" /\
      (forall x, x ∈ w_order w2 -> has_class "action" w2 x -> x <> r -> display_of w3 x = "none")
  | (_, Abrupt _) => False
  end.
Proof.
  assert (Hwf : dom_wf demo_world) by decide_by_eval.
  assert (Hfn : fn_ids_below demo_world) by decide_by_eval.
  assert (Hb : element_by_id demo_world "b1" = Some 1) by reflexivity.
  assert (Hd : 5 ∈ w_order demo_world) by decide_by_eval.
  assert (Hin : 1 ∈ event_path demo_world 5) by decide_by_eval.
  assert (Hn : path_listeners "click" demo_world 5 = []) by reflexivity.
  assert (Hok : insert_ok 4 (demo_new_panel "none") demo_world) by decide_by_eval.
  assert (Hid : el_id (demo_new_panel "none") = "p3") by reflexivity.
  assert (Ha : "p3" <> "") by discriminate.
  assert (Hdisp : el_display (demo_new_panel "none") <> "block") by discriminate.
  pose proof (late_panel_shown_by_click demo_world "b1" "p3" 1 5 4 (demo_new_panel "none")
                Hwf Hfn Hb Hd Hin Hn Hok Hid Ha Hdisp) as H.
  split_and!; assumption.
Defined.

(** The document of the spec's scenario after the page showed [p1] and
    inserted [p3] shown: two panels are visible. *)
Definition demo_two_shown : W :=
  exec (append_child 4 (demo_new_panel "block")) (fst (click 5 demo_registered)).

Lemma click_restores_exclusion_witness :
  dom_wf demo_two_shown /\
  path_listeners "click" demo_two_shown 5 = [show_listener 0 "p1"] /\
  is_Some (element_by_id demo_two_shown (listener_target (show_listener 0 "p1"))) /\
  at_most_one_visible (fst (click 5 demo_two_shown)).
Proof.
  assert (Hwf : dom_wf demo_two_shown) by decide_by_eval.
  assert (Hl : path_listeners "click" demo_two_shown 5 = [show_listener 0 "p1"]) by reflexivity.
  assert (Ht : is_Some (element_by_id demo_two_shown (listener_target (show_listener 0 "p1"))))
    by (eexists; reflexivity).
  split_and!; [exact Hwf | exact Hl | exact Ht |].
  exact (click_restores_exclusion demo_two_shown 5 _ [] Hwf Hl Ht).
Defined.

(** Inserting a shown panel is the one way the exclusion breaks: after
    [p1] was shown, the page inserts [p3] shown, and two panels are
    visible until the next click restores the exclusion (C20). *)
Example inserted_shown_panel_breaks_exclusion :
  at_most_one_visible (fst (click 5 demo_registered)) /\
  length (visible_actions demo_two_shown) = 2 /\
  at_most_one_visible (fst (click 5 demo_two_shown)).
Proof. split_and!; [decide_by_eval | reflexivity | decide_by_eval]. Qed.

Lemma dyn_reachable_exclusion_witness :
  let w := fst (click 5 (exec (append_child 4 (demo_new_panel "none")) demo_registered)) in
  dom_wf demo_world /\ fn_ids_below demo_world /\ at_most_one_visible demo_world /\
  rtc dyn_step demo_world w /\ at_most_one_visible w.
Proof.
  intros w.
  assert (Hwf : dom_wf demo_world) by decide_by_eval.
  assert (Hfn : fn_ids_below demo_world) by decide_by_eval.
  assert (Hvis : at_most_one_visible demo_world) by decide_by_eval.
  assert (Hr : rtc dyn_step demo_world w).
  { eapply rtc_l; [apply dyn_page; apply (page_register "b1" "p1") |].
    eapply rtc_l; [apply (dyn_insert 4 (demo_new_panel "none")); decide_by_eval |].
    eapply rtc_l; [apply dyn_page; apply (page_click 5) | apply rtc_refl]. }
  split_and!; try assumption.
  exact (proj2 (proj2 (dyn_reachable_exclusion demo_world w Hwf Hfn Hvis Hr))).
Defined.

(** An initialization script that shows both panels directly, then
    registers the trigger [b1] -> [p1]. *)
Definition demo_initialized : W :=
  exec (registerShowActionOnClick "b1" "p1")
    (exec (toggleActionVisibility "p2") (exec (toggleActionVisibility "p1") demo_world)).

Lemma demo_initialized_run : rtc call_step demo_world demo_initialized.
Proof.
  eapply rtc_l; [apply (call_toggle "p1") |].
  eapply rtc_l; [apply (call_toggle "p2") |].
  eapply rtc_l; [apply call_page, (page_register "b1" "p1") | apply rtc_refl].
Qed.

Lemma hideAllOtherActions_restores_exclusion_witness :
  dom_wf demo_initialized /\ "p2" <> "" /\ ~ at_most_one_visible demo_initialized /\
  at_most_one_visible (exec (hideAllOtherActions "p2") demo_initialized).
Proof.
  assert (Hwf : dom_wf demo_initialized) by decide_by_eval.
  assert (Hx : "p2" <> "") by discriminate.
  split_and!; [exact Hwf | exact Hx | decide_by_eval |].
  exact (hideAllOtherActions_restores_exclusion "p2" _ Hwf Hx).
Defined.

Lemma init_then_click_exclusion_witness :
  dom_wf demo_world /\ fn_ids_below demo_world /\ rtc call_step demo_world demo_initialized /\
  path_listeners "click" demo_initialized 5 = [show_listener 0 "p1"] /\
  is_Some (element_by_id demo_initialized (listener_target (show_listener 0 "p1"))) /\
  at_most_one_visible (fst (click 5 demo_initialized)).
Proof.
  assert (Hwf : dom_wf demo_world) by decide_by_eval.
  assert (Hfn : fn_ids_below demo_world) by decide_by_eval.
  pose proof demo_initialized_run as Hr.
  assert (Hl : path_listeners "click" demo_initialized 5 = [show_listener 0 "p1"]) by reflexivity.
  assert (Ht : is_Some (element_by_id demo_initialized (listener_target (show_listener 0 "p1"))))
    by (eexists; reflexivity).
  split_and!; [exact Hwf | exact Hfn | exact Hr | exact Hl | exact Ht |].
  exact (init_then_click_exclusion demo_world demo_initialized 5 _ [] _ Hwf Hfn Hr Hl Ht
           (rtc_refl _ _)).
Defined.

(** The direct call of [toggleActionVisibility] is the entry point that
    breaks the exclusion: after the trigger showed [p1], the page's own
    call [toggleActionVisibility("p2")] shows [p2] beside it. *)
Example direct_toggle_breaks_exclusion :
  let w := fst (click 5 demo_registered) in
  dom_wf w /\ at_most_one_visible w /\ ~ at_most_one_visible (exec (toggleActionVisibility "p2") w).
Proof. split_and!; decide_by_eval. Qed.

Lemma call_step_display_values_witness :
  call_step demo_world (exec (toggleActionVisibility "p1") demo_world) /\
  (display_of (exec (toggleActionVisibility "p1") demo_world) 3 = display_of demo_world 3 \/
   display_of (exec (toggleActionVisibility "p1") demo_world) 3 = "block" \/
   display_of (exec (toggleActionVisibility "p1") demo_world) 3 = "none").
Proof.
  assert (Hs : call_step demo_world (exec (toggleActionVisibility "p1") demo_world))
    by apply call_toggle.
  split; [exact Hs | exact (call_step_display_values _ _ 3 Hs)].
Defined.

Lemma safe_page_click_no_error_witness :
  let w := fst (click 5 (exec (append_child 4 (demo_new_panel "block")) demo_registered)) in
  fn_ids_below demo_world /\ targets_exist demo_world /\ rtc safe_step demo_world w /\
  snd (click 1 w) = [].
Proof.
  intros w.
  assert (Hfn : fn_ids_below demo_world) by decide_by_eval.
  assert (Ht : targets_exist demo_world) by decide_by_eval.
  assert (Hr : rtc safe_step demo_world w).
  { eapply rtc_l; [apply (safe_register "b1" "p1"); decide_by_eval |].
    eapply rtc_l; [apply (safe_insert 4 (demo_new_panel "block")); decide_by_eval |].
    eapply rtc_l; [apply (safe_click 5) | apply rtc_refl]. }
  split_and!; [exact Hfn | exact Ht | exact Hr | exact (safe_page_click_no_error _ _ 1 Hfn Ht Hr)].
Defined.
