(* ===== verification/PanelSpec.v ===== *)
(** * The panels' contract, and the refinement of a click

    What the spec promises of the program, stated without a DOM: the
    action panels are a list of (ID, shown) pairs in page order, and the
    trigger of panel [a] flips [a] and hides every other panel
    ([PanelSpec.show_exclusive]); with distinct IDs at most one panel is
    shown afterwards ([PanelSpec.show_exclusive_exclusive]).

    [panels_of] abstracts a document to its panels: the elements of class
    [action] in tree order, each shown when its display is ["block"].  A
    click does to [panels_of] what [show_exclusive] does, once per
    listener on its event path and in dispatch order; [show_exclusive] is
    [PanelSpec.hide_others] then [PanelSpec.toggle], and each direct call
    of the two functions refines its half.  The contract as a labelled
    machine ([PanelSpec.step]) also keeps the registration table and has
    panels coming in ([PanelSpec.add_panel]); [abs] maps a document to its
    state, and every labelled run of the page ([page_lsteps]) ends in the
    contract's state after the same labels, up to [≡]. *)

From stdpp Require Import base list strings relations.
From S2P Require Import Prelude Js Dom Mutation Actions Page.

Local Open Scope string_scope.
Local Open Scope js_scope.

Module PanelSpec.

Record panel := mkPanel { panel_id : string; panel_shown : bool }.

Definition show_exclusive (a : string) (ps : list panel) : list panel :=
  map (fun p => mkPanel (panel_id p)
                        (if decide (panel_id p = a) then negb (panel_shown p) else false)) ps.

(** [hide_others a]: every panel whose ID is not [a] is hidden. *)
Definition hide_others (a : string) (ps : list panel) : list panel :=
  map (fun p => mkPanel (panel_id p) (if decide (panel_id p = a) then panel_shown p else false)) ps.

(** [toggle a]: the panels with ID [a] are flipped. *)
Definition toggle (a : string) (ps : list panel) : list panel :=
  map (fun p => mkPanel (panel_id p)
                        (if decide (panel_id p = a) then negb (panel_shown p) else panel_shown p)) ps.

(** The trigger's contract is the composition of the two operations, in
    the listener's order. *)
Lemma show_exclusive_decompose a ps : show_exclusive a ps = toggle a (hide_others a ps).
Proof.
  unfold show_exclusive, toggle, hide_others. rewrite map_map.
  apply map_ext. intros [i b]. simpl. by case_decide.
Qed.

(** A new panel [p] comes into the page at position [i]. *)
Definition add_panel (i : nat) (p : panel) (ps : list panel) : list panel :=
  take i ps ++ p :: drop i ps.

Definition shown_panels (ps : list panel) : list panel :=
  filter (fun p => panel_shown p = true) ps.

Lemma show_exclusive_ids a ps : map panel_id (show_exclusive a ps) = map panel_id ps.
Proof. unfold show_exclusive. rewrite map_map. done. Qed.

Lemma show_exclusive_exclusive a ps :
  NoDup (map panel_id ps) -> length (shown_panels (show_exclusive a ps)) <= 1.
Proof.
  intros Hnd. rewrite <- (show_exclusive_ids a) in Hnd.
  unfold shown_panels. apply length_filter_le_1; [by eapply NoDup_map_inv' |].
  intros x y Hx Hy Sx Sy. eapply NoDup_map_eq; [exact Hnd | done | done |].
  unfold show_exclusive in Hx, Hy.
  apply list_elem_of_In, in_map_iff in Hx as (x' & <- & _), Hy as (y' & <- & _).
  simpl in *. do 2 case_decide; simplify_eq/=; congruence.
Qed.

(** *** The contract as a labelled machine

    Its state is the panels and the registration table: for each node,
    the actions its triggers show, in registration order.  A label is
    what the page does, with what the host answers: the node
    [getElementById(buttonId)] finds, the event path of a click, the
    place among the panels of an inserted element and the panel it is
    (none when it is not of class [action]). *)
Record state := mkState { st_panels : list panel; st_table : ref -> list string }.

Inductive label :=
| LRegister (button : option ref) (actionId : string)
| LClick (path : list ref)
| LInsert (i : nat) (p : option panel)
| LHide (x : string)
| LToggle (a : string).

(** A trigger for [a] registered on [rb], after those it has. *)
Definition register_at (rb : ref) (a : string) (t : ref -> list string) : ref -> list string :=
  fun n => if decide (n = rb) then (t n ++ [a])%list else t n.

(** The actions a click along [path] shows, in dispatch order. *)
Definition path_targets (t : ref -> list string) (path : list ref) : list string :=
  concat (map t path).

Definition step (l : label) (s : state) : state :=
  match l with
  | LRegister (Some rb) a => mkState (st_panels s) (register_at rb a (st_table s))
  | LRegister None _ => s
  | LClick path =>
      mkState (foldl (fun ps a => show_exclusive a ps) (st_panels s) (path_targets (st_table s) path))
              (st_table s)
  | LInsert i (Some p) => mkState (add_panel i p (st_panels s)) (st_table s)
  | LInsert _ None => s
  | LHide x => mkState (hide_others x (st_panels s)) (st_table s)
  | LToggle a => mkState (toggle a (st_panels s)) (st_table s)
  end.

Definition run (ls : list label) (s : state) : state := foldl (fun s l => step l s) s ls.

End PanelSpec.

(** ** The contract's states up to their tables' extension *)

(** Two states are the same contract state when their panels are equal
    and their tables agree on every node. *)
#[export] Instance state_equiv : Equiv PanelSpec.state := fun s1 s2 =>
  PanelSpec.st_panels s1 = PanelSpec.st_panels s2 /\ forall n, PanelSpec.st_table s1 n = PanelSpec.st_table s2 n.

#[export] Instance state_equiv_equivalence : Equivalence (≡@{PanelSpec.state}).
Proof.
  split.
  - intros s. by split.
  - intros s1 s2 [Hp Ht]. split; [done | intros n; by rewrite Ht].
  - intros s1 s2 s3 [Hp1 Ht1] [Hp2 Ht2]. split; [congruence | intros n; by rewrite Ht1, Ht2].
Qed.

#[export] Instance step_proper l : Proper ((≡) ==> (≡)) (PanelSpec.step l).
Proof.
  intros [ps1 t1] [ps2 t2] [Hp Ht]; simpl in *; subst ps2.
  assert (Hpath : forall path, PanelSpec.path_targets t1 path = PanelSpec.path_targets t2 path).
  { intros path. unfold PanelSpec.path_targets. f_equal. by apply map_ext. }
  destruct l as [[rb|] a|path|i [p|]|x|a]; split; simpl; rewrite ?Hpath; try done.
  intros n. unfold PanelSpec.register_at. by rewrite Ht.
Qed.

#[export] Instance run_proper ls : Proper ((≡) ==> (≡)) (PanelSpec.run ls).
Proof.
  induction ls as [|l ls IH]; intros s1 s2 Hs; [done |]. simpl. apply IH. by rewrite Hs.
Qed.

(** ** The abstraction of a document *)

Definition panels_of (w : W) : list PanelSpec.panel :=
  map (fun r => PanelSpec.mkPanel (id_of w r) (display_of w r === "block"))
      (filter (has_class "action" w) (w_order w)).

(** The position among the panels of a new last child of [par]: the
    number of panels before it in tree order. *)
Definition panel_position (w : W) (par : ref) : nat :=
  length (filter (has_class "action" w) (take (child_position w par) (w_order w))).

(** The actions the click listeners of a list show, in order. *)
Definition listener_targets (ls : list (Listener Closure)) : list string :=
  map listener_target ls.

Section refinement.
Implicit Types (w : W) (r t : ref).

Lemma toggle_display_block d : (toggle_display d === "block") = negb (d === "block").
Proof. unfold toggle_display. by destruct (d === "block"). Qed.

(** A direct call of [hideAllOtherActions x] is the contract's
    [hide_others x], for every [x] and every document. *)
Lemma panels_of_hide x w :
  panels_of (exec (hideAllOtherActions x) w) = PanelSpec.hide_others x (panels_of w).
Proof.
  unfold exec. rewrite hideAllOtherActions_run. cbn [fst].
  destruct (set_display_all_frame "none" (others_of x w) w) as (Ho & _ & Hid & Hcl).
  unfold panels_of, PanelSpec.hide_others. rewrite map_map, Ho.
  rewrite (filter_agree (has_class "action" (set_display_all _ _ w)) (has_class "action" w))
    by (intros r _; apply Hcl).
  apply map_ext_in. intros r Hin. apply list_elem_of_In, list_elem_of_filter in Hin as [Hc Hin].
  cbn [PanelSpec.panel_id PanelSpec.panel_shown]. rewrite Hid. f_equal.
  rewrite display_of_set_display_all.
  pose proof (elem_of_others_of x w r). pose proof (has_class_is_Some _ _ _ Hc).
  repeat case_decide; first [reflexivity | naive_solver].
Qed.

(** A direct call of [toggleActionVisibility a] for a non-empty [a] is
    the contract's [toggle a] on a well-formed document, the error path
    of a missing element included. *)
Lemma panels_of_toggle a w :
  dom_wf w -> a <> "" ->
  panels_of (exec (toggleActionVisibility a) w) = PanelSpec.toggle a (panels_of w).
Proof.
  intros Hwf Ha. unfold exec. rewrite toggleActionVisibility_run.
  unfold panels_of, PanelSpec.toggle. rewrite map_map.
  destruct (element_by_id w a) as [t|] eqn:Ht; cbn [fst].
  - change (w_order (alter_element ?f t w)) with (w_order w).
    rewrite (filter_agree (has_class "action" (alter_element _ t w)) (has_class "action" w))
      by (intros r _; apply has_class_set_display).
    apply map_ext_in. intros r Hin. apply list_elem_of_In, list_elem_of_filter in Hin as [Hc Hin].
    cbn [PanelSpec.panel_id PanelSpec.panel_shown]. rewrite id_of_set_display. f_equal.
    rewrite display_of_set. destruct (decide (r = t)) as [->|Hne].
    + apply element_by_id_Some in Ht as (_ & Hs & Hid & _).
      rewrite !decide_True by done. apply toggle_display_block.
    + rewrite decide_False by naive_solver. rewrite decide_False; [done |].
      intros Hid. apply Hne. by eapply element_by_id_unique.
  - apply map_ext_in. intros r Hin. apply list_elem_of_In, list_elem_of_filter in Hin as [Hc Hin].
    cbn [PanelSpec.panel_id PanelSpec.panel_shown]. rewrite decide_False; [done |].
    eapply element_by_id_None; [done | done | by eapply has_class_is_Some | done].
Qed.

(** One run of the listener implements [show_exclusive]: it hides, then
    toggles, and the contract composes the same two operations. *)
Lemma show_action_listener_refines a w :
  dom_wf w -> a <> "" ->
  panels_of (exec (show_action_listener a) w) = PanelSpec.show_exclusive a (panels_of w).
Proof.
  intros Hwf Ha.
  rewrite show_action_listener_exec, panels_of_toggle, panels_of_hide,
    PanelSpec.show_exclusive_decompose; [done | | done].
  by rewrite hideAllOtherActions_preserves by apply dom_wf_set_display_all.
Qed.

Lemma invoke_listeners_fst l ls w :
  fst (invoke_listeners (l :: ls) w) =
  fst (invoke_listeners ls (exec (run_closure (fn_closure (l_fn l))) w)).
Proof.
  cbn [invoke_listeners]. unfold exec.
  change (invoke_closure (fn_closure (l_fn l))) with (run_closure (fn_closure (l_fn l))).
  destruct (run_closure (fn_closure (l_fn l)) w) as [w1 c]. cbn [fst].
  by destruct (invoke_listeners ls w1).
Qed.

(** A click, the listeners of its event path in turn, each one a
    [show_exclusive] of the contract. *)
Lemma click_panels_foldl r w :
  dom_wf w -> Forall (fun a => a <> "") (listener_targets (path_listeners "click" w r)) ->
  panels_of (fst (click r w)) =
    foldl (fun ps a => PanelSpec.show_exclusive a ps) (panels_of w)
          (listener_targets (path_listeners "click" w r)).
Proof.
  intros Hwf Hne. rewrite click_flat. revert Hne.
  generalize (path_listeners "click" w r) as ls. intros ls. revert w Hwf.
  induction ls as [|l ls IH]; intros w Hwf Hne; [done |].
  rewrite invoke_listeners_fst. destruct l as [ty [n [a]]].
  cbn [listener_targets listener_target map fn_closure l_fn] in Hne |- *.
  apply Forall_cons in Hne as [Ha Hne]. cbn [foldl run_closure].
  rewrite IH; [| by rewrite dom_wf_show_action_listener | done].
  by rewrite show_action_listener_refines.
Qed.

(** C4: a click refines the contract.  On a well-formed document, a
    click whose event path (the target, then its ancestors) carries
    click listeners targeting non-empty IDs [a1 ... an] (in dispatch
    order) changes the panels as [show_exclusive a1], ...,
    [show_exclusive an] do, on every path, the error path of a missing
    target included. *)
Theorem click_refines r w :
  dom_wf w -> Forall (fun a => a <> "") (listener_targets (path_listeners "click" w r)) ->
  panels_of (fst (click r w)) =
    foldl (fun ps a => PanelSpec.show_exclusive a ps) (panels_of w)
          (listener_targets (path_listeners "click" w r)).
Proof. apply click_panels_foldl. Qed.
End refinement.

(** ** Refinement of the page's direct calls *)

Section direct_calls.
Implicit Types (w : W).

(** C26: a direct call of [hideAllOtherActions x] (lines 1-5) refines the
    contract's [hide_others x]: on every document and for every [x], the
    empty string included, the panels whose ID is not [x] end hidden and
    the others keep their state. *)
Theorem hideAllOtherActions_refines x w :
  panels_of (exec (hideAllOtherActions x) w) = PanelSpec.hide_others x (panels_of w).
Proof. apply panels_of_hide. Qed.

(** C27: a direct call of [toggleActionVisibility a] (lines 7-10) for a
    non-empty [a] refines the contract's [toggle a] on a well-formed
    document: the panel with ID [a], if there is one, is flipped, and
    nothing else changes, also when no element has the ID and the call
    throws. *)
Theorem toggleActionVisibility_refines a w :
  dom_wf w -> a <> "" ->
  panels_of (exec (toggleActionVisibility a) w) = PanelSpec.toggle a (panels_of w).
Proof. apply panels_of_toggle. Qed.
End direct_calls.

Lemma toggleActionVisibility_refines_witness :
  dom_wf demo_world /\ "p2" <> "" /\
  panels_of (exec (toggleActionVisibility "p2") demo_world) =
    PanelSpec.toggle "p2" (panels_of demo_world).
Proof.
  assert (Hwf : dom_wf demo_world) by decide_by_eval.
  assert (Ha : "p2" <> "") by discriminate.
  split_and!; [exact Hwf | exact Ha | exact (toggleActionVisibility_refines "p2" demo_world Hwf Ha)].
Defined.

(** ** Refinement of an insertion *)

Section insertion.
Implicit Types (w : W).

(** What an insertion does to the panels. *)
Lemma panels_of_append_child w par e :
  insert_ok par e w ->
  panels_of (exec (append_child par e) w) =
    if decide ("action" ∈ el_classes e)
    then PanelSpec.add_panel (panel_position w par)
           (PanelSpec.mkPanel (el_id e) (el_display e === "block")) (panels_of w)
    else panels_of w.
Proof.
  intros Hok. unfold panels_of, panel_position. rewrite append_child_order by done.
  rewrite filter_insert_at.
  rewrite (filter_class_append_child w par e "action" (w_order w)) by done.
  rewrite (filter_class_append_child w par e "action" (take _ _))
    by (intros n Hn; by apply (subseteq_take (child_position w par))).
  assert (Hmap : forall l, (forall n, n ∈ l -> n ∈ w_order w) ->
    map (fun r => PanelSpec.mkPanel (id_of (exec (append_child par e) w) r)
                    (display_of (exec (append_child par e) w) r === "block")) l =
    map (fun r => PanelSpec.mkPanel (id_of w r) (display_of w r === "block")) l).
  { intros l Hl. apply map_ext_in. intros n Hn%list_elem_of_In.
    by rewrite id_of_append_child, display_of_append_child by auto. }
  destruct (decide ("action" ∈ el_classes e)) as [Hc|Hc].
  - rewrite decide_True by (by apply has_class_append_child_new).
    rewrite map_insert_at, id_of_append_child_new, display_of_append_child_new.
    rewrite Hmap by (intros n Hn%list_elem_of_filter; apply Hn). done.
  - rewrite decide_False by (by rewrite has_class_append_child_new).
    apply Hmap. intros n Hn%list_elem_of_filter. apply Hn.
Qed.

End insertion.

(** ** Refinement of whole runs

    The page's steps carry the labels of the contract's machine: a
    registration the node its [buttonId] resolves to, a click its event
    path, an insertion the place and the panel of the new element.  On
    every such run the document's panels and its click listeners'
    targets are the contract's state after the same labels. *)

(** Every listener of the page targets a non-empty ID. *)
Definition targets_named (w : W) : Prop := listeners_Forall (fun l => listener_target l <> "") w.

(** The registration table of a document: the targets of each node's
    click listeners, in their order. *)
Definition table_of (w : W) (n : ref) : list string := listener_targets (listeners_of "click" w n).

Definition abs (w : W) : PanelSpec.state := PanelSpec.mkState (panels_of w) (table_of w).

(** The label of an insertion: the place of the new element among the
    panels, and the panel it is when it has the class [action]. *)
Definition insert_label (w : W) (par : ref) (e : Element Closure) : PanelSpec.label :=
  PanelSpec.LInsert (panel_position w par)
    (if decide ("action" ∈ el_classes e)
     then Some (PanelSpec.mkPanel (el_id e) (el_display e === "block")) else None).

(** The page's steps with their labels: registrations for non-empty IDs,
    clicks, the host's insertions, and the page's direct calls of the
    other two entry points, toggling a non-empty ID. *)
Inductive page_lstep : W -> PanelSpec.label -> W -> Prop :=
| lstep_register b a w : a <> "" ->
    page_lstep w (PanelSpec.LRegister (element_by_id w b) a) (exec (registerShowActionOnClick b a) w)
| lstep_click d w : page_lstep w (PanelSpec.LClick (event_path w d)) (fst (click d w))
| lstep_insert par e w : insert_ok par e w ->
    page_lstep w (insert_label w par e) (exec (append_child par e) w)
| lstep_hide x w : page_lstep w (PanelSpec.LHide x) (exec (hideAllOtherActions x) w)
| lstep_toggle a w : a <> "" ->
    page_lstep w (PanelSpec.LToggle a) (exec (toggleActionVisibility a) w).

(** A run of the page and the sequence of its labels. *)
Inductive page_lsteps : W -> list PanelSpec.label -> W -> Prop :=
| lsteps_nil w : page_lsteps w [] w
| lsteps_cons w l w1 ls w2 : page_lstep w l w1 -> page_lsteps w1 ls w2 -> page_lsteps w (l :: ls) w2.

Section runs.
Implicit Types (w : W).

#[export] Instance panels_of_proper : Proper (doc_equiv ==> eq) panels_of.
Proof.
  intros w1 w2 Hw. unfold panels_of. rewrite (proj1 Hw).
  rewrite (filter_agree (has_class "action" w1) (has_class "action" w2))
    by (intros r _; by apply has_class_proper).
  apply map_ext. intros r.
  by rewrite (id_of_proper w1 w2 Hw r r eq_refl), (display_of_proper w1 w2 Hw r r eq_refl).
Qed.

Lemma targets_named_listener a w :
  targets_named (exec (show_action_listener a) w) <-> targets_named w.
Proof. apply show_action_listener_preserves. intros. apply listeners_Forall_set_display_all. Qed.

Lemma targets_named_register b a w :
  a <> "" -> fn_ids_below w -> targets_named w ->
  targets_named (exec (registerShowActionOnClick b a) w).
Proof.
  intros Ha Hfn Hn. destruct (element_by_id w b) as [rb|] eqn:Hb.
  - rewrite (registerShowActionOnClick_found b a w rb Hfn Hb). by apply listeners_Forall_add.
  - unfold exec. by rewrite registerShowActionOnClick_run, Hb.
Qed.

Lemma targets_named_click_targets w r :
  targets_named w -> Forall (fun a => a <> "") (listener_targets (path_listeners "click" w r)).
Proof. intros Hn. apply Forall_map. by apply listeners_Forall_path. Qed.

(** The page invariants the refinement runs under. *)
Definition run_inv w : Prop := dom_wf w /\ fn_ids_below w /\ targets_named w.

Lemma run_inv_click r w : run_inv w -> run_inv (fst (click r w)).
Proof.
  intros Hinv. apply (click_ind (fun _ w => run_inv w)); [| done].
  intros a _ w1 (H1 & H2 & H3). split_and!.
  - by rewrite dom_wf_show_action_listener.
  - by rewrite fn_ids_below_listener.
  - by rewrite targets_named_listener.
Qed.

Lemma run_inv_register b a w :
  a <> "" -> run_inv w -> run_inv (exec (registerShowActionOnClick b a) w).
Proof.
  intros Ha (H1 & H2 & H3). split_and!;
    [by rewrite register_doc_equiv | by apply fn_ids_below_register | by apply targets_named_register].
Qed.

Lemma run_inv_append_child par e w :
  insert_ok par e w -> run_inv w -> run_inv (exec (append_child par e) w).
Proof.
  intros Hok (H1 & H2 & H3). split_and!; unfold targets_named in *; eauto with mimir.
Qed.

Lemma run_inv_set_display_all v l w : run_inv (set_display_all v l w) <-> run_inv w.
Proof.
  unfold run_inv, targets_named. by autorewrite with mimir_rw.
Qed.

(** What each step does to the registration table. *)
Lemma table_of_click r w n : table_of (fst (click r w)) n = table_of w n.
Proof.
  apply (click_ind (fun w0 w1 => table_of w1 n = table_of w0 n)); [| done].
  intros a w0 w1 H. unfold table_of in *. by rewrite listeners_of_show_action_listener.
Qed.

Lemma table_of_register b a w rb n :
  fn_ids_below w -> element_by_id w b = Some rb ->
  table_of (exec (registerShowActionOnClick b a) w) n = PanelSpec.register_at rb a (table_of w) n.
Proof.
  intros Hfn Hb. unfold table_of, PanelSpec.register_at. case_decide as Hn.
  - subst n. rewrite listeners_of_register_same by done.
    unfold listener_targets. by rewrite map_app.
  - by rewrite (listeners_of_register_other b a w rb) by done.
Qed.

Lemma table_of_append_child par e w n :
  insert_ok par e w -> table_of (exec (append_child par e) w) n = table_of w n.
Proof.
  intros (_ & Hl & _). unfold table_of, listeners_of. f_equal.
  destruct (decide (n = fresh_ref w)) as [->|Hn].
  - rewrite (append_child_lookup_new w par e), fresh_ref_heap. simpl. by rewrite Hl.
  - by rewrite (append_child_lookup_ne w par e).
Qed.

Lemma table_of_set_display_all v l w n : table_of (set_display_all v l w) n = table_of w n.
Proof. unfold table_of. by rewrite listeners_of_set_display_all. Qed.

Lemma path_targets_table_of w d :
  PanelSpec.path_targets (table_of w) (event_path w d) = listener_targets (path_listeners "click" w d).
Proof.
  unfold PanelSpec.path_targets, table_of, listener_targets, path_listeners.
  by rewrite concat_map, map_map.
Qed.

(** One labelled step of the page is the contract's step of its label,
    and keeps the invariants. *)
Lemma page_lstep_sim w l w' :
  page_lstep w l w' -> run_inv w -> run_inv w' /\ abs w' ≡ PanelSpec.step l (abs w).
Proof.
  intros [b a w0 Ha | d w0 | par e w0 Hok | x w0 | a w0 Ha] Hinv.
  - split; [by apply run_inv_register |].
    destruct (element_by_id w0 b) as [rb|] eqn:Hb; split; simpl.
    + by rewrite (panels_of_proper _ _ (register_doc_equiv b a w0)).
    + intros n. apply table_of_register; [apply Hinv | done].
    + by rewrite (panels_of_proper _ _ (register_doc_equiv b a w0)).
    + intros n. unfold exec. by rewrite registerShowActionOnClick_run, Hb.
  - split; [by apply run_inv_click |]. destruct Hinv as (H1 & H2 & H3). split; simpl.
    + rewrite path_targets_table_of. by apply click_panels_foldl, targets_named_click_targets.
    + intros n. apply table_of_click.
  - split; [by apply run_inv_append_child |].
    pose proof (panels_of_append_child w0 par e Hok) as Hp. unfold insert_label.
    case_decide; (split; [simpl; by rewrite Hp | intros n; by apply table_of_append_child]).
  - split; [by rewrite hideAllOtherActions_preserves by apply run_inv_set_display_all |].
    split; simpl; [apply panels_of_hide |].
    intros n. apply (hideAllOtherActions_preserves (fun w => table_of w n = table_of w0 n));
      [intros; by rewrite table_of_set_display_all | done].
  - split; [by rewrite toggleActionVisibility_preserves by apply run_inv_set_display_all |].
    split; simpl; [apply panels_of_toggle; [apply Hinv | done] |].
    intros n. apply (toggleActionVisibility_preserves (fun w => table_of w n = table_of w0 n));
      [intros; by rewrite table_of_set_display_all | done].
Qed.

Lemma page_lsteps_sim w0 ls w :
  page_lsteps w0 ls w -> run_inv w0 -> abs w ≡ PanelSpec.run ls (abs w0).
Proof.
  induction 1 as [w | w l w1 ls w2 Hs _ IH]; intros Hinv; [done |].
  destruct (page_lstep_sim w l w1 Hs Hinv) as [Hinv1 Hsim].
  simpl. rewrite <- Hsim. by apply IH.
Qed.

(** C5: whole runs refine the contract's machine, exactly.  From a
    well-formed document whose listeners target non-empty IDs, after any
    run of registrations for non-empty IDs, clicks, insertions of new
    elements and direct calls of [hideAllOtherActions] and
    [toggleActionVisibility], the panels and the targets of every node's
    click listeners are the contract's state after the run's labels: a
    registration appends its [actionId] to the table of the node its
    [buttonId] resolves to (and does nothing when there is none), a click
    is one [show_exclusive] per registration on its event path in
    dispatch order, an insertion adds its panel, and the direct calls are
    [hide_others] and [toggle]. *)
Theorem labelled_runs_refine w0 ls w :
  run_inv w0 -> page_lsteps w0 ls w -> abs w ≡ PanelSpec.run ls (abs w0).
Proof. intros Hinv Hr. by apply (page_lsteps_sim w0 ls w). Qed.

End runs.

Lemma click_refines_witness :
  let w := exec (registerShowActionOnClick "b1" "p1") demo_world in
  dom_wf w /\ Forall (fun a => a <> "") (listener_targets (listeners_of "click" w 1)) /\
  panels_of (fst (click 1 w)) =
    [PanelSpec.mkPanel "p1" true; PanelSpec.mkPanel "p2" false].
Proof.
  intros w.
  assert (Hwf : dom_wf w) by decide_by_eval.
  assert (Hne : Forall (fun a => a <> "") (listener_targets (listeners_of "click" w 1)))
    by decide_by_eval.
  split_and!; [exact Hwf | exact Hne |].
  rewrite (click_refines 1 w Hwf Hne). vm_compute. reflexivity.
Defined.


(** A run of the demo page: the trigger [b1] -> [p1] registered, a panel
    [p3] inserted shown inside [p2], a click on the label inside [b1],
    and a direct toggle of [p2]. *)
Definition demo_inserted : W := exec (append_child 4 (demo_new_panel "block")) demo_registered.

Definition demo_labelled_run : W :=
  exec (toggleActionVisibility "p2") (fst (click 5 demo_inserted)).

Definition demo_labels : list PanelSpec.label :=
  [PanelSpec.LRegister (element_by_id demo_world "b1") "p1";
   insert_label demo_registered 4 (demo_new_panel "block");
   PanelSpec.LClick (event_path demo_inserted 5);
   PanelSpec.LToggle "p2"].

Lemma labelled_runs_refine_witness :
  run_inv demo_world /\ page_lsteps demo_world demo_labels demo_labelled_run /\
  abs demo_labelled_run ≡ PanelSpec.run demo_labels (abs demo_world).
Proof.
  assert (Hinv : run_inv demo_world) by (unfold run_inv; decide_by_eval).
  assert (Hr : page_lsteps demo_world demo_labels demo_labelled_run).
  { apply (lsteps_cons _ _ demo_registered); [apply lstep_register; discriminate |].
    apply (lsteps_cons _ _ demo_inserted); [apply lstep_insert; decide_by_eval |].
    apply (lsteps_cons _ _ (fst (click 5 demo_inserted))); [apply lstep_click |].
    apply (lsteps_cons _ _ demo_labelled_run); [apply lstep_toggle; discriminate |].
    apply lsteps_nil. }
  split_and!; [exact Hinv | exact Hr | exact (labelled_runs_refine _ _ _ Hinv Hr)].
Defined.
